(** * Teleport: provisioning tokens, SSH server admission, backend buffer,
      audit log rotation and client keys.

    A shallow embedding of the Go code and the properties proved about it.
    Every function whose Go source is available is translated statement by
    statement; calls that leave the translated files (parsers, the auth
    service, the lock watcher) are taken as parameters of the model. *)

From Stdlib Require Import String Ascii List ZArith Lia Bool Arith PeanoNat.
From Stdlib Require Import Sorting.Sorted Numbers.DecimalString.
Import ListNotations.
Open Scope string_scope.
Open Scope list_scope.

(* ===================================================================== *)
(** * Errors of the [trace] package and string formatting                  *)
(* ===================================================================== *)

Module Trace.

(** The error classes of [github.com/gravitational/trace] used by the code,
    plus [Raw] for an error value that did not come from [trace]. *)
Inductive ErrKind : Type :=
| KBadParameter
| KAccessDenied
| KNotFound
| KLimitExceeded
| KConnectionProblem
| KRaw.

(** An error: its class, the text of [Error()], and the messages added by
    [trace.Wrap(err, msg)] on the way up (innermost last). *)
Record Error : Type := mkError {
  kind : ErrKind;
  msg : string;
  wrapped : list string
}.

Definition BadParameter (m : string) : Error := mkError KBadParameter m [].
Definition AccessDenied (m : string) : Error := mkError KAccessDenied m [].
Definition NotFound (m : string) : Error := mkError KNotFound m [].
Definition RawError (m : string) : Error := mkError KRaw m [].

(** [trace.Wrap(err)] records a stack trace and keeps class and text. *)
Definition Wrap (e : Error) : Error := e.

(** [trace.Wrap(err, msg)]. *)
Definition WrapMsg (e : Error) (m : string) : Error :=
  mkError (kind e) (msg e) (m :: wrapped e).


Definition IsAccessDenied (e : Error) : bool :=
  match kind e with KAccessDenied => true | _ => false end.

(** [strings.Contains(s, substr)]. *)
Fixpoint Contains (s substr : string) : bool :=
  String.prefix substr s ||
  match s with
  | EmptyString => false
  | String _ s' => Contains s' substr
  end.

Definition dquote : string := String "034"%char EmptyString.

(** The body of [strconv.Quote] for text made of printable ASCII: the double
    quote and the backslash are escaped, every other byte is kept. *)
Fixpoint escape (s : string) : string :=
  match s with
  | EmptyString => EmptyString
  | String c s' =>
    if Ascii.eqb c "034"%char then String "\"%char (String c (escape s'))
    else if Ascii.eqb c "\"%char then String "\"%char (String c (escape s'))
    else String c (escape s')
  end.

(** The verb [%q] of [fmt] applied to a string. *)
Definition fmt_q (s : string) : string := dquote ++ escape s ++ dquote.

(** The verb [%d] (and [%v] on an integer). *)
Definition fmt_d (z : Z) : string :=
  NilEmpty.string_of_int (Z.to_int z).

(** A value or an error, for Go functions returning [(T, error)]. *)
Inductive result (A : Type) : Type :=
| Ok (a : A)
| Err (e : Error).
Arguments Ok {A} a.
Arguments Err {A} e.

End Trace.

Import Trace.

(* ===================================================================== *)
(** * api/types: provisioning tokens                                       *)
(* ===================================================================== *)

Module Types.

Definition SystemRole := string.
Definition JoinMethod := string.

Definition JoinMethodUnspecified : JoinMethod := "".
Definition JoinMethodToken : JoinMethod := "token".
Definition JoinMethodEC2 : JoinMethod := "ec2".
Definition JoinMethodIAM : JoinMethod := "iam".

Definition KindToken : string := "token".
Definition V2 : string := "v2".

(** [time.Duration]: nanoseconds. *)
Definition Duration := Z.
Definition Second : Duration := 1000000000%Z.
Definition Minute : Duration := (60 * Second)%Z.

Record Metadata : Type := mkMetadata {
  Name : string;
  Namespace : string;
  Description : string;
  Labels : list (string * string);
  Expires : option Z;
  ID : Z
}.

Record TokenRule : Type := mkTokenRule {
  AWSAccount : string;
  AWSRegions : list string;
  AWSRole : string;
  AWSARN : string
}.

Record ProvisionTokenSpecV2 : Type := mkSpec {
  Roles : list SystemRole;
  Allow : list TokenRule;
  AWSIIDTTL : Duration;
  JoinMethod_ : JoinMethod
}.

Record ProvisionTokenV2 : Type := mkToken {
  Kind : string;
  SubKind : string;
  Version : string;
  Meta : Metadata;
  Spec : ProvisionTokenSpecV2
}.

Definition setStaticFields (p : ProvisionTokenV2) : ProvisionTokenV2 :=
  mkToken KindToken (SubKind p) V2 (Meta p) (Spec p).

Definition withMetadata (p : ProvisionTokenV2) (m : Metadata) : ProvisionTokenV2 :=
  mkToken (Kind p) (SubKind p) (Version p) m (Spec p).

Definition withJoinMethod (p : ProvisionTokenV2) (j : JoinMethod) : ProvisionTokenV2 :=
  mkToken (Kind p) (SubKind p) (Version p) (Meta p)
    (mkSpec (Roles (Spec p)) (Allow (Spec p)) (AWSIIDTTL (Spec p)) j).

Definition withAWSIIDTTL (p : ProvisionTokenV2) (d : Duration) : ProvisionTokenV2 :=
  mkToken (Kind p) (SubKind p) (Version p) (Meta p)
    (mkSpec (Roles (Spec p)) (Allow (Spec p)) d (JoinMethod_ (Spec p))).

(** The loop over the allow rules in the [JoinMethodEC2] case. *)
Fixpoint checkEC2Rules (rules : list TokenRule) : option Error :=
  match rules with
  | [] => None
  | allowRule :: rest =>
    if negb (AWSARN allowRule =? "") then
      Some (BadParameter ("the " ++ fmt_q JoinMethodEC2
        ++ " join method does not support the " ++ fmt_q "aws_arn" ++ " parameter"))
    else if (AWSAccount allowRule =? "") && (AWSRole allowRule =? "") then
      Some (BadParameter ("allow rule for " ++ fmt_q JoinMethodEC2
        ++ " join method must set " ++ fmt_q "aws_account" ++ " or " ++ fmt_q "aws_role"))
    else checkEC2Rules rest
  end.

(** The loop over the allow rules in the [JoinMethodIAM] case.  The last
    message is built from [JoinMethodEC2], as in the source. *)
Fixpoint checkIAMRules (rules : list TokenRule) : option Error :=
  match rules with
  | [] => None
  | allowRule :: rest =>
    if negb (AWSRole allowRule =? "") then
      Some (BadParameter ("the " ++ fmt_q JoinMethodIAM
        ++ " join method does not support the " ++ fmt_q "aws_role" ++ " parameter"))
    else if negb (Nat.eqb (List.length (AWSRegions allowRule)) 0) then
      Some (BadParameter ("the " ++ fmt_q JoinMethodIAM
        ++ " join method does not support the " ++ fmt_q "aws_regions" ++ " parameter"))
    else if (AWSAccount allowRule =? "") && (AWSARN allowRule =? "") then
      Some (BadParameter ("allow rule for " ++ fmt_q JoinMethodEC2
        ++ " join method must set " ++ fmt_q "aws_account" ++ " or " ++ fmt_q "aws_arn"))
    else checkIAMRules rest
  end.

Section CheckAndSetDefaults.

(** [Metadata.CheckAndSetDefaults] and [SystemRoles.Check] live in files of
    [api/types] outside this development: the first returns the metadata
    with its defaults set and an optional error, the second an optional
    error. *)
Variable Metadata_CheckAndSetDefaults : Metadata -> Metadata * option Error.
Variable SystemRoles_Check : list SystemRole -> option Error.

(** [ProvisionTokenV2.CheckAndSetDefaults]: the receiver is mutated in
    place, so the model returns the token as the call leaves it together
    with the error, if any. *)
Definition CheckAndSetDefaults (p : ProvisionTokenV2)
  : ProvisionTokenV2 * option Error :=
  let p := setStaticFields p in
  let '(m, merr) := Metadata_CheckAndSetDefaults (Meta p) in
  let p := withMetadata p m in
  match merr with
  | Some err => (p, Some (Wrap err))
  | None =>
    if Nat.eqb (List.length (Roles (Spec p))) 0 then
      (p, Some (BadParameter "provisioning token is missing roles"))
    else
      match SystemRoles_Check (Roles (Spec p)) with
      | Some err => (p, Some (Wrap err))
      | None =>
        let hasAllowRules := Nat.ltb 0 (List.length (Allow (Spec p))) in
        let p :=
          if JoinMethod_ (Spec p) =? JoinMethodUnspecified then
            if hasAllowRules then withJoinMethod p JoinMethodEC2
            else withJoinMethod p JoinMethodToken
          else p in
        if JoinMethod_ (Spec p) =? JoinMethodToken then
          if hasAllowRules then
            (p, Some (BadParameter ("allow rules are not compatible with the "
                   ++ fmt_q JoinMethodToken ++ " join method")))
          else (p, None)
        else if JoinMethod_ (Spec p) =? JoinMethodEC2 then
          if negb hasAllowRules then
            (p, Some (BadParameter ("the " ++ fmt_q JoinMethodEC2
                   ++ " join method requires defined token allow rules")))
          else
            match checkEC2Rules (Allow (Spec p)) with
            | Some err => (p, Some err)
            | None =>
              if Z.eqb (AWSIIDTTL (Spec p)) 0 then
                (withAWSIIDTTL p (5 * Minute)%Z, None)
              else (p, None)
            end
        else if JoinMethod_ (Spec p) =? JoinMethodIAM then
          if negb hasAllowRules then
            (p, Some (BadParameter ("the " ++ fmt_q JoinMethodIAM
                   ++ " join method requires defined token allow rules")))
          else
            match checkIAMRules (Allow (Spec p)) with
            | Some err => (p, Some err)
            | None => (p, None)
            end
        else
          (p, Some (BadParameter ("unknown join method "
                 ++ fmt_q (JoinMethod_ (Spec p)))))
      end
  end.

(** The join method the switch runs on: the stored one, or the default
    derived from the presence of allow rules. *)
Definition effectiveJoinMethod (p : ProvisionTokenV2) : JoinMethod :=
  if JoinMethod_ (Spec p) =? JoinMethodUnspecified then
    match Allow (Spec p) with
    | [] => JoinMethodToken
    | _ :: _ => JoinMethodEC2
    end
  else JoinMethod_ (Spec p).

Definition ec2RuleOK (r : TokenRule) : Prop :=
  (AWSAccount r <> "" \/ AWSRole r <> "") /\ AWSARN r = "".

Definition iamRuleOK (r : TokenRule) : Prop :=
  (AWSAccount r <> "" \/ AWSARN r <> "") /\ AWSRole r = "" /\ AWSRegions r = [].

(** The structural conditions on roles and allow rules, read off the
    description of the token: nothing is said of the metadata or of a join
    method other than the three named ones. *)
Definition rulesMatchMethod (p : ProvisionTokenV2) : Prop :=
  Roles (Spec p) <> [] /\
  SystemRoles_Check (Roles (Spec p)) = None /\
  (effectiveJoinMethod p = JoinMethodToken -> Allow (Spec p) = []) /\
  (effectiveJoinMethod p = JoinMethodEC2 \/ effectiveJoinMethod p = JoinMethodIAM ->
     Allow (Spec p) <> []) /\
  (effectiveJoinMethod p = JoinMethodEC2 -> Forall ec2RuleOK (Allow (Spec p))) /\
  (effectiveJoinMethod p = JoinMethodIAM -> Forall iamRuleOK (Allow (Spec p))).

(** The same conditions with the two guards of the code added: the metadata
    must validate and the join method must be one of the three known ones. *)
Definition validToken (p : ProvisionTokenV2) : Prop :=
  snd (Metadata_CheckAndSetDefaults (Meta p)) = None /\
  Roles (Spec p) <> [] /\
  SystemRoles_Check (Roles (Spec p)) = None /\
  ((effectiveJoinMethod p = JoinMethodToken /\ Allow (Spec p) = []) \/
   (effectiveJoinMethod p = JoinMethodEC2 /\ Allow (Spec p) <> [] /\
      Forall ec2RuleOK (Allow (Spec p))) \/
   (effectiveJoinMethod p = JoinMethodIAM /\ Allow (Spec p) <> [] /\
      Forall iamRuleOK (Allow (Spec p)))).

End CheckAndSetDefaults.

Section CheckAndSetDefaultsFacts.

Variable Metadata_CheckAndSetDefaults : Metadata -> Metadata * option Error.
Variable SystemRoles_Check : list SystemRole -> option Error.

Lemma checkEC2Rules_None (rules : list TokenRule) :
  checkEC2Rules rules = None <-> Forall ec2RuleOK rules.
Proof.
  induction rules as [|r rest IH]; simpl.
  - split; [constructor | reflexivity].
  - destruct (AWSARN r =? "") eqn:Harn; simpl.
    + apply String.eqb_eq in Harn.
      destruct (AWSAccount r =? "") eqn:Hacc; simpl.
      * apply String.eqb_eq in Hacc.
        destruct (AWSRole r =? "") eqn:Hrole; simpl.
        -- apply String.eqb_eq in Hrole. split; [discriminate|].
           intros H. inversion H as [|? ? [[Ha|Hr] _] _]; subst; contradiction.
        -- apply String.eqb_neq in Hrole. rewrite IH. split.
           ++ intros H. constructor; [split; [right|]|]; assumption.
           ++ intros H. inversion H; assumption.
      * apply String.eqb_neq in Hacc. rewrite IH. split.
        -- intros H. constructor; [split; [left|]|]; assumption.
        -- intros H. inversion H; assumption.
    + apply String.eqb_neq in Harn. split; [discriminate|].
      intros H. inversion H as [|? ? [_ Ha] _]. contradiction.
Qed.

Lemma checkIAMRules_None (rules : list TokenRule) :
  checkIAMRules rules = None <-> Forall iamRuleOK rules.
Proof.
  induction rules as [|r rest IH]; simpl.
  - split; [constructor | reflexivity].
  - destruct (AWSRole r =? "") eqn:Hrole; simpl.
    2:{ apply String.eqb_neq in Hrole. split; [discriminate|].
        intros H. inversion H as [|? ? [_ [Hr _]] _]. contradiction. }
    apply String.eqb_eq in Hrole.
    destruct (AWSRegions r) as [|reg regs] eqn:Hreg; simpl.
    2:{ split; [discriminate|].
        intros H. inversion H as [|? ? [_ [_ Hr]] _]. rewrite Hreg in Hr. discriminate. }
    destruct (AWSAccount r =? "") eqn:Hacc; simpl.
    + apply String.eqb_eq in Hacc.
      destruct (AWSARN r =? "") eqn:Harn; simpl.
      * apply String.eqb_eq in Harn. split; [discriminate|].
        intros H. inversion H as [|? ? [[Ha|Ha] _] _]; contradiction.
      * apply String.eqb_neq in Harn. rewrite IH. split.
        -- intros H. constructor; [|assumption].
           repeat split; [right|..]; assumption.
        -- intros H. inversion H; assumption.
    + apply String.eqb_neq in Hacc. rewrite IH. split.
      * intros H. constructor; [|assumption].
        repeat split; [left|..]; assumption.
      * intros H. inversion H; assumption.
Qed.

Local Arguments checkEC2Rules : simpl never.
Local Arguments checkIAMRules : simpl never.

Local Ltac nope := let H := fresh in intro H; discriminate H.

(** C1 (amended): [CheckAndSetDefaults] succeeds exactly when the metadata
    validates, at least one role is set and the roles are valid, the join
    method (defaulted to ec2 when allow rules are present and to token
    otherwise) is token, ec2 or iam, the token method has no allow rule, the
    ec2 and iam methods have at least one, every ec2 rule sets account or
    role and no ARN, and every iam rule sets account or ARN and neither role
    nor regions.  On success the stored join method is the defaulted one and
    an unset AWSIIDTTL of an ec2 token becomes 5 minutes. *)
Theorem CheckAndSetDefaults_succeeds_iff_valid (p : ProvisionTokenV2) :
  (snd (CheckAndSetDefaults Metadata_CheckAndSetDefaults SystemRoles_Check p) = None
     <-> validToken Metadata_CheckAndSetDefaults SystemRoles_Check p) /\
  (snd (CheckAndSetDefaults Metadata_CheckAndSetDefaults SystemRoles_Check p) = None ->
     let p' := fst (CheckAndSetDefaults Metadata_CheckAndSetDefaults SystemRoles_Check p) in
     JoinMethod_ (Spec p') = effectiveJoinMethod p /\
     AWSIIDTTL (Spec p') =
       (if String.eqb (effectiveJoinMethod p) JoinMethodEC2 && Z.eqb (AWSIIDTTL (Spec p)) 0
        then (5 * Minute)%Z else AWSIIDTTL (Spec p)) /\
     Roles (Spec p') = Roles (Spec p) /\
     Allow (Spec p') = Allow (Spec p)).
Proof.
  destruct p as [k sk v m [roles allow ttl jm]].
  unfold validToken, CheckAndSetDefaults, effectiveJoinMethod; simpl.
  destruct (Metadata_CheckAndSetDefaults m) as [m' [merr|]] eqn:HM; simpl.
  { split; [split; [nope | intros [H _]; discriminate] | nope]. }
  destruct roles as [|r roles]; simpl.
  { split; [split; [nope | intros (_ & H & _); contradiction] | nope]. }
  destruct (SystemRoles_Check (r :: roles)) as [rerr|] eqn:HR; simpl.
  { split; [split; [nope | intros (_ & _ & H & _); discriminate] | nope]. }
  destruct (jm =? JoinMethodUnspecified) eqn:Hjm; simpl.
  - (* the join method is defaulted *)
    destruct allow as [|a allow]; simpl.
    + split; [split; [intros _ | reflexivity] | intros _; auto].
      repeat split; try discriminate. left. split; reflexivity.
    + destruct (checkEC2Rules (a :: allow)) as [e|] eqn:HE; simpl.
      * split; [split; [nope|] | nope].
        intros (_ & _ & _ & [[H _] | [(_ & _ & H) | (H & _)]]); try discriminate.
        apply checkEC2Rules_None in H. rewrite H in HE. discriminate.
      * apply checkEC2Rules_None in HE.
        split.
        -- split; [intros _ | destruct (Z.eqb ttl 0); reflexivity].
           repeat split; try discriminate.
           right. left. repeat split; [discriminate | exact HE].
        -- intros _. destruct (Z.eqb ttl 0); simpl; auto.
  - (* the join method is given *)
    destruct (jm =? JoinMethodToken) eqn:Htok.
    { apply String.eqb_eq in Htok. subst jm.
      destruct allow as [|a allow]; simpl.
      - split; [split; [intros _ | reflexivity] | intros _; auto].
        repeat split; try discriminate. left. split; reflexivity.
      - split; [split; [nope|] | nope].
        intros (_ & _ & _ & [[_ H] | [(H & _) | (H & _)]]); discriminate. }
    destruct (jm =? JoinMethodEC2) eqn:Hec2.
    { apply String.eqb_eq in Hec2. subst jm.
      destruct allow as [|a allow]; simpl.
      - split; [split; [nope|] | nope].
        intros (_ & _ & _ & [[H _] | [(_ & H & _) | (H & _)]]);
          try discriminate; contradiction.
      - destruct (checkEC2Rules (a :: allow)) as [e|] eqn:HE; simpl.
        + split; [split; [nope|] | nope].
          intros (_ & _ & _ & [[H _] | [(_ & _ & H) | (H & _)]]); try discriminate.
          apply checkEC2Rules_None in H. rewrite H in HE. discriminate.
        + apply checkEC2Rules_None in HE.
          split.
          * split; [intros _ | destruct (Z.eqb ttl 0); reflexivity].
            repeat split; try discriminate.
            right. left. repeat split; [discriminate | exact HE].
          * intros _. destruct (Z.eqb ttl 0); simpl; auto. }
    destruct (jm =? JoinMethodIAM) eqn:Hiam.
    { apply String.eqb_eq in Hiam. subst jm.
      destruct allow as [|a allow]; simpl.
      - split; [split; [nope|] | nope].
        intros (_ & _ & _ & [[H _] | [(H & _) | (_ & H & _)]]);
          try discriminate; contradiction.
      - destruct (checkIAMRules (a :: allow)) as [e|] eqn:HE; simpl.
        + split; [split; [nope|] | nope].
          intros (_ & _ & _ & [[H _] | [(H & _) | (_ & _ & H)]]); try discriminate.
          apply checkIAMRules_None in H. rewrite H in HE. discriminate.
        + apply checkIAMRules_None in HE.
          split.
          * split; [intros _ | reflexivity].
            repeat split; try discriminate.
            right. right. repeat split; [discriminate | exact HE].
          * intros _. simpl; auto. }
    apply String.eqb_neq in Htok, Hec2, Hiam.
    split; [split; [nope|] | nope].
    intros (_ & _ & _ & [[H _] | [(H & _) | (H & _)]]); contradiction.
Qed.

End CheckAndSetDefaultsFacts.

(** Modelled from the spec: [Metadata.CheckAndSetDefaults], which is in
    another file of [api/types]: the base metadata is valid when the name is
    not empty, and the namespace gets its default. *)
Definition metadataNeedsName (m : Metadata) : Metadata * option Error :=
  if Name m =? "" then (m, Some (BadParameter "missing parameter Name"))
  else (mkMetadata (Name m)
          (if Namespace m =? "" then "default" else Namespace m)
          (Description m) (Labels m) (Expires m) (ID m), None).

Definition knownRoles : list SystemRole := ["Node"; "Proxy"; "Auth"; "Kube"; "App"; "Db"].

(** Modelled from the spec: [SystemRoles.Check], which is in another file
    of [api/types]: every role name must be one of the known system
    roles. *)
Fixpoint rolesAreKnown (roles : list SystemRole) : option Error :=
  match roles with
  | [] => None
  | r :: rest =>
    if existsb (String.eqb r) knownRoles then rolesAreKnown rest
    else Some (BadParameter ("role " ++ r ++ " is not registered"))
  end.

Definition tokenNamed (name : string) (spec : ProvisionTokenSpecV2) : ProvisionTokenV2 :=
  mkToken "" "" "" (mkMetadata name "" "" [] None 0%Z) spec.

(** A token whose join method is none of the known ones. *)
Definition unknownMethodToken : ProvisionTokenV2 :=
  tokenNamed "join-1" (mkSpec ["Node"] [] 0%Z "kubernetes").

(** An iam token whose only allow rule sets nothing at all. *)
Definition iamEmptyRuleToken : ProvisionTokenV2 :=
  tokenNamed "join-2" (mkSpec ["Node"] [mkTokenRule "" [] "" ""] 0%Z JoinMethodIAM).

(** C1 (as stated) fails: a token with a valid role, no allow rule and the
    join method "kubernetes" meets every listed condition on roles and
    rules, yet [CheckAndSetDefaults] rejects it as an unknown join method. *)
Lemma CheckAndSetDefaults_rejects_unknown_method :
  rulesMatchMethod rolesAreKnown unknownMethodToken /\
  snd (CheckAndSetDefaults metadataNeedsName rolesAreKnown unknownMethodToken)
    = Some (BadParameter ("unknown join method " ++ fmt_q "kubernetes")).
Proof.
  split.
  - unfold rulesMatchMethod; simpl.
    repeat split; try discriminate.
    + intros [H | H]; discriminate H.
  - vm_compute. reflexivity.
Qed.

(** An iam token whose allow rule sets a role, which iam does not take. *)
Definition iamRoleRuleToken : ProvisionTokenV2 :=
  tokenNamed "join-3"
    (mkSpec ["Node"] [mkTokenRule "123456789012" [] "admin" ""] 0%Z JoinMethodIAM).

(** An ec2 token of the older kind: allow rules and no join method. *)
Definition legacyEC2Token : ProvisionTokenV2 :=
  tokenNamed "join-0"
    (mkSpec ["Node"] [mkTokenRule "123456789012" [] "" ""] 0%Z JoinMethodUnspecified).

(** C2: on an iam token whose allow rule sets neither aws_account nor
    aws_arn, the error is a BadParameter whose text quotes the ec2 method
    and never mentions iam, whereas the other message of the iam case does
    name iam. *)
Theorem CheckAndSetDefaults_iam_rule_message_names_ec2 :
  (exists m : string,
     snd (CheckAndSetDefaults metadataNeedsName rolesAreKnown iamEmptyRuleToken)
       = Some (BadParameter m) /\
     m = ("allow rule for " ++ fmt_q "ec2" ++ " join method must set "
           ++ fmt_q "aws_account" ++ " or " ++ fmt_q "aws_arn")%string /\
     Contains m JoinMethodEC2 = true /\
     Contains m JoinMethodIAM = false) /\
  (exists m : string,
     snd (CheckAndSetDefaults metadataNeedsName rolesAreKnown iamRoleRuleToken)
       = Some (BadParameter m) /\
     Contains m (fmt_q JoinMethodIAM) = true /\
     Contains m (fmt_q "aws_role") = true).
Proof.
  split.
  - eexists. split; [vm_compute; reflexivity|].
    split; [reflexivity|].
    split; vm_compute; reflexivity.
  - eexists. split; [vm_compute; reflexivity|].
    split; vm_compute; reflexivity.
Qed.

(** C1 on a token of the older kind: it validates, and comes out as an ec2
    token with a TTL of five minutes. *)
Lemma CheckAndSetDefaults_succeeds_iff_valid_witness :
  snd (CheckAndSetDefaults metadataNeedsName rolesAreKnown legacyEC2Token) = None /\
  JoinMethod_ (Spec (fst (CheckAndSetDefaults metadataNeedsName rolesAreKnown
                            legacyEC2Token))) = JoinMethodEC2 /\
  AWSIIDTTL (Spec (fst (CheckAndSetDefaults metadataNeedsName rolesAreKnown
                          legacyEC2Token))) = 300000000000%Z.
Proof.
  destruct (CheckAndSetDefaults_succeeds_iff_valid metadataNeedsName rolesAreKnown
              legacyEC2Token) as [Hiff Hdefaults].
  assert (Hvalid : validToken metadataNeedsName rolesAreKnown legacyEC2Token).
  { unfold validToken. simpl.
    split; [reflexivity|]. split; [discriminate|]. split; [reflexivity|].
    right. left. split; [reflexivity|]. split; [discriminate|].
    constructor; [|constructor].
    split; [left; discriminate | reflexivity]. }
  apply Hiff in Hvalid.
  split; [exact Hvalid|].
  destruct (Hdefaults Hvalid) as (Hjm & Httl & _).
  split; [exact Hjm | exact Httl].
Defined.

End Types.

(* ===================================================================== *)
(** * lib/srv/regular: admission of connections and channels               *)
(* ===================================================================== *)

Module Regular.

(** String constants of the packages [teleport], [events] and [tracessh]
    that the server refers to by name. *)
Record Constants : Type := mkConstants {
  ComponentNode : string;
  ComponentProxy : string;
  MaxLeases : string;
  SessionRejectedEvent : string;
  SessionRejectedCode : string;
  SessionRejectedReasonMaxSessions : string;
  EventProtocolSSH : string;
  ChanSession : string;
  ChanDirectTCPIP : string;
  TracingChannel : string
}.

Definition LockingMode := string.
Definition LockTarget := string.

Record UserMetadata : Type := mkUserMetadata {
  User : string;
  Login : string;
  Impersonator : string
}.

(** [srv.IdentityContext] with the answers of its [AccessChecker]. *)
Record IdentityContext : Type := mkIdentityContext {
  TeleportUser : string;
  GetUserMetadata : UserMetadata;
  AccessChecker_LockingMode : LockingMode -> LockingMode;
  AccessChecker_MaxConnections : Z;
  AccessChecker_MaxSessions : Z
}.

(** [apievents.SessionReject]. *)
Record SessionReject : Type := mkSessionReject {
  Metadata_Type : string;
  Metadata_Code : string;
  UserMeta : UserMetadata;
  Protocol : string;
  LocalAddr : string;
  RemoteAddr : string;
  ServerID : string;
  ServerNamespace : string;
  Reason : string;
  Maximum : Z
}.

Definition withReason (ev : SessionReject) (r : string) : SessionReject :=
  mkSessionReject (Metadata_Type ev) (Metadata_Code ev) (UserMeta ev) (Protocol ev)
    (LocalAddr ev) (RemoteAddr ev) (ServerID ev) (ServerNamespace ev) r (Maximum ev).

Definition withMaximum (ev : SessionReject) (m : Z) : SessionReject :=
  mkSessionReject (Metadata_Type ev) (Metadata_Code ev) (UserMeta ev) (Protocol ev)
    (LocalAddr ev) (RemoteAddr ev) (ServerID ev) (ServerNamespace ev) (Reason ev) m.

Inductive SemaphoreKind : Type := SemaphoreKindConnection.

(** [types.AcquireSemaphoreRequest] inside [services.SemaphoreLockConfig]. *)
Record SemaphoreLockConfig : Type := mkSemaphoreLockConfig {
  Expiry : Z;
  SemaphoreKind_ : SemaphoreKind;
  SemaphoreName : string;
  MaxLeases_ : Z;
  Holder : string
}.

(** [ssh.RejectionReason]. *)
Inductive RejectionReason : Type :=
| Prohibited
| ConnectionFailed
| UnknownChannelType
| ResourceShortage.

(** The goroutines the two handlers start. *)
Inductive Task : Type :=
| CloseConnOnLockLoss
| HandleProxyJump
| HandleSessionRequests (decrOnExit : bool)
| HandleDirectTCPIPRequest.

(** What a handler does to the outside, in program order. *)
Inductive Effect : Type :=
| CheckLock (mode : LockingMode) (targets : list LockTarget)
| EmitAuditEvent (ev : SessionReject)
| LogWarn (m : string)
| LogError (m : string)
| CounterInc
| AcquireSemaphore (cfg : SemaphoreLockConfig)
| ChannelAccept
| ChannelReject (reason : RejectionReason) (m : string)
| ChannelClose
| DecrSessions
| Go (t : Task).

(** [sshutils.ConnectionContext]: the addresses of the connection and the
    number of session channels currently counted against it. *)
Record ConnectionContext : Type := mkConnectionContext {
  ServerConn_LocalAddr : string;
  ServerConn_RemoteAddr : string;
  sessions : Z
}.

(** Modelled from the spec: [ConnectionContext.IncrSessions] of
    [lib/sshutils], which is not among the sources.  A session channel
    beyond the maximum is refused; otherwise the counter goes up by one and
    the caller receives the function that takes it down again. *)
Definition IncrSessions (ccx : ConnectionContext) (max : Z)
  : ConnectionContext * bool :=
  if (max <=? sessions ccx)%Z then (ccx, false)
  else (mkConnectionContext (ServerConn_LocalAddr ccx) (ServerConn_RemoteAddr ccx)
          (sessions ccx + 1)%Z, true).

Definition decr (ccx : ConnectionContext) : ConnectionContext :=
  mkConnectionContext (ServerConn_LocalAddr ccx) (ServerConn_RemoteAddr ccx)
    (sessions ccx - 1)%Z.

(** [ssh.NewChannel]. *)
Record NewChannel : Type := mkNewChannel {
  ChannelType : string;
  ExtraData : string
}.

(** The fields of [Server] the two handlers read. *)
Record Server : Type := mkServer {
  proxyMode : bool;
  uuid : string;
  namespace : string
}.

(** The answers of everything the handlers call outside this file: the
    authentication handlers, the access point, the lock watcher, the
    semaphore service, the audit emitter and the SSH channel. *)
Record Env : Type := mkEnv {
  (* s.authHandlers.CreateIdentityContext(ccx.ServerConn) *)
  CreateIdentityContext : ConnectionContext -> result IdentityContext;
  (* s.GetAccessPoint().GetAuthPreference(ctx), then authPref.GetLockingMode() *)
  GetAuthPreference_LockingMode : result LockingMode;
  (* srv.ComputeLockTargets(s, identityContext) *)
  ComputeLockTargets : Server -> IdentityContext -> result (list LockTarget);
  (* s.lockWatcher.CheckLockInForce(lockingMode, lockTargets...) *)
  CheckLockInForce : LockingMode -> list LockTarget -> option Error;
  (* s.GetAccessPoint().GetClusterNetworkingConfig(ctx), then
     netConfig.GetSessionControlTimeout() *)
  GetSessionControlTimeout : result Z;
  (* services.AcquireSemaphoreLock(ctx, cfg): the error, if the lease is refused *)
  AcquireSemaphoreLock : SemaphoreLockConfig -> option Error;
  (* s.EmitAuditEvent(s.ctx, event) *)
  EmitAuditEvent_err : SessionReject -> option Error;
  (* nch.Accept(), nch.Reject(...), ch.Close() *)
  Accept_err : NewChannel -> option Error;
  Reject_err : NewChannel -> option Error;
  Close_err : NewChannel -> option Error;
  (* sshutils.ParseDirectTCPIPReq(nch.ExtraData()) *)
  ParseDirectTCPIPReq_err : string -> option Error
}.

Section Handlers.

Variable K : Constants.
Variable env : Env.

Definition Component (s : Server) : string :=
  if proxyMode s then ComponentProxy K else ComponentNode K.

Definition GetNamespace (s : Server) : string := namespace s.

(** [s.EmitAuditEvent(s.ctx, event)] followed by the warning logged when it
    fails. *)
Definition emitSessionReject (ev : SessionReject) : list Effect :=
  EmitAuditEvent ev ::
  match EmitAuditEvent_err env ev with
  | Some _ => [LogWarn "Failed to emit session reject event."]
  | None => []
  end.

Definition rejectChannel (nch : NewChannel) (reason : RejectionReason) (m : string)
  : list Effect :=
  ChannelReject reason m ::
  match Reject_err env nch with
  | Some err => [LogWarn ("Failed to reject new ssh.Channel: " ++ msg err)]
  | None => []
  end.

(** Effects [es] happen, then the rest [r] runs. *)
Definition after {A : Type} (es : list Effect) (r : A * list Effect)
  : A * list Effect :=
  (fst r, es ++ snd r).

(** [Server.HandleNewConn]: the error returned (the context is returned
    unchanged in every case) and the effects. *)
Definition HandleNewConn (s : Server) (ccx : ConnectionContext)
  : option Error * list Effect :=
  match CreateIdentityContext env ccx with
  | Err err => (Some (Wrap err), [])
  | Ok identityContext =>
  match GetAuthPreference_LockingMode env with
  | Err err => (Some (Wrap err), [])
  | Ok authPrefMode =>
  let lockingMode := AccessChecker_LockingMode identityContext authPrefMode in
  let event :=
    mkSessionReject (SessionRejectedEvent K) (SessionRejectedCode K)
      (GetUserMetadata identityContext) (EventProtocolSSH K)
      (ServerConn_LocalAddr ccx) (ServerConn_RemoteAddr ccx)
      (uuid s) (GetNamespace s) "" 0%Z in
  match ComputeLockTargets env s identityContext with
  | Err err => (Some (Wrap err), [])
  | Ok lockTargets =>
  after [CheckLock lockingMode lockTargets]
  match CheckLockInForce env lockingMode lockTargets with
  | Some lockErr =>
    (Some (Wrap lockErr), emitSessionReject (withReason event (msg lockErr)))
  | None =>
  (* Don't apply the following checks in non-node contexts. *)
  if negb (Component s =? ComponentNode K) then (None, [])
  else
  let maxConnections := AccessChecker_MaxConnections identityContext in
  if (maxConnections =? 0)%Z then (None, [])
  else
  match GetSessionControlTimeout env with
  | Err err => (Some (Wrap err), [])
  | Ok timeout =>
  let cfg := mkSemaphoreLockConfig timeout SemaphoreKindConnection
               (TeleportUser identityContext) maxConnections (uuid s) in
  after [AcquireSemaphore cfg]
  match AcquireSemaphoreLock env cfg with
  | Some err =>
    if Contains (msg err) (MaxLeases K) then
      (Some (Wrap (AccessDenied
         ("too many concurrent ssh connections for user "
            ++ fmt_q (TeleportUser identityContext)
            ++ " (max=" ++ fmt_d maxConnections ++ ")"))),
       CounterInc ::
       emitSessionReject
         (withMaximum (withReason event (SessionRejectedEvent K)) maxConnections))
    else (Some (Wrap err), [])
  | None => (None, [Go CloseConnOnLockLoss])
  end end end end end end.

(** The tracing probe: the channel is accepted and closed at once. *)
Definition handleTracingChannel (nch : NewChannel) : list Effect :=
  match Accept_err env nch with
  | Some err =>
    ChannelReject ConnectionFailed (msg err) ::
    match Reject_err env nch with
    | Some _ => [LogWarn "Unable to reject channel"]
    | None => []
    end
  | None =>
    ChannelAccept :: ChannelClose ::
    match Close_err env nch with
    | Some _ => [LogWarn "Unable to close channel"]
    | None => []
    end
  end.

Definition acceptFailed (nch : NewChannel) (err : Error) : list Effect :=
  LogWarn ("Unable to accept channel: " ++ msg err) ::
  rejectChannel nch ConnectionFailed ("unable to accept channel: " ++ msg err).

(** [nch.Accept()] for a session channel of a node; [counted] tells whether
    [IncrSessions] gave a [decr] to call when the channel goes away. *)
Definition acceptSession (ccx : ConnectionContext) (nch : NewChannel) (counted : bool)
  : ConnectionContext * list Effect :=
  match Accept_err env nch with
  | Some err =>
    if counted then (decr ccx, acceptFailed nch err ++ [DecrSessions])
    else (ccx, acceptFailed nch err)
  | None => (ccx, [ChannelAccept; Go (HandleSessionRequests counted)])
  end.

(** [Server.HandleNewChan]: the connection context as the call leaves it
    and the effects. *)
Definition HandleNewChan (s : Server) (ccx : ConnectionContext) (nch : NewChannel)
  : ConnectionContext * list Effect :=
  match CreateIdentityContext env ccx with
  | Err err =>
    (ccx, rejectChannel nch Prohibited
            ("Unable to create identity from connection: " ++ msg err))
  | Ok identityContext =>
  let channelType := ChannelType nch in
  if proxyMode s then
    if channelType =? TracingChannel K then (ccx, handleTracingChannel nch)
    else if channelType =? ChanDirectTCPIP K then
      match ParseDirectTCPIPReq_err env (ExtraData nch) with
      | Some err =>
        (ccx, LogError "Failed to parse request data" ::
              rejectChannel nch UnknownChannelType "failed to parse direct-tcpip request")
      | None =>
        match Accept_err env nch with
        | Some err => (ccx, acceptFailed nch err)
        | None => (ccx, [ChannelAccept; Go HandleProxyJump])
        end
      end
    else if channelType =? ChanSession K then
      match Accept_err env nch with
      | Some err => (ccx, acceptFailed nch err)
      | None => (ccx, [ChannelAccept; Go (HandleSessionRequests false)])
      end
    else
      (ccx, rejectChannel nch UnknownChannelType
              ("unknown channel type: " ++ channelType))
  else
    if channelType =? TracingChannel K then (ccx, handleTracingChannel nch)
    else if channelType =? ChanSession K then
      let max := AccessChecker_MaxSessions identityContext in
      if negb (max =? 0)%Z then
        let '(ccx', ok) := IncrSessions ccx max in
        if negb ok then
          (* user has exceeded their max concurrent ssh sessions. *)
          (ccx',
           emitSessionReject
             (mkSessionReject (SessionRejectedEvent K) (SessionRejectedCode K)
                (GetUserMetadata identityContext) (EventProtocolSSH K)
                (ServerConn_LocalAddr ccx) (ServerConn_RemoteAddr ccx)
                (uuid s) (GetNamespace s)
                (SessionRejectedReasonMaxSessions K) max)
           ++ rejectChannel nch Prohibited
                ("too many session channels for user "
                   ++ fmt_q (TeleportUser identityContext)
                   ++ " (max=" ++ fmt_d max ++ ")"))
        else acceptSession ccx' nch true
      else acceptSession ccx nch false
    else if channelType =? ChanDirectTCPIP K then
      match ParseDirectTCPIPReq_err env (ExtraData nch) with
      | Some err =>
        (ccx, LogError "Failed to parse request data" ::
              rejectChannel nch UnknownChannelType "failed to parse direct-tcpip request")
      | None =>
        match Accept_err env nch with
        | Some err => (ccx, acceptFailed nch err)
        | None => (ccx, [ChannelAccept; Go HandleDirectTCPIPRequest])
        end
      end
    else
      (ccx, rejectChannel nch UnknownChannelType
              ("unknown channel type: " ++ channelType))
  end.

(** No effect of the list acquires a semaphore lease. *)
Definition noSemaphore (es : list Effect) : Prop :=
  forall cfg, ~ In (AcquireSemaphore cfg) es.

(** The steps of [HandleNewConn] before the concurrency checks went
    through: the identity, the locking mode and the lock targets were
    obtained. *)
Definition preludeOK (s : Server) (ccx : ConnectionContext)
    (ic : IdentityContext) (mode : LockingMode) (targets : list LockTarget) : Prop :=
  CreateIdentityContext env ccx = Ok ic /\
  GetAuthPreference_LockingMode env = Ok mode /\
  ComputeLockTargets env s ic = Ok targets.

Lemma Component_node (s : Server) :
  proxyMode s = false -> (Component s =? ComponentNode K) = true.
Proof.
  intros H. unfold Component. rewrite H. apply String.eqb_refl.
Qed.


Lemma In_emitSessionReject (ev : SessionReject) :
  In (EmitAuditEvent ev) (emitSessionReject ev).
Proof.
  unfold emitSessionReject. left. reflexivity.
Qed.

Lemma emitSessionReject_no_accept (ev : SessionReject) :
  ~ In ChannelAccept (emitSessionReject ev).
Proof.
  unfold emitSessionReject.
  destruct (EmitAuditEvent_err env ev); simpl; intros H;
    repeat (destruct H as [H | H]; [discriminate H|]); exact H.
Qed.

Lemma rejectChannel_no_accept (nch : NewChannel) (r : RejectionReason) (m : string) :
  ~ In ChannelAccept (rejectChannel nch r m).
Proof.
  unfold rejectChannel.
  destruct (Reject_err env nch); simpl; intros H;
    repeat (destruct H as [H | H]; [discriminate H|]); exact H.
Qed.

(** C3: on a node, a connection whose semaphore acquisition fails because
    the leases are used up is refused by [HandleNewConn] with AccessDenied,
    after a SessionReject event whose Maximum is the limit was emitted; a
    session channel that would exceed the maximum number of sessions is
    rejected by [HandleNewChan], never accepted, after a SessionReject
    event with the reason for too many sessions and Maximum equal to the
    limit was emitted. *)
Theorem node_limits_reject_and_audit
    (s : Server) (ccx : ConnectionContext) (nch : NewChannel)
    (ic : IdentityContext) (mode : LockingMode) (targets : list LockTarget) :
  proxyMode s = false ->
  preludeOK s ccx ic mode targets ->
  (forall (timeout : Z) (err : Error),
     CheckLockInForce env (AccessChecker_LockingMode ic mode) targets = None ->
     AccessChecker_MaxConnections ic <> 0%Z ->
     GetSessionControlTimeout env = Ok timeout ->
     AcquireSemaphoreLock env
       (mkSemaphoreLockConfig timeout SemaphoreKindConnection (TeleportUser ic)
          (AccessChecker_MaxConnections ic) (uuid s)) = Some err ->
     Contains (msg err) (MaxLeases K) = true ->
     exists (m : string) (ev : SessionReject),
       fst (HandleNewConn s ccx) = Some (AccessDenied m) /\
       In (EmitAuditEvent ev) (snd (HandleNewConn s ccx)) /\
       Metadata_Type ev = SessionRejectedEvent K /\
       Maximum ev = AccessChecker_MaxConnections ic /\
       ~ In (Go CloseConnOnLockLoss) (snd (HandleNewConn s ccx)))
  /\
  (ChannelType nch = ChanSession K ->
   TracingChannel K <> ChanSession K ->
   AccessChecker_MaxSessions ic <> 0%Z ->
   (AccessChecker_MaxSessions ic <= sessions ccx)%Z ->
   exists (m : string) (ev : SessionReject),
     fst (HandleNewChan s ccx nch) = ccx /\
     In (EmitAuditEvent ev) (snd (HandleNewChan s ccx nch)) /\
     Metadata_Type ev = SessionRejectedEvent K /\
     Reason ev = SessionRejectedReasonMaxSessions K /\
     Maximum ev = AccessChecker_MaxSessions ic /\
     In (ChannelReject Prohibited m) (snd (HandleNewChan s ccx nch)) /\
     ~ In ChannelAccept (snd (HandleNewChan s ccx nch))).
Proof.
  intros Hnode (Hic & Hmode & Htargets). split.
  - intros timeout err Hlock Hmax Htimeout Hacq Hleases.
    unfold HandleNewConn.
    rewrite Hic, Hmode, Htargets, Hlock, (Component_node s Hnode).
    apply Z.eqb_neq in Hmax. rewrite Hmax. simpl negb. cbv iota.
    rewrite Htimeout, Hacq, Hleases.
    eexists. eexists. unfold after; simpl.
    split; [reflexivity|].
    split; [right; right; right; left; reflexivity|].
    split; [reflexivity|].
    split; [reflexivity|].
    intros [H | [H | [H | H]]]; try discriminate H.
    unfold emitSessionReject in H.
    destruct (EmitAuditEvent_err env _); simpl in H;
      repeat (destruct H as [H | H]; [discriminate H|]); exact H.
  - intros Hty Hdistinct Hmax Hfull.
    unfold HandleNewChan.
    rewrite Hic, Hnode, Hty.
    assert (Hd : (ChanSession K =? TracingChannel K) = false)
      by (apply String.eqb_neq; intros E; apply Hdistinct; symmetry; exact E).
    rewrite Hd.
    rewrite String.eqb_refl.
    apply Z.eqb_neq in Hmax. rewrite Hmax. simpl negb. cbv iota.
    unfold IncrSessions.
    apply Z.leb_le in Hfull. rewrite Hfull. cbn [negb fst snd].
    eexists. eexists.
    split; [reflexivity|].
    split; [apply in_or_app; left; apply In_emitSessionReject|].
    split; [reflexivity|].
    split; [reflexivity|].
    split; [reflexivity|].
    split; [apply in_or_app; right; left; reflexivity|].
    intros H. apply in_app_or in H. destruct H as [H | H].
    + exact (emitSessionReject_no_accept _ H).
    + exact (rejectChannel_no_accept _ _ _ H).
Qed.


End Handlers.

(** A concrete run: a node whose user already holds every lease and every
    session slot. *)
Definition teleportConstants : Constants :=
  mkConstants "node" "proxy" "err-max-leases" "session.rejected" "T1006W"
    "too many session channels for user" "ssh" "session" "direct-tcpip" "tracing-request".

Definition alice : IdentityContext :=
  mkIdentityContext "alice" (mkUserMetadata "alice" "root" "") (fun m => m) 2%Z 1%Z.

Definition leasesUsedUp : Error :=
  mkError KLimitExceeded "cannot acquire semaphore connection/alice (err-max-leases)" [].

Definition busyCluster : Env :=
  mkEnv (fun _ => Ok alice) (Ok "best_effort") (fun _ _ => Ok ["user:alice"])
    (fun _ _ => None) (Ok 30%Z) (fun _ => Some leasesUsedUp)
    (fun _ => None) (fun _ => None) (fun _ => None) (fun _ => None) (fun _ => None).

Definition nodeServer : Server := mkServer false "server-1" "default".
Definition proxyServer : Server := mkServer true "server-2" "default".

Definition busyConn : ConnectionContext :=
  mkConnectionContext "10.0.0.1:3022" "10.0.0.9:51000" 1%Z.

Definition sessionChannel : NewChannel := mkNewChannel "session" "".

(** C3 on the busy node: the connection and the session channel are both
    refused and audited. *)
Lemma node_limits_reject_and_audit_witness :
  (exists (m : string) (ev : SessionReject),
     fst (HandleNewConn teleportConstants busyCluster nodeServer busyConn)
       = Some (AccessDenied m) /\
     In (EmitAuditEvent ev)
        (snd (HandleNewConn teleportConstants busyCluster nodeServer busyConn)) /\
     Metadata_Type ev = "session.rejected" /\
     Maximum ev = 2%Z /\
     ~ In (Go CloseConnOnLockLoss)
          (snd (HandleNewConn teleportConstants busyCluster nodeServer busyConn)))
  /\
  (exists (m : string) (ev : SessionReject),
     fst (HandleNewChan teleportConstants busyCluster nodeServer busyConn sessionChannel)
       = busyConn /\
     In (EmitAuditEvent ev)
        (snd (HandleNewChan teleportConstants busyCluster nodeServer busyConn sessionChannel)) /\
     Metadata_Type ev = "session.rejected" /\
     Reason ev = "too many session channels for user" /\
     Maximum ev = 1%Z /\
     In (ChannelReject Prohibited m)
        (snd (HandleNewChan teleportConstants busyCluster nodeServer busyConn sessionChannel)) /\
     ~ In ChannelAccept
          (snd (HandleNewChan teleportConstants busyCluster nodeServer busyConn sessionChannel))).
Proof.
  destruct (node_limits_reject_and_audit teleportConstants busyCluster
              nodeServer busyConn sessionChannel alice "best_effort" ["user:alice"]
              eq_refl (conj eq_refl (conj eq_refl eq_refl))) as [Hconn Hchan].
  split.
  - apply (Hconn 30%Z leasesUsedUp); try reflexivity.
    simpl. discriminate.
  - apply Hchan; simpl; solve [reflexivity | discriminate | lia].
Defined.


End Regular.

(* ===================================================================== *)
(** * lib/backend: the circular buffer of events and prefix reduction      *)
(* ===================================================================== *)

Module Backend.

(** [types.OpType]. *)
Inductive OpType : Type :=
| OpInvalid
| OpUnreliable
| OpInit
| OpGet
| OpPut
| OpDelete.

Record Item : Type := mkItem {
  Key : string;
  Value : string;
  ID : Z
}.

Record Event : Type := mkEvent {
  Type_ : OpType;
  Item_ : Item
}.

(** The zero value of [Event]. *)
Definition zeroEvent : Event := mkEvent OpInvalid (mkItem "" "" 0%Z).

(** [Event{Item: Item{ID: id}}], the events the buffer tests emit. *)
Definition eventWithID (id : Z) : Event := mkEvent OpInvalid (mkItem "" "" id).

(** [l[i] = x]; an index out of range, which the buffer never produces,
    leaves the slice as it is. *)
Fixpoint set_nth {A : Type} (i : nat) (x : A) (l : list A) : list A :=
  match l, i with
  | [], _ => []
  | _ :: t, O => x :: t
  | h :: t, S i' => h :: set_nth i' x t
  end.

(** Modelled from the spec: the ring of [CircularBuffer]
    ([lib/backend/buffer.go] is not among the sources, only its tests).  A
    fixed-capacity ring of the most recent events: [events] has one slot per
    unit of capacity, [start] is the slot of the oldest event kept, [end_]
    the slot of the newest, [size] the number of events kept. *)
Record CircularBuffer : Type := mkCircularBuffer {
  events : list Event;
  start : nat;
  end_ : nat;
  size : nat
}.

(** Modelled from the spec: [NewCircularBuffer(BufferCapacity(n))]. *)
Definition NewCircularBuffer (capacity : nat) : CircularBuffer :=
  mkCircularBuffer (repeat zeroEvent capacity) 0 0 0.

(** Modelled from the spec: [CircularBuffer.Emit], the ring part.  While
    the ring is not full the event goes to the next free slot; once it is
    full the event overwrites the oldest one, which stops being current. *)
Definition Emit (b : CircularBuffer) (r : Event) : CircularBuffer :=
  let cap := List.length (events b) in
  if Nat.eqb (size b) 0 then
    mkCircularBuffer (set_nth 0 r (events b)) 0 0 1
  else if Nat.ltb (size b) cap then
    let e := (end_ b + 1) mod cap in
    mkCircularBuffer (set_nth e r (events b)) (start b) e (size b + 1)
  else
    let e := start b in
    mkCircularBuffer (set_nth e r (events b)) ((start b + 1) mod cap) e (size b).

(** Modelled from the spec: [CircularBuffer.Events], a fresh copy of the
    current events, oldest first. *)
Definition Events (b : CircularBuffer) : list Event :=
  map (fun i => nth ((start b + i) mod List.length (events b)) (events b) zeroEvent)
      (seq 0 (size b)).

(** Modelled from the spec: [CircularBuffer.Clear], the ring part. *)
Definition Clear (b : CircularBuffer) : CircularBuffer :=
  mkCircularBuffer (repeat zeroEvent (List.length (events b))) 0 0 0.

(** The loop of [listWithBuffer]: the events are emitted one by one. *)
Definition emitAll (b : CircularBuffer) (l : list Event) : CircularBuffer :=
  fold_left Emit l b.

(** [makeIDs(size)] of the buffer tests, as events. *)
Definition makeIDs (n : nat) : list Event :=
  map (fun i => eventWithID (Z.of_nat i)) (seq 0 n).

(** [elements[sliceEnd:i+1]] of [listWithBuffer], where [sliceEnd] is
    [i + 1 - bufferSize] raised to zero when negative. *)
Definition expectedSlice (bufferSize i : nat) (elements : list Event) : list Event :=
  skipn (i + 1 - bufferSize) (firstn (i + 1) elements).

(** What ties a ring of capacity [C] to the list [l] of all the events
    emitted into it. *)
Definition ringHolds (C : nat) (b : CircularBuffer) (l : list Event) : Prop :=
  List.length (events b) = C /\
  size b = Nat.min (List.length l) C /\
  start b < C /\
  (size b < C -> start b = 0) /\
  (0 < size b -> end_ b = (start b + size b - 1) mod C) /\
  (forall i, i < size b ->
     nth ((start b + i) mod C) (events b) zeroEvent
       = nth (List.length l - size b + i) l zeroEvent).

Lemma length_set_nth {A : Type} (i : nat) (x : A) (l : list A) :
  List.length (set_nth i x l) = List.length l.
Proof.
  revert i. induction l as [|h t IH]; intros [|i]; simpl; auto.
Qed.

Lemma nth_set_nth_eq {A : Type} (i : nat) (x d : A) (l : list A) :
  i < List.length l -> nth i (set_nth i x l) d = x.
Proof.
  revert i. induction l as [|h t IH]; intros [|i] H; simpl in *; try lia.
  - reflexivity.
  - apply IH. lia.
Qed.

Lemma nth_set_nth_neq {A : Type} (i j : nat) (x d : A) (l : list A) :
  i <> j -> nth j (set_nth i x l) d = nth j l d.
Proof.
  revert i j. induction l as [|h t IH]; intros [|i] [|j] H; simpl; auto;
    try (exfalso; lia); try (apply IH; lia).
Qed.

Lemma mod_below_twice (x C : nat) :
  0 < C -> x < 2 * C -> x mod C = if Nat.ltb x C then x else x - C.
Proof.
  intros HC Hx. destruct (Nat.ltb x C) eqn:E.
  - apply Nat.ltb_lt in E. apply Nat.mod_small. exact E.
  - apply Nat.ltb_ge in E.
    symmetry. apply (Nat.mod_unique x C 1 (x - C)); lia.
Qed.

Lemma ringHolds_new (C : nat) :
  0 < C -> ringHolds C (NewCircularBuffer C) [].
Proof.
  intros HC. unfold ringHolds, NewCircularBuffer; simpl.
  rewrite repeat_length.
  repeat split; try lia.
Qed.

Lemma ringHolds_Emit (C : nat) (b : CircularBuffer) (l : list Event) (r : Event) :
  0 < C -> ringHolds C b l -> ringHolds C (Emit b r) (l ++ [r]).
Proof.
  intros HC (Hlen & Hsize & Hstart & Hfresh & Hend & Hnth).
  unfold ringHolds, Emit. rewrite Hlen, length_app. cbn [List.length].
  destruct (Nat.eqb (size b) 0) eqn:E0; cbn [events start end_ size].
  - (* the ring is empty *)
    apply Nat.eqb_eq in E0.
    assert (Hl : l = []) by (destruct l; [reflexivity | cbn [List.length] in Hsize; lia]).
    subst l. cbn [List.length app].
    rewrite length_set_nth.
    repeat split; try lia.
    + intros _. rewrite Nat.mod_small; lia.
    + intros i Hi. assert (i = 0) by lia. subst i.
      rewrite Nat.mod_small by lia.
      rewrite nth_set_nth_eq by lia. reflexivity.
  - apply Nat.eqb_neq in E0.
    destruct (Nat.ltb (size b) C) eqn:E1; cbn [events start end_ size].
    + (* there is a free slot *)
      apply Nat.ltb_lt in E1.
      assert (Hs0 : start b = 0) by auto.
      assert (Hl : List.length l = size b) by lia.
      assert (He : end_ b = size b - 1).
      { rewrite Hend by lia. rewrite Hs0. apply Nat.mod_small. lia. }
      assert (Hnext : (end_ b + 1) mod C = size b).
      { rewrite He. rewrite Nat.mod_small; lia. }
      rewrite Hnext, length_set_nth, Hs0.
      repeat split; try lia.
      * intros _. rewrite Nat.mod_small; lia.
      * intros i Hi. cbn [Nat.add]. rewrite Nat.mod_small by lia.
        destruct (Nat.eq_dec i (size b)) as [Heq | Hne].
        -- subst i. rewrite nth_set_nth_eq by lia.
           rewrite app_nth2 by lia.
           replace (List.length l + 1 - (size b + 1) + size b - List.length l)
             with 0 by lia.
           reflexivity.
        -- rewrite nth_set_nth_neq by lia.
           rewrite app_nth1 by lia.
           specialize (Hnth i). rewrite Hs0 in Hnth. cbn [Nat.add] in Hnth.
           rewrite Nat.mod_small in Hnth by lia.
           rewrite Hnth by lia. f_equal. lia.
    + (* the ring is full: the oldest event is overwritten *)
      apply Nat.ltb_ge in E1.
      assert (Hfull : size b = C) by lia.
      assert (Hl : C <= List.length l) by lia.
      rewrite length_set_nth.
      assert (Hs' : (start b + 1) mod C < C) by (apply Nat.mod_upper_bound; lia).
      repeat split; try lia.
      * intros _. rewrite Hfull.
        replace ((start b + 1) mod C + C - 1) with ((start b + 1) mod C + (C - 1)) by lia.
        rewrite Nat.Div0.add_mod_idemp_l.
        rewrite (mod_below_twice (start b + 1 + (C - 1)) C) by lia.
        destruct (Nat.ltb (start b + 1 + (C - 1)) C) eqn:E2.
        -- apply Nat.ltb_lt in E2. lia.
        -- lia.
      * intros i Hi.
        rewrite Nat.Div0.add_mod_idemp_l.
        destruct (Nat.eq_dec i (C - 1)) as [Heq | Hne].
        -- subst i.
           rewrite (mod_below_twice (start b + 1 + (C - 1)) C) by lia.
           destruct (Nat.ltb (start b + 1 + (C - 1)) C) eqn:E2.
           ++ apply Nat.ltb_lt in E2. lia.
           ++ replace (start b + 1 + (C - 1) - C) with (start b) by lia.
              rewrite nth_set_nth_eq by lia.
              rewrite app_nth2 by lia.
              replace (List.length l + 1 - size b + (C - 1) - List.length l)
                with 0 by lia.
              reflexivity.
        -- assert (Hidx : (start b + 1 + i) mod C <> start b).
           { rewrite (mod_below_twice (start b + 1 + i) C) by lia.
             destruct (Nat.ltb (start b + 1 + i) C) eqn:E2.
             - lia.
             - apply Nat.ltb_ge in E2. lia. }
           rewrite nth_set_nth_neq by (intros E; apply Hidx; symmetry; exact E).
           rewrite app_nth1 by lia.
           specialize (Hnth (i + 1)).
           replace (start b + (i + 1)) with (start b + 1 + i) in Hnth by lia.
           rewrite Hnth by lia. f_equal. lia.
Qed.

Lemma ringHolds_emitAll (C : nat) (l : list Event) :
  0 < C -> ringHolds C (emitAll (NewCircularBuffer C) l) l.
Proof.
  intros HC. induction l as [|r l IH] using rev_ind.
  - apply ringHolds_new. exact HC.
  - unfold emitAll in *. rewrite fold_left_app. simpl.
    apply ringHolds_Emit; assumption.
Qed.

Lemma ringHolds_Events (C : nat) (b : CircularBuffer) (l : list Event) :
  ringHolds C b l -> Events b = skipn (List.length l - C) l.
Proof.
  intros (Hlen & Hsize & Hstart & Hfresh & Hend & Hnth).
  apply (nth_ext _ _ zeroEvent zeroEvent).
  - unfold Events. rewrite length_map, length_seq, length_skipn. lia.
  - unfold Events. rewrite length_map, length_seq. intros i Hi.
    rewrite nth_skipn.
    rewrite (nth_indep _ zeroEvent
               (nth ((start b + 0) mod List.length (events b)) (events b) zeroEvent))
      by (rewrite length_map, length_seq; exact Hi).
    rewrite (map_nth (fun i => nth ((start b + i) mod List.length (events b))
                                 (events b) zeroEvent) (seq 0 (size b)) 0 i).
    rewrite seq_nth by exact Hi. simpl.
    rewrite Hlen, Hnth by exact Hi. f_equal. lia.
Qed.

(** After any sequence of emissions into a ring of capacity [C], the
    snapshot is the last [C] events (all of them while fewer were emitted),
    oldest first. *)
Lemma Events_emitAll (C : nat) (l : list Event) :
  0 < C -> Events (emitAll (NewCircularBuffer C) l) = skipn (List.length l - C) l.
Proof.
  intros HC. apply (ringHolds_Events C). apply ringHolds_emitAll. exact HC.
Qed.

Example Events_after_five_of_capacity_three :
  map (fun e => ID (Item_ e)) (Events (emitAll (NewCircularBuffer 3) (makeIDs 5)))
    = [2; 3; 4]%Z.
Proof. vm_compute. reflexivity. Qed.

Example Events_after_clear :
  Events (emitAll (Clear (emitAll (NewCircularBuffer 1) (makeIDs 100))) (makeIDs 2))
    = [eventWithID 1].
Proof. vm_compute. reflexivity. Qed.

(** C4: for a buffer of capacity 1, 2, 3 or 4 and any 100 events, the
    buffer starts empty and, after each emission, the snapshot of current
    events is the slice the tests expect: the last [min (i+1) C] of the
    [i+1] events emitted so far, in emission order. *)
Theorem Events_are_the_last_emitted (C : nat) (elements : list Event) :
  In C [1; 2; 3; 4] ->
  List.length elements = 100 ->
  Events (NewCircularBuffer C) = [] /\
  forall i, i < 100 ->
    let snapshot := Events (emitAll (NewCircularBuffer C) (firstn (i + 1) elements)) in
    snapshot = expectedSlice C i elements /\
    List.length snapshot = Nat.min (i + 1) C /\
    exists older, firstn (i + 1) elements = older ++ snapshot.
Proof.
  intros HC Hlen.
  assert (Hpos : 0 < C) by (simpl in HC; lia).
  split; [reflexivity|].
  intros i Hi snapshot. subst snapshot.
  rewrite (Events_emitAll C (firstn (i + 1) elements) Hpos).
  assert (Hfirst : List.length (firstn (i + 1) elements) = i + 1)
    by (rewrite length_firstn; lia).
  rewrite Hfirst.
  split; [reflexivity|].
  split.
  - rewrite length_skipn, Hfirst. lia.
  - exists (firstn (i + 1 - C) (firstn (i + 1) elements)).
    symmetry. apply firstn_skipn.
Qed.

(** C4 on the run [list(t, 3, 100)] of the tests. *)
Lemma Events_are_the_last_emitted_witness :
  Events (NewCircularBuffer 3) = [] /\
  forall i, i < 100 ->
    let snapshot := Events (emitAll (NewCircularBuffer 3) (firstn (i + 1) (makeIDs 100))) in
    snapshot = expectedSlice 3 i (makeIDs 100) /\
    List.length snapshot = Nat.min (i + 1) 3 /\
    exists older, firstn (i + 1) (makeIDs 100) = older ++ snapshot.
Proof.
  apply (Events_are_the_last_emitted 3 (makeIDs 100)).
  - simpl. auto.
  - reflexivity.
Defined.

(** ** Prefix reduction *)

(** [bytes.HasPrefix(key, prefix)], keys being byte strings. *)
Definition HasPrefix (key pfx : string) : bool := String.prefix pfx key.

(** [bytes.Compare(a, b) <= 0]: the order of the bytes, position by
    position. *)
Definition bytesLe (a b : string) : bool := String.leb a b.

Fixpoint insertSorted (p : string) (l : list string) : list string :=
  match l with
  | [] => [p]
  | q :: t => if bytesLe p q then p :: l else q :: insertSorted p t
  end.

(** The prefixes in ascending byte order. *)
Definition sortPrefixes (l : list string) : list string :=
  fold_right insertSorted [] l.

(** [p] is covered by a shorter prefix of the set. *)
Definition covered (prefixes : list string) (p : string) : bool :=
  existsb (fun q => Nat.ltb (String.length q) (String.length p) && HasPrefix p q)
          prefixes.

(** Modelled from the spec: [removeRedundantPrefixes]
    ([lib/backend/buffer.go] is not among the sources, only its test).
    Given a set of prefixes, every prefix covered by a shorter prefix of the
    set is dropped, and the remainder is returned sorted. *)
Definition removeRedundantPrefixes (prefixes : list string) : list string :=
  filter (fun p => negb (covered prefixes p)) (sortPrefixes prefixes).

Definition sortedPrefixes (l : list string) : Prop :=
  StronglySorted (fun a b => bytesLe a b = true) l.

Lemma ascii_compare_spec (x y : ascii) :
  CompareSpec (x = y) (N_of_ascii x < N_of_ascii y)%N (N_of_ascii y < N_of_ascii x)%N
              (Ascii.compare x y).
Proof.
  unfold Ascii.compare.
  destruct (N.compare_spec (N_of_ascii x) (N_of_ascii y)) as [H | H | H];
    constructor; try assumption.
  rewrite <- (ascii_N_embedding x), <- (ascii_N_embedding y), H. reflexivity.
Qed.

Lemma compare_not_Gt_trans (a b c : string) :
  String.compare a b <> Gt -> String.compare b c <> Gt -> String.compare a c <> Gt.
Proof.
  revert b c. induction a as [|x a IH]; intros b c Hab Hbc.
  - destruct c; simpl; discriminate.
  - destruct b as [|y b]; [simpl in Hab; congruence|].
    destruct c as [|z c]; [simpl in Hbc; congruence|].
    simpl in *.
    destruct (ascii_compare_spec x y) as [Exy | Lxy | Gxy]; [| |congruence].
    + subst y. destruct (Ascii.compare x z); [|assumption|assumption].
      apply (IH b c); assumption.
    + destruct (ascii_compare_spec y z) as [Eyz | Lyz | Gyz]; [| |congruence].
      * subst z. destruct (ascii_compare_spec x y) as [E | L | G];
          [subst; lia | discriminate | lia].
      * destruct (ascii_compare_spec x z) as [E | L | G];
          [subst; lia | discriminate | lia].
Qed.

Lemma bytesLe_trans (a b c : string) :
  bytesLe a b = true -> bytesLe b c = true -> bytesLe a c = true.
Proof.
  unfold bytesLe, String.leb. intros Hab Hbc.
  assert (H : String.compare a c <> Gt).
  { apply (compare_not_Gt_trans a b c).
    - destruct (String.compare a b); [discriminate | discriminate | discriminate Hab].
    - destruct (String.compare b c); [discriminate | discriminate | discriminate Hbc]. }
  destruct (String.compare a c); [reflexivity | reflexivity | congruence].
Qed.

Lemma In_insertSorted (p x : string) (l : list string) :
  In x (insertSorted p l) <-> x = p \/ In x l.
Proof.
  induction l as [|q t IH]; simpl.
  - intuition.
  - destruct (bytesLe p q); simpl; [intuition | rewrite IH; intuition].
Qed.

Lemma In_sortPrefixes (x : string) (l : list string) :
  In x (sortPrefixes l) <-> In x l.
Proof.
  induction l as [|p t IH]; simpl.
  - reflexivity.
  - rewrite In_insertSorted, IH. intuition.
Qed.

Lemma insertSorted_sorted (p : string) (l : list string) :
  sortedPrefixes l -> sortedPrefixes (insertSorted p l).
Proof.
  unfold sortedPrefixes. induction 1 as [|q t Ht IH Hq]; simpl.
  - constructor; constructor.
  - destruct (bytesLe p q) eqn:E.
    + constructor; [constructor; assumption|].
      constructor; [exact E|].
      apply Forall_forall. intros x Hx.
      rewrite Forall_forall in Hq.
      apply (bytesLe_trans p q x); [exact E | apply Hq; exact Hx].
    + constructor; [exact IH|].
      apply Forall_forall. intros x Hx.
      apply In_insertSorted in Hx. destruct Hx as [Hx | Hx].
      * subst x. destruct (String.leb_total p q) as [H | H]; [|exact H].
        unfold bytesLe in E. congruence.
      * rewrite Forall_forall in Hq. apply Hq. exact Hx.
Qed.

Lemma sortPrefixes_sorted (l : list string) : sortedPrefixes (sortPrefixes l).
Proof.
  induction l as [|p t IH]; simpl.
  - constructor.
  - apply insertSorted_sorted. exact IH.
Qed.

Lemma filter_sorted (f : string -> bool) (l : list string) :
  sortedPrefixes l -> sortedPrefixes (filter f l).
Proof.
  unfold sortedPrefixes. induction 1 as [|q t Ht IH Hq]; simpl.
  - constructor.
  - destruct (f q); [|exact IH].
    constructor; [exact IH|].
    apply Forall_forall. intros x Hx. apply filter_In in Hx.
    rewrite Forall_forall in Hq. apply Hq. tauto.
Qed.

Lemma covered_false (prefixes : list string) (p : string) :
  covered prefixes p = false <->
  forall q, In q prefixes -> String.length q < String.length p -> HasPrefix p q = false.
Proof.
  unfold covered. split.
  - intros H q Hq Hlen.
    destruct (HasPrefix p q) eqn:E; [|reflexivity].
    assert (Hex : existsb (fun q => Nat.ltb (String.length q) (String.length p)
                                   && HasPrefix p q) prefixes = true).
    { apply existsb_exists. exists q. split; [exact Hq|].
      apply Nat.ltb_lt in Hlen. rewrite Hlen, E. reflexivity. }
    congruence.
  - intros H.
    destruct (existsb _ prefixes) eqn:E; [|reflexivity].
    apply existsb_exists in E. destruct E as (q & Hq & Hb).
    apply andb_true_iff in Hb. destruct Hb as [Hlt Hpre].
    apply Nat.ltb_lt in Hlt.
    rewrite (H q Hq Hlt) in Hpre. discriminate.
Qed.

Lemma HasPrefix_refl (p : string) : HasPrefix p p = true.
Proof.
  unfold HasPrefix. induction p as [|c p IH]; simpl.
  - reflexivity.
  - destruct (ascii_dec c c) as [_ | N]; [exact IH | contradiction].
Qed.

Lemma HasPrefix_trans (p q r : string) :
  HasPrefix p q = true -> HasPrefix q r = true -> HasPrefix p r = true.
Proof.
  unfold HasPrefix. revert p q.
  induction r as [|a r IH]; intros p q Hpq Hqr.
  - destruct p; reflexivity.
  - destruct q as [|b q]; [simpl in Hqr; discriminate Hqr|].
    destruct p as [|c p]; [simpl in Hpq; discriminate Hpq|].
    simpl in *.
    destruct (ascii_dec a b) as [Eab | Nab]; [|discriminate Hqr].
    destruct (ascii_dec b c) as [Ebc | Nbc]; [|discriminate Hpq].
    subst b c.
    destruct (ascii_dec a a) as [_ | N]; [|contradiction].
    exact (IH p q Hpq Hqr).
Qed.

(** Whatever a prefix of the set matched, a kept prefix still matches:
    each prefix of the set has a kept prefix as its own prefix. *)
Lemma kept_prefixes_cover (prefixes : list string) (p : string) :
  In p prefixes ->
  exists q, In q (removeRedundantPrefixes prefixes) /\ HasPrefix p q = true.
Proof.
  remember (String.length p) as n eqn:Hn.
  assert (Hle : String.length p <= n) by lia. clear Hn.
  revert p Hle. induction n as [|n IH]; intros p Hle Hin;
    destruct (covered prefixes p) eqn:Hc.
  - unfold covered in Hc. apply existsb_exists in Hc.
    destruct Hc as (q & _ & Hb). apply andb_true_iff in Hb.
    destruct Hb as [Hlt _]. apply Nat.ltb_lt in Hlt. lia.
  - exists p. split; [|apply HasPrefix_refl].
    unfold removeRedundantPrefixes. apply filter_In.
    split; [apply In_sortPrefixes; exact Hin | rewrite Hc; reflexivity].
  - unfold covered in Hc. apply existsb_exists in Hc.
    destruct Hc as (q & Hq & Hb). apply andb_true_iff in Hb.
    destruct Hb as [Hlt Hpre]. apply Nat.ltb_lt in Hlt.
    destruct (IH q) as (r & Hr & Hqr); [lia | exact Hq |].
    exists r. split; [exact Hr|].
    exact (HasPrefix_trans p q r Hpre Hqr).
  - exists p. split; [|apply HasPrefix_refl].
    unfold removeRedundantPrefixes. apply filter_In.
    split; [apply In_sortPrefixes; exact Hin | rewrite Hc; reflexivity].
Qed.

(** C5: [removeRedundantPrefixes] keeps exactly the prefixes of the set
    that no shorter prefix of the set covers, and returns them sorted; the
    kept prefixes still cover every prefix of the set; on the sets of the
    test it yields the listed results. *)
Theorem removeRedundantPrefixes_drops_covered_and_sorts :
  (forall (prefixes : list string) (p : string),
     In p (removeRedundantPrefixes prefixes) <->
     In p prefixes /\
     forall q, In q prefixes -> String.length q < String.length p ->
               HasPrefix p q = false) /\
  (forall prefixes : list string, sortedPrefixes (removeRedundantPrefixes prefixes)) /\
  (forall (prefixes : list string) (p : string),
     In p prefixes ->
     exists q, In q (removeRedundantPrefixes prefixes) /\ HasPrefix p q = true) /\
  removeRedundantPrefixes ["/a/b"; "/a"; "/a/b/c"; "/d"] = ["/a"; "/d"] /\
  removeRedundantPrefixes ["/a"; "/"] = ["/"] /\
  removeRedundantPrefixes ["/b"; "/a"] = ["/a"; "/b"] /\
  removeRedundantPrefixes ["/a"] = ["/a"] /\
  removeRedundantPrefixes [] = [].
Proof.
  split; [|split; [|split]].
  - intros prefixes p. unfold removeRedundantPrefixes.
    rewrite filter_In, In_sortPrefixes, negb_true_iff, covered_false.
    reflexivity.
  - intros prefixes. unfold removeRedundantPrefixes.
    apply filter_sorted. apply sortPrefixes_sorted.
  - apply kept_prefixes_cover.
  - repeat split; vm_compute; reflexivity.
Qed.

End Backend.

(* ===================================================================== *)
(** * lib/events: the file log, its rotation and its search                *)
(* ===================================================================== *)

Module Events.

Open Scope Z_scope.

(** [time.Time] in UTC, as nanoseconds since the epoch, and
    [time.Duration]. *)
Definition Time := Z.
Definition Second : Z := 1000000000.
Definition Hour : Z := 3600 * Second.
Definition Day : Z := 24 * Hour.

(** [time.Date(t.Year(), t.Month(), t.Day(), 0, 0, 0, 0, time.UTC)]:
    midnight of the calendar day of [t]. *)
Definition dayOf (t : Time) : Time := Day * (t / Day).

(** An audit event: its type, its time and the rest of its fields as they
    are serialized on one line. *)
Record AuditEvent : Type := mkAuditEvent {
  EventType : string;
  EventTime : Time;
  Fields : string
}.

(** Modelled from the spec: the state of the file log
    ([lib/events/filelog.go] and [auditlog.go] are not among the sources,
    only their test).  [file] is the date encoded in the name of the file
    currently open, [dir] gives the lines of the file of each date, when
    there is one, and [symlink] is the date of the file the fixed-name link
    points at. *)
Record FileLog : Type := mkFileLog {
  file : option Time;
  dir : Time -> option (list AuditEvent);
  symlink : option Time
}.

Definition NewFileLog : FileLog := mkFileLog None (fun _ => None) None.

Definition linesOf (l : FileLog) (date : Time) : list AuditEvent :=
  match dir l date with
  | Some ls => ls
  | None => []
  end.

(** Modelled from the spec: rotation opens the file of the given day,
    creating it when it is not there, and makes the link point at it. *)
Definition rotateLog (l : FileLog) (date : Time) : FileLog :=
  mkFileLog (Some date)
    (fun d => if d =? date then Some (linesOf l date) else dir l d)
    (Some date).

(** Modelled from the spec: one record per line, appended to the file of
    the given date. *)
Definition appendLine (l : FileLog) (date : Time) (ev : AuditEvent) : FileLog :=
  mkFileLog (file l)
    (fun d => if d =? date then Some (linesOf l date ++ [ev]) else dir l d)
    (symlink l).

(** Modelled from the spec: [EmitAuditEvent] on the local log.  The log
    rotates when the time of the event is on another day than the file
    currently open (or no file is open yet); it never reads a clock.  The
    event is then appended to the open file and the link refreshed. *)
Definition EmitAuditEvent (l : FileLog) (ev : AuditEvent) : FileLog :=
  let date := dayOf (EventTime ev) in
  let l :=
    match file l with
    | Some d => if d =? date then l else rotateLog l date
    | None => rotateLog l date
    end in
  let l := appendLine l date ev in
  mkFileLog (file l) (dir l) (file l).

(** The dates [d], [d + Day], ... of [n] consecutive days. *)
Fixpoint daysFrom (d : Time) (n : nat) : list Time :=
  match n with
  | O => []
  | S n' => d :: daysFrom (d + Day) n'
  end.

(** The dates of the files spanning the range [from .. to]. *)
Definition daysBetween (from to : Time) : list Time :=
  daysFrom (dayOf from) (Z.to_nat (to / Day - from / Day + 1)).

Definition inRange (from to : Time) (ev : AuditEvent) : bool :=
  (from <=? EventTime ev) && (EventTime ev <=? to).

(** Modelled from the spec: [SearchEvents] over a time range, in ascending
    order, without type filter or limit: the events of the range, merged
    across the rotated files spanning it. *)
Definition SearchEvents (l : FileLog) (from to : Time) : list AuditEvent :=
  filter (inRange from to) (flat_map (linesOf l) (daysBetween from to)).

(** What the link resolves to. *)
Definition readSymlink (l : FileLog) : option (list AuditEvent) :=
  match symlink l with
  | Some d => dir l d
  | None => None
  end.

(** No event already in the log lies in the range. *)
Definition quietBetween (l : FileLog) (from to : Time) : Prop :=
  forall d ls e, dir l d = Some ls -> In e ls -> inRange from to e = false.

Lemma Day_pos : 0 < Day.
Proof. reflexivity. Qed.

Lemma Hour_pos : 0 < Hour.
Proof. reflexivity. Qed.

Lemma dayOf_bounds (t : Time) : dayOf t <= t < dayOf t + Day.
Proof.
  unfold dayOf.
  pose proof (Z.div_mod t Day) as Hdm.
  pose proof (Z.mod_pos_bound t Day Day_pos) as Hb.
  assert (Hne : Day <> 0) by (pose proof Day_pos; lia).
  specialize (Hdm Hne). lia.
Qed.

Lemma EmitAuditEvent_file (l : FileLog) (ev : AuditEvent) :
  file (EmitAuditEvent l ev) = Some (dayOf (EventTime ev)).
Proof.
  unfold EmitAuditEvent.
  destruct (file l) as [d|] eqn:Hf; cbn [file appendLine rotateLog].
  - destruct (d =? dayOf (EventTime ev)) eqn:E; cbn [file rotateLog].
    + apply Z.eqb_eq in E. rewrite Hf, E. reflexivity.
    + reflexivity.
  - reflexivity.
Qed.

Lemma EmitAuditEvent_symlink (l : FileLog) (ev : AuditEvent) :
  symlink (EmitAuditEvent l ev) = file (EmitAuditEvent l ev).
Proof. reflexivity. Qed.

Lemma linesOf_rotateLog (l : FileLog) (date d : Time) :
  linesOf (rotateLog l date) d = linesOf l d.
Proof.
  unfold linesOf, rotateLog; cbn [dir].
  destruct (d =? date) eqn:E; [|reflexivity].
  apply Z.eqb_eq in E. subst d. reflexivity.
Qed.

Lemma EmitAuditEvent_dir (l : FileLog) (ev : AuditEvent) (d : Time) :
  dir (EmitAuditEvent l ev) d =
    if d =? dayOf (EventTime ev)
    then Some (linesOf l (dayOf (EventTime ev)) ++ [ev])
    else dir l d.
Proof.
  unfold EmitAuditEvent.
  destruct (file l) as [d0|] eqn:Hf; cbn [dir appendLine].
  - destruct (d0 =? dayOf (EventTime ev)) eqn:E0.
    + reflexivity.
    + rewrite linesOf_rotateLog. cbn [dir rotateLog].
      destruct (d =? dayOf (EventTime ev)); reflexivity.
  - rewrite linesOf_rotateLog. cbn [dir rotateLog].
    destruct (d =? dayOf (EventTime ev)); reflexivity.
Qed.

Lemma daysFrom_lower (d : Time) (n : nat) (x : Time) :
  In x (daysFrom d n) -> d <= x.
Proof.
  revert d. induction n as [|n IH]; intros d H; simpl in H.
  - contradiction.
  - destruct H as [H | H]; [lia|].
    apply IH in H. pose proof Day_pos. lia.
Qed.

Lemma daysFrom_NoDup (d : Time) (n : nat) : NoDup (daysFrom d n).
Proof.
  revert d. induction n as [|n IH]; intros d; simpl.
  - constructor.
  - constructor; [|apply IH].
    intros H. apply daysFrom_lower in H. pose proof Day_pos. lia.
Qed.

Lemma In_daysFrom (d : Time) (n : nat) (k : Z) :
  0 <= k < Z.of_nat n -> In (d + k * Day) (daysFrom d n).
Proof.
  revert d k. induction n as [|n IH]; intros d k Hk.
  - lia.
  - simpl. destruct (Z.eq_dec k 0) as [E | E].
    + left. subst k. lia.
    + right. replace (d + k * Day) with (d + Day + (k - 1) * Day) by lia.
      apply IH. lia.
Qed.

Lemma dayOf_in_daysBetween (from t to : Time) :
  from <= t <= to -> In (dayOf t) (daysBetween from to).
Proof.
  intros [Hft Htt]. unfold daysBetween, dayOf.
  pose proof (Z.div_le_mono from t Day Day_pos Hft) as H1.
  pose proof (Z.div_le_mono t to Day Day_pos Htt) as H2.
  replace (Day * (t / Day)) with (Day * (from / Day) + (t / Day - from / Day) * Day)
    by lia.
  apply In_daysFrom. lia.
Qed.

Lemma filter_nothing {A : Type} (f : A -> bool) (ls : list A) :
  (forall e, In e ls -> f e = false) -> filter f ls = [].
Proof.
  induction ls as [|a ls IH]; intros H; simpl.
  - reflexivity.
  - rewrite (H a) by (left; reflexivity).
    apply IH. intros e He. apply H. right. exact He.
Qed.

Lemma quiet_linesOf (l : FileLog) (from to d : Time) :
  quietBetween l from to -> filter (inRange from to) (linesOf l d) = [].
Proof.
  intros Hq. apply filter_nothing. intros e He.
  unfold linesOf in He. destruct (dir l d) as [ls|] eqn:Hd.
  - exact (Hq d ls e Hd He).
  - contradiction.
Qed.

(** Searching a list of distinct days in which only the file of [date]
    holds an event of the range, namely [ev] alone. *)
Lemma search_days (l : FileLog) (from to date : Time) (ev : AuditEvent) (days : list Time) :
  NoDup days ->
  (forall d, filter (inRange from to) (linesOf l d) = if d =? date then [ev] else []) ->
  filter (inRange from to) (flat_map (linesOf l) days)
    = if in_dec Z.eq_dec date days then [ev] else [].
Proof.
  intros Hnd Hper. induction Hnd as [|d ds Hnotin Hnd' IH]; simpl.
  - reflexivity.
  - rewrite filter_app, Hper, IH.
    destruct (d =? date) eqn:E.
    + apply Z.eqb_eq in E. subst d.
      destruct (Z.eq_dec date date) as [Y | N]; [|contradiction].
      destruct (in_dec Z.eq_dec date ds) as [Hin | Hout]; [contradiction|].
      reflexivity.
    + apply Z.eqb_neq in E.
      destruct (Z.eq_dec d date) as [Y | N]; [contradiction|].
      destruct (in_dec Z.eq_dec date ds); reflexivity.
Qed.

Lemma SearchEvents_after_emit (l : FileLog) (ev : AuditEvent) :
  quietBetween l (EventTime ev - Hour) (EventTime ev + Hour) ->
  SearchEvents (EmitAuditEvent l ev) (EventTime ev - Hour) (EventTime ev + Hour) = [ev].
Proof.
  intros Hq. unfold SearchEvents.
  rewrite (search_days _ _ _ (dayOf (EventTime ev)) ev).
  - destruct (in_dec Z.eq_dec _ _) as [_ | Hn]; [reflexivity|].
    exfalso. apply Hn. apply dayOf_in_daysBetween.
    pose proof Hour_pos. lia.
  - apply daysFrom_NoDup.
  - intros d. unfold linesOf at 1. rewrite EmitAuditEvent_dir.
    destruct (d =? dayOf (EventTime ev)) eqn:E.
    + rewrite filter_app, (quiet_linesOf l _ _ _ Hq). simpl.
      assert (Hin : inRange (EventTime ev - Hour) (EventTime ev + Hour) ev = true).
      { unfold inRange. pose proof Hour_pos.
        apply andb_true_iff. split; apply Z.leb_le; lia. }
      rewrite Hin. reflexivity.
    + apply (quiet_linesOf l _ _ d Hq).
Qed.

(** The scenario of [TestLogRotation]: the clock starts on 4 April 1984 at
    midnight UTC, 5207 days after the epoch, and resize events are
    emitted. *)
Definition testStart : Time := 5207 * Day.

Definition resizeAt (t : Time) : AuditEvent := mkAuditEvent "resize" t "10:10".

Definition afterFirstEmit : FileLog := EmitAuditEvent NewFileLog (resizeAt testStart).

Example first_emit_opens_the_file_of_the_day :
  file afterFirstEmit = Some testStart /\
  readSymlink afterFirstEmit = Some [resizeAt testStart].
Proof. split; vm_compute; reflexivity. Qed.

(** C6 (as stated) fails: two events emitted ten minutes apart are both
    returned by the search over the hour around the second one. *)
Lemma SearchEvents_returns_both_close_events :
  SearchEvents
    (EmitAuditEvent afterFirstEmit (resizeAt (testStart + 600 * Second)))
    (testStart + 600 * Second - Hour) (testStart + 600 * Second + Hour)
  = [resizeAt testStart; resizeAt (testStart + 600 * Second)].
Proof. vm_compute. reflexivity. Qed.

(** C6 (amended): an event emitted at time T is appended to the file whose
    date is the UTC day of T; when the open file is of another day the log
    rotates to the file of the day of T and leaves the other files as they
    were; the link then resolves to the contents of that file; and the
    search over [T-1h, T+1h] right after the emission returns exactly that
    event provided no event already in the log lies in that range. *)
Theorem EmitAuditEvent_rotates_by_event_day (l : FileLog) (ev : AuditEvent) :
  dayOf (EventTime ev) <= EventTime ev < dayOf (EventTime ev) + Day /\
  file (EmitAuditEvent l ev) = Some (dayOf (EventTime ev)) /\
  dir (EmitAuditEvent l ev) (dayOf (EventTime ev))
    = Some (linesOf l (dayOf (EventTime ev)) ++ [ev]) /\
  (forall d, d <> dayOf (EventTime ev) -> dir (EmitAuditEvent l ev) d = dir l d) /\
  readSymlink (EmitAuditEvent l ev)
    = Some (linesOf l (dayOf (EventTime ev)) ++ [ev]) /\
  (quietBetween l (EventTime ev - Hour) (EventTime ev + Hour) ->
   SearchEvents (EmitAuditEvent l ev) (EventTime ev - Hour) (EventTime ev + Hour)
     = [ev]).
Proof.
  split; [apply dayOf_bounds|].
  split; [apply EmitAuditEvent_file|].
  assert (Hdir : dir (EmitAuditEvent l ev) (dayOf (EventTime ev))
                 = Some (linesOf l (dayOf (EventTime ev)) ++ [ev])).
  { rewrite EmitAuditEvent_dir, Z.eqb_refl. reflexivity. }
  split; [exact Hdir|].
  split.
  - intros d Hd. rewrite EmitAuditEvent_dir.
    apply Z.eqb_neq in Hd. rewrite Hd. reflexivity.
  - split.
    + unfold readSymlink.
      rewrite EmitAuditEvent_symlink, EmitAuditEvent_file. exact Hdir.
    + apply SearchEvents_after_emit.
Qed.

(** C6 on the second emission of the test, 25 hours after the first: the
    log rotates to the file of 5 April, the file of 4 April keeps its line,
    and the search finds the new event alone. *)
Lemma EmitAuditEvent_rotates_by_event_day_witness :
  file (EmitAuditEvent afterFirstEmit (resizeAt (testStart + 25 * Hour)))
    = Some (testStart + Day) /\
  dir (EmitAuditEvent afterFirstEmit (resizeAt (testStart + 25 * Hour))) testStart
    = Some [resizeAt testStart] /\
  readSymlink (EmitAuditEvent afterFirstEmit (resizeAt (testStart + 25 * Hour)))
    = Some [resizeAt (testStart + 25 * Hour)] /\
  SearchEvents (EmitAuditEvent afterFirstEmit (resizeAt (testStart + 25 * Hour)))
    (testStart + 25 * Hour - Hour) (testStart + 25 * Hour + Hour)
    = [resizeAt (testStart + 25 * Hour)].
Proof.
  destruct (EmitAuditEvent_rotates_by_event_day afterFirstEmit
              (resizeAt (testStart + 25 * Hour)))
    as (_ & Hfile & _ & Hother & Hlink & Hsearch).
  split; [exact Hfile|].
  split; [rewrite Hother; [reflexivity | vm_compute; discriminate]|].
  split; [exact Hlink|].
  apply Hsearch.
  intros d ls e Hd He.
  unfold afterFirstEmit in Hd. rewrite EmitAuditEvent_dir in Hd.
  destruct (d =? dayOf (EventTime (resizeAt testStart))); [|discriminate Hd].
  injection Hd as Hls. subst ls.
  destruct He as [He | He]; [|contradiction].
  subst e. vm_compute. reflexivity.
Defined.

End Events.

(* ===================================================================== *)
(** * lib/client: keys loaded from identity files and their certificates   *)
(* ===================================================================== *)

Module Client.

(** [[]byte]. *)
Definition bytes := string.

(** The result of a call that may also panic. *)
Inductive outcome (A : Type) : Type :=
| Returned (a : A)
| Failed (e : Error)
| Panicked (m : string).
Arguments Returned {A} a.
Arguments Failed {A} e.
Arguments Panicked {A} m.

(** [client.IdentityFile] of the API package. *)
Record IdentityFile : Type := mkIdentityFile {
  PrivateKey : bytes;
  Certs_SSH : option bytes;
  Certs_TLS : bytes;
  CACerts_SSH : list bytes;
  CACerts_TLS : list bytes
}.

(** [server.TrustedCerts]. *)
Record TrustedCerts : Type := mkTrustedCerts {
  TLSCertificates : list bytes;
  HostCertificates : list bytes
}.

(** [Key]; [Cert] is [None] for a nil slice. *)
Record Key : Type := mkKey {
  Priv : bytes;
  Pub : bytes;
  Cert : option bytes;
  TLSCert : bytes;
  TrustedCA : list TrustedCerts
}.

(** [ssh.Certificate], the fields read here. *)
Record Certificate : Type := mkCertificate {
  KeyId : string;
  ValidPrincipals : list string;
  ValidBefore : Z
}.

Inductive HostKeyCallback : Type :=
| TrustSSHCAs (cas : list bytes)
| KeyStoreCertChecker (keyStore : string).

(** [ssh.ClientConfig]. *)
Record ClientConfig : Type := mkClientConfig {
  User : string;
  HostKeyCallback_ : HostKeyCallback
}.

(** What the functions of this file call in other packages: the reader of
    identity files, the SSH and TLS parsers, the certificate checker. *)
Record Lib : Type := mkLib {
  ReadIdentityFile : string -> result IdentityFile;
  ParseRawPrivateKey : bytes -> result bytes;
  (* [ssh.NewSignerFromKey] followed by [signer.PublicKey().Marshal()] *)
  NewSignerFromKey : bytes -> result bytes;
  X509KeyPair : bytes -> bytes -> option Error;
  AppendCertsFromPEM : bytes -> bool;
  ParseKnownHosts : bytes -> option Error;
  ParseCertificate : bytes -> result Certificate;
  SSHClientConfig : option bytes -> bytes -> list bytes -> result ClientConfig;
  CertChecker_CheckCert : bool -> string -> Certificate -> option Error;
  isFIPS : bool
}.

Definition indexOutOfRange : string :=
  "runtime error: index out of range [0] with length 0".

(** [l[0]] on a slice. *)
Definition index0 {A : Type} (l : list A) : outcome A :=
  match l with
  | [] => Panicked indexOutOfRange
  | x :: _ => Returned x
  end.

Section WithLib.

Variable lib : Lib.

(** The loop over [ident.CACerts.TLS]; [i] is the index of the head. *)
Fixpoint appendTLSCAs (i : nat) (certs : list bytes) : option Error :=
  match certs with
  | [] => None
  | certPEM :: rest =>
    if negb (AppendCertsFromPEM lib certPEM) then
      Some (BadParameter ("identity file contains invalid TLS CA cert (#"
                            ++ fmt_d (Z.of_nat (i + 1)) ++ ")"))
    else appendTLSCAs (i + 1) rest
  end.

(** The loop over [ident.CACerts.SSH]. *)
Fixpoint parseSSHCAs (certs : list bytes) : option Error :=
  match certs with
  | [] => None
  | caCert :: rest =>
    match ParseKnownHosts lib caCert with
    | Some err =>
      Some (BadParameter ("CA cert parsing error: " ++ msg err
        ++ "; make sure this identity file was generated by 'tsh login -o' or 'tctl auth sign --format=file' or try generating it again"))
    | None => parseSSHCAs rest
    end
  end.

(** [KeyFromIdentityFile]. *)
Definition KeyFromIdentityFile (path : string) : result Key :=
  match ReadIdentityFile lib path with
  | Err err => Err (WrapMsg err "failed to parse identity file")
  | Ok ident =>
  (* validate both by parsing them: *)
  match ParseRawPrivateKey lib (PrivateKey ident) with
  | Err err => Err (BadParameter ("invalid identity: " ++ path ++ ". " ++ msg err))
  | Ok privKey =>
  match NewSignerFromKey lib privKey with
  | Err err => Err (Wrap err)
  | Ok pub =>
  (* validate TLS Cert (if present): *)
  match (if Nat.ltb 0 (String.length (Certs_TLS ident))
         then X509KeyPair lib (Certs_TLS ident) (PrivateKey ident) else None) with
  | Some err => Err (Wrap err)
  | None =>
  (* Validate TLS CA certs (if present). *)
  if Nat.ltb 0 (List.length (CACerts_TLS ident))
     || Nat.ltb 0 (List.length (CACerts_SSH ident)) then
    let trustedCA := [mkTrustedCerts (CACerts_TLS ident) (CACerts_SSH ident)] in
    match appendTLSCAs 0 (CACerts_TLS ident) with
    | Some err => Err err
    | None =>
      match parseSSHCAs (CACerts_SSH ident) with
      | Some err => Err err
      | None =>
        Ok (mkKey (PrivateKey ident) pub (Certs_SSH ident) (Certs_TLS ident) trustedCA)
      end
    end
  else
    Ok (mkKey (PrivateKey ident) pub (Certs_SSH ident) (Certs_TLS ident) [])
  end end end end.

(** [Key.SSHCAs]. *)
Definition SSHCAs (k : Key) : list bytes :=
  flat_map HostCertificates (TrustedCA k).

(** [Key.ClientSSHConfig]. *)
Definition ClientSSHConfig (k : Key) : result ClientConfig :=
  SSHClientConfig lib (Cert k) (Priv k) (SSHCAs k).

(** [Key.SSHCert]. *)
Definition SSHCert (k : Key) : result Certificate :=
  match Cert k with
  | None => Err (NotFound "SSH cert not available")
  | Some c => ParseCertificate lib c
  end.

(** [Key.CertPrincipals]. *)
Definition CertPrincipals (k : Key) : result (list string) :=
  match SSHCert k with
  | Err err => Err (Wrap err)
  | Ok cert => Ok (ValidPrincipals cert)
  end.

(** [Key.CheckCert]: the argument [cert.ValidPrincipals[0]] is evaluated
    before the checker is called. *)
Definition CheckCert (k : Key) : outcome unit :=
  match SSHCert k with
  | Err err => Failed (Wrap err)
  | Ok cert =>
    match index0 (ValidPrincipals cert) with
    | Panicked m => Panicked m
    | Failed e => Failed e
    | Returned principal =>
      match CertChecker_CheckCert lib (isFIPS lib) principal cert with
      | Some err => Failed (Wrap err)
      | None => Returned tt
      end
    end
  end.

(** [ProxyClientSSHConfig]. *)
Definition ProxyClientSSHConfig (k : Key) (keyStore : string) : outcome ClientConfig :=
  match ClientSSHConfig k with
  | Err err => Failed (Wrap err)
  | Ok sshConfig =>
    match CertPrincipals k with
    | Err err => Failed (Wrap err)
    | Ok principals =>
      match index0 principals with
      | Panicked m => Panicked m
      | Failed e => Failed e
      | Returned principal =>
        Returned (mkClientConfig principal (KeyStoreCertChecker keyStore))
      end
    end
  end.

Definition panics {A : Type} (o : outcome A) : Prop :=
  exists m, o = Panicked m.








(** C9 (amended): with a certificate that parses but lists no principal,
    [CheckCert] panics on the index, and [ProxyClientSSHConfig] panics on it
    once [ClientSSHConfig] has succeeded, returning that call's error
    otherwise; with at least one principal neither of them panics. *)
Theorem first_principal_is_indexed_unguarded
    (k : Key) (keyStore : string) (cert : Certificate) :
  SSHCert k = Ok cert ->
  (ValidPrincipals cert = [] ->
     CheckCert k = Panicked indexOutOfRange /\
     (forall cfg, ClientSSHConfig k = Ok cfg ->
                  ProxyClientSSHConfig k keyStore = Panicked indexOutOfRange) /\
     (forall err, ClientSSHConfig k = Err err ->
                  ProxyClientSSHConfig k keyStore = Failed (Wrap err))) /\
  (ValidPrincipals cert <> [] ->
     ~ panics (CheckCert k) /\ ~ panics (ProxyClientSSHConfig k keyStore)).
Proof.
  intros Hcert. split.
  - intros Hempty. split; [|split].
    + unfold CheckCert. rewrite Hcert, Hempty. reflexivity.
    + intros cfg Hcfg. unfold ProxyClientSSHConfig, CertPrincipals.
      rewrite Hcfg, Hcert, Hempty. reflexivity.
    + intros err Hcfg. unfold ProxyClientSSHConfig. rewrite Hcfg. reflexivity.
  - intros Hsome.
    destruct (ValidPrincipals cert) as [|principal others] eqn:Hp; [contradiction|].
    split; intros [m Hm].
    + unfold CheckCert in Hm. rewrite Hcert, Hp in Hm. simpl in Hm.
      destruct (CertChecker_CheckCert lib (isFIPS lib) principal cert);
        discriminate Hm.
    + unfold ProxyClientSSHConfig, CertPrincipals in Hm.
      destruct (ClientSSHConfig k); [|discriminate Hm].
      rewrite Hcert, Hp in Hm. discriminate Hm.
Qed.

End WithLib.

(** Concrete libraries to run the model on. *)
Definition identityPath : string := "/home/alice/identity.pem".

Definition sampleIdentity : IdentityFile :=
  mkIdentityFile "PRIVATE KEY" (Some "ssh-cert") "TLS CERT"
    ["@cert-authority example.com ssh-rsa AAAA"] ["CA PEM"].

Definition noKeyFound : Error := RawError "ssh: no key found".

Definition aliceCert (principals : list string) : Certificate :=
  mkCertificate "alice" principals 0%Z.

(** Everything parses; the SSH certificate lists the given principals. *)
Definition libParsing (principals : list string) : Lib :=
  mkLib (fun _ => Ok sampleIdentity) (fun k => Ok k) (fun _ => Ok "public key")
    (fun _ _ => None) (fun _ => true) (fun _ => None)
    (fun _ => Ok (aliceCert principals))
    (fun _ _ cas => Ok (mkClientConfig "alice" (TrustSSHCAs cas)))
    (fun _ _ _ => None) false.




(** The certificate parses and lists no principal, while the private key
    of the key cannot be used to build the SSH client configuration. *)
Definition libNoPrincipalsBadKey : Lib :=
  mkLib (fun _ => Ok sampleIdentity) (fun k => Ok k) (fun _ => Ok "public key")
    (fun _ _ => None) (fun _ => true) (fun _ => None)
    (fun _ => Ok (aliceCert []))
    (fun _ _ _ => Err noKeyFound)
    (fun _ _ _ => None) false.

Definition aliceKey : Key := mkKey "PRIVATE KEY" "public key" (Some "ssh-cert") "TLS CERT" [].



(** C9 (as stated) fails for [ProxyClientSSHConfig]: with a certificate
    that lists no principal it returns the error of [ClientSSHConfig]
    instead of panicking when that call fails first. *)
Lemma ProxyClientSSHConfig_fails_before_indexing :
  SSHCert libNoPrincipalsBadKey aliceKey = Ok (aliceCert []) /\
  ValidPrincipals (aliceCert []) = [] /\
  ProxyClientSSHConfig libNoPrincipalsBadKey aliceKey "keystore" = Failed noKeyFound /\
  ~ panics (ProxyClientSSHConfig libNoPrincipalsBadKey aliceKey "keystore").
Proof.
  split; [reflexivity|]. split; [reflexivity|]. split; [reflexivity|].
  intros [m Hm]. vm_compute in Hm. discriminate Hm.
Qed.

(** C9 on a key whose certificate lists no principal, and on one whose
    certificate lists one. *)
Lemma first_principal_is_indexed_unguarded_witness :
  CheckCert (libParsing []) aliceKey = Panicked indexOutOfRange /\
  ProxyClientSSHConfig (libParsing []) aliceKey "keystore" = Panicked indexOutOfRange /\
  ~ panics (CheckCert (libParsing ["alice"]) aliceKey) /\
  ~ panics (ProxyClientSSHConfig (libParsing ["alice"]) aliceKey "keystore").
Proof.
  destruct (first_principal_is_indexed_unguarded (libParsing []) aliceKey
              "keystore" (aliceCert []) eq_refl) as [Hempty _].
  destruct (Hempty eq_refl) as (Hcheck & Hproxy & _).
  destruct (first_principal_is_indexed_unguarded (libParsing ["alice"]) aliceKey
              "keystore" (aliceCert ["alice"]) eq_refl) as [_ Hsome].
  split; [exact Hcheck|].
  split; [apply (Hproxy (mkClientConfig "alice" (TrustSSHCAs []))); reflexivity|].
  apply Hsome. simpl. discriminate.
Defined.

End Client.

(* ===================================================================== *)
(** * lib/events/slice.pb.go: the wire format of session slices            *)
(* ===================================================================== *)

Module Slice.

Open Scope Z_scope.

(** Bytes are numbers below 256; [uint64] values are numbers below 2^64;
    an [int64] (or an [int], on the 64-bit platforms the server runs on) is
    kept as a signed number and its conversions are written out. *)
Definition two64 : Z := 2 ^ 64.

(** [uint64(x)]. *)
Definition u64 (x : Z) : Z := x mod two64.

(** [int64(x)] and [int(x)] of a 64-bit pattern. *)
Definition i64 (x : Z) : Z :=
  if x mod two64 <? 2 ^ 63 then x mod two64 else x mod two64 - two64.

(** [int32(x)]. *)
Definition i32 (x : Z) : Z :=
  if x mod 2 ^ 32 <? 2 ^ 31 then x mod 2 ^ 32 else x mod 2 ^ 32 - 2 ^ 32.

(** [uint8(x)]. *)
Definition u8 (x : Z) : Z := x mod 256.

Definition len {A : Type} (l : list A) : Z := Z.of_nat (List.length l).

Record SessionChunk : Type := mkSessionChunk {
  Time : Z;
  Data : list Z;
  EventType : list Z;
  EventIndex : Z;
  ChunkIndex : Z;
  Offset : Z;
  Delay : Z;
  Chunk_unrecognized : list Z
}.

(** [Chunks] is a [[]*SessionChunk]: an element may be nil. *)
Record SessionSlice : Type := mkSessionSlice {
  Namespace : list Z;
  SessionID : list Z;
  Chunks : list (option SessionChunk);
  Version : Z;
  XXX_unrecognized : list Z
}.

(** [SessionChunk{}] and [SessionSlice{}]. *)
Definition emptyChunk : SessionChunk := mkSessionChunk 0 [] [] 0 0 0 0 [].
Definition emptySlice : SessionSlice := mkSessionSlice [] [] [] 0 [].

(** [bits.Len64]. *)
Definition Len64 (x : Z) : Z := if x =? 0 then 0 else Z.log2 x + 1.

Definition sovSlice (x : Z) : Z := (Len64 (Z.lor x 1) + 6) / 7.

(** A call that returns, or panics on an index out of range or on a nil
    pointer. *)
Inductive run (A : Type) : Type :=
| Ret (a : A)
| IndexPanic
| NilPanic.
Arguments Ret {A} a.
Arguments IndexPanic {A}.
Arguments NilPanic {A}.

Definition bind {A B : Type} (r : run A) (k : A -> run B) : run B :=
  match r with
  | Ret a => k a
  | IndexPanic => IndexPanic
  | NilPanic => NilPanic
  end.

Notation "x <- r ;; k" := (bind r (fun x => k))
  (at level 61, r at next level, right associativity).
Notation "' pat <- r ;; k" := (bind r (fun x => match x with pat => k end))
  (at level 61, pat pattern, r at next level, right associativity).

(** [l[i] = x] on a list. *)
Fixpoint update {A : Type} (i : nat) (x : A) (l : list A) : list A :=
  match l, i with
  | [], _ => []
  | _ :: t, O => x :: t
  | h :: t, S i' => h :: update i' x t
  end.

(** [dAtA[i] = b]. *)
Definition store (dAtA : list Z) (i : Z) (b : Z) : run (list Z) :=
  if (0 <=? i) && (i <? len dAtA) then Ret (update (Z.to_nat i) b dAtA)
  else IndexPanic.

(** [copy(dAtA[i:], src)]: the slice expression panics outside [0..len];
    [copy] itself stops at the shorter of the two. *)
Definition copyAt (dAtA : list Z) (i : Z) (src : list Z) : run (list Z) :=
  if (0 <=? i) && (i <=? len dAtA) then
    let n := Z.to_nat (Z.min (len src) (len dAtA - i)) in
    Ret (firstn (Z.to_nat i) dAtA ++ firstn n src ++ skipn (Z.to_nat i + n) dAtA)
  else IndexPanic.

(** The loop of [encodeVarintSlice]; a [uint64] has at most ten groups of
    seven bits, which bounds the iterations. *)
Fixpoint encodeVarintLoop (fuel : nat) (dAtA : list Z) (offset v : Z) : run (list Z) :=
  match fuel with
  | O => store dAtA offset (u8 v)
  | S fuel' =>
    if 128 <=? v then
      dAtA <- store dAtA offset (u8 (Z.lor (Z.land v 127) 128)) ;;
      encodeVarintLoop fuel' dAtA (offset + 1) (Z.shiftr v 7)
    else store dAtA offset (u8 v)
  end.

Definition encodeVarintSlice (dAtA : list Z) (offset v : Z) : run (list Z * Z) :=
  let offset := offset - sovSlice v in
  let base := offset in
  dAtA <- encodeVarintLoop 9 dAtA offset v ;;
  Ret (dAtA, base).

(** [i = encodeVarintSlice(dAtA, i, uint64(v)); i--; dAtA[i] = tag]. *)
Definition putVarint (tag : Z) (v : Z) (st : list Z * Z) : run (list Z * Z) :=
  let '(dAtA, i) := st in
  '(dAtA, i) <- encodeVarintSlice dAtA i (u64 v) ;;
  let i := i - 1 in
  dAtA <- store dAtA i tag ;;
  Ret (dAtA, i).

(** [i -= len(b); copy(dAtA[i:], b)], then the length and the tag. *)
Definition putBytes (tag : Z) (b : list Z) (st : list Z * Z) : run (list Z * Z) :=
  let '(dAtA, i) := st in
  let i := i - len b in
  dAtA <- copyAt dAtA i b ;;
  putVarint tag (len b) (dAtA, i).

Definition when (c : bool) (f : list Z * Z -> run (list Z * Z)) (st : list Z * Z)
  : run (list Z * Z) :=
  if c then f st else Ret st.

(** [if m.XXX_unrecognized != nil { i -= len(...); copy(dAtA[i:], ...) }];
    a nil and an empty slice move and copy nothing alike. *)
Definition putRaw (b : list Z) (st : list Z * Z) : run (list Z * Z) :=
  let '(dAtA, i) := st in
  let i := i - len b in
  dAtA <- copyAt dAtA i b ;;
  Ret (dAtA, i).

(** The body of [SessionChunk.MarshalToSizedBuffer]: the fields are written
    from the last one to the first one, towards the start of the buffer. *)
Definition Chunk_fields (m : SessionChunk) (st : list Z * Z) : run (list Z * Z) :=
  st <- when (negb (len (Chunk_unrecognized m) =? 0)) (putRaw (Chunk_unrecognized m)) st ;;
  st <- when (negb (Delay m =? 0)) (putVarint 0x40 (Delay m)) st ;;
  st <- when (negb (Offset m =? 0)) (putVarint 0x38 (Offset m)) st ;;
  st <- when (negb (ChunkIndex m =? 0)) (putVarint 0x30 (ChunkIndex m)) st ;;
  st <- when (negb (EventIndex m =? 0)) (putVarint 0x28 (EventIndex m)) st ;;
  st <- when (0 <? len (EventType m)) (putBytes 0x22 (EventType m)) st ;;
  st <- when (0 <? len (Data m)) (putBytes 0x1a (Data m)) st ;;
  when (negb (Time m =? 0)) (putVarint 0x10 (Time m)) st.

(** [SessionChunk.MarshalToSizedBuffer]: the buffer as the call leaves it
    and the number of bytes written at its end. *)
Definition Chunk_MarshalToSizedBuffer (m : SessionChunk) (dAtA : list Z)
  : run (list Z * Z) :=
  st <- Chunk_fields m (dAtA, len dAtA) ;;
  Ret (fst st, len dAtA - snd st).

(** [SessionChunk.Size]. *)
Definition Chunk_Size (m : SessionChunk) : Z :=
  let n := 0 in
  let n := if negb (Time m =? 0) then n + 1 + sovSlice (u64 (Time m)) else n in
  let l := len (Data m) in
  let n := if 0 <? l then n + 1 + l + sovSlice (u64 l) else n in
  let l := len (EventType m) in
  let n := if 0 <? l then n + 1 + l + sovSlice (u64 l) else n in
  let n := if negb (EventIndex m =? 0) then n + 1 + sovSlice (u64 (EventIndex m)) else n in
  let n := if negb (ChunkIndex m =? 0) then n + 1 + sovSlice (u64 (ChunkIndex m)) else n in
  let n := if negb (Offset m =? 0) then n + 1 + sovSlice (u64 (Offset m)) else n in
  let n := if negb (Delay m =? 0) then n + 1 + sovSlice (u64 (Delay m)) else n in
  let n := if negb (len (Chunk_unrecognized m) =? 0)
           then n + len (Chunk_unrecognized m) else n in
  n.

(** [dAtA[:n]]. *)
Definition sliceTo (dAtA : list Z) (n : Z) : run (list Z) :=
  if (0 <=? n) && (n <=? len dAtA) then Ret (firstn (Z.to_nat n) dAtA)
  else IndexPanic.

(** [SessionChunk.Marshal]. *)
Definition Chunk_Marshal (m : SessionChunk) : run (list Z) :=
  let size := Chunk_Size m in
  let dAtA := repeat 0 (Z.to_nat size) in
  buf <- sliceTo dAtA size ;;
  '(buf, n) <- Chunk_MarshalToSizedBuffer m buf ;;
  (* [buf] shares its array with [dAtA] *)
  let dAtA := buf ++ skipn (Z.to_nat size) dAtA in
  sliceTo dAtA n.

Inductive DecodeError : Type :=
| ErrInvalidLengthSlice
| ErrIntOverflowSlice
| ErrUnexpectedEndOfGroupSlice
| ErrUnexpectedEOF
| ErrEndGroupForNonGroup (message : string)
| ErrIllegalTag (message : string) (fieldNum wire : Z)
| ErrWrongWireType (wireType : Z) (field : string)
| ErrIllegalWireType (wireType : Z).

Definition decoded (A : Type) : Type := (DecodeError + A)%type.

(** A position in the input: the index [iNdEx] and the bytes from there to
    the end, [dAtA[iNdEx:]]. *)
Definition cursor : Type := (Z * list Z)%type.

(** The loop that reads a varint into a 64-bit accumulator:
    [acc |= uint64(b&0x7F) << shift] until a byte below [0x80].  The same
    loop fills [int64] and [int] variables, whose bits are the same. *)
Fixpoint readVarint (rest : list Z) (iNdEx shift acc : Z) : decoded (Z * cursor) :=
  if 64 <=? shift then inl ErrIntOverflowSlice
  else
    match rest with
    | [] => inl ErrUnexpectedEOF
    | b :: rest' =>
      let acc := Z.lor acc (u64 (Z.shiftl (Z.land b 127) shift)) in
      if b <? 128 then inr (acc, (iNdEx + 1, rest'))
      else readVarint rest' (iNdEx + 1) (shift + 7) acc
    end.

(** The varint loop of wire type 0 inside [skipSlice], which only counts. *)
Fixpoint skipVarint (rest : list Z) (iNdEx shift : Z) : decoded cursor :=
  if 64 <=? shift then inl ErrIntOverflowSlice
  else
    match rest with
    | [] => inl ErrUnexpectedEOF
    | b :: rest' =>
      if b <? 128 then inr (iNdEx + 1, rest')
      else skipVarint rest' (iNdEx + 1) (shift + 7)
    end.

(** [iNdEx += n] inside [skipSlice]: the index may pass the end. *)
Definition advance (c : cursor) (n : Z) : cursor :=
  (i64 (fst c + n), skipn (Z.to_nat n) (snd c)).

(** The loop of [skipSlice]; every iteration reads at least the tag. *)
Fixpoint skipLoop (fuel : nat) (c : cursor) (depth : Z) : decoded Z :=
  match fuel with
  | O => inl ErrUnexpectedEOF
  | S fuel' =>
    match snd c with
    | [] => inl ErrUnexpectedEOF
    | _ :: _ =>
      match readVarint (snd c) (fst c) 0 0 with
      | inl e => inl e
      | inr (wire, c) =>
        let wireType := Z.land wire 7 in
        let step :=
          if wireType =? 0 then
            match skipVarint (snd c) (fst c) 0 with
            | inl e => inl e
            | inr c => inr (c, depth)
            end
          else if wireType =? 1 then inr (advance c 8, depth)
          else if wireType =? 2 then
            match readVarint (snd c) (fst c) 0 0 with
            | inl e => inl e
            | inr (length, c) =>
              if i64 length <? 0 then inl ErrInvalidLengthSlice
              else inr (advance c (i64 length), depth)
            end
          else if wireType =? 3 then inr (c, depth + 1)
          else if wireType =? 4 then
            if depth =? 0 then inl ErrUnexpectedEndOfGroupSlice
            else inr (c, depth - 1)
          else if wireType =? 5 then inr (advance c 4, depth)
          else inl (ErrIllegalWireType wireType) in
        match step with
        | inl e => inl e
        | inr (c, depth) =>
          if fst c <? 0 then inl ErrInvalidLengthSlice
          else if depth =? 0 then inr (fst c)
          else skipLoop fuel' c depth
        end
      end
    end
  end.

Definition skipSlice (dAtA : list Z) : decoded Z :=
  skipLoop (List.length dAtA) (0, dAtA) 0.

(** A length-delimited field: the length is read, checked, and the bytes
    [dAtA[iNdEx:postIndex]] are handed over. *)
Definition readBytes (c : cursor) : decoded (list Z * cursor) :=
  match readVarint (snd c) (fst c) 0 0 with
  | inl e => inl e
  | inr (length, c) =>
    let l := fst c + len (snd c) in
    let intLen := i64 length in
    if intLen <? 0 then inl ErrInvalidLengthSlice
    else
      let postIndex := i64 (fst c + intLen) in
      if postIndex <? 0 then inl ErrInvalidLengthSlice
      else if l <? postIndex then inl ErrUnexpectedEOF
      else inr (firstn (Z.to_nat intLen) (snd c),
                (postIndex, skipn (Z.to_nat intLen) (snd c)))
  end.

(** The default case: the field is skipped and kept with the unrecognized
    bytes.  [pre] is the position before the tag. *)
Definition readUnknown (pre : cursor) : decoded (list Z * cursor) :=
  match skipSlice (snd pre) with
  | inl e => inl e
  | inr skippy =>
    let l := fst pre + len (snd pre) in
    if (skippy <? 0) || (i64 (fst pre + skippy) <? 0) then inl ErrInvalidLengthSlice
    else if l <? fst pre + skippy then inl ErrUnexpectedEOF
    else inr (firstn (Z.to_nat skippy) (snd pre),
              (fst pre + skippy, skipn (Z.to_nat skippy) (snd pre)))
  end.

Definition setTime (m : SessionChunk) (v : Z) : SessionChunk :=
  mkSessionChunk v (Data m) (EventType m) (EventIndex m) (ChunkIndex m) (Offset m)
    (Delay m) (Chunk_unrecognized m).
Definition setData (m : SessionChunk) (v : list Z) : SessionChunk :=
  mkSessionChunk (Time m) v (EventType m) (EventIndex m) (ChunkIndex m) (Offset m)
    (Delay m) (Chunk_unrecognized m).
Definition setEventType (m : SessionChunk) (v : list Z) : SessionChunk :=
  mkSessionChunk (Time m) (Data m) v (EventIndex m) (ChunkIndex m) (Offset m)
    (Delay m) (Chunk_unrecognized m).
Definition setEventIndex (m : SessionChunk) (v : Z) : SessionChunk :=
  mkSessionChunk (Time m) (Data m) (EventType m) v (ChunkIndex m) (Offset m)
    (Delay m) (Chunk_unrecognized m).
Definition setChunkIndex (m : SessionChunk) (v : Z) : SessionChunk :=
  mkSessionChunk (Time m) (Data m) (EventType m) (EventIndex m) v (Offset m)
    (Delay m) (Chunk_unrecognized m).
Definition setOffset (m : SessionChunk) (v : Z) : SessionChunk :=
  mkSessionChunk (Time m) (Data m) (EventType m) (EventIndex m) (ChunkIndex m) v
    (Delay m) (Chunk_unrecognized m).
Definition setDelay (m : SessionChunk) (v : Z) : SessionChunk :=
  mkSessionChunk (Time m) (Data m) (EventType m) (EventIndex m) (ChunkIndex m)
    (Offset m) v (Chunk_unrecognized m).
Definition addUnrecognized (m : SessionChunk) (v : list Z) : SessionChunk :=
  mkSessionChunk (Time m) (Data m) (EventType m) (EventIndex m) (ChunkIndex m)
    (Offset m) (Delay m) (Chunk_unrecognized m ++ v).

(** A varint field of the chunk: the wire type must be 0. *)
Definition chunkVarint (wireType : Z) (field : string) (c : cursor)
    (set : Z -> SessionChunk) : decoded (SessionChunk * cursor) :=
  if negb (wireType =? 0) then inl (ErrWrongWireType wireType field)
  else
    match readVarint (snd c) (fst c) 0 0 with
    | inl e => inl e
    | inr (v, c) => inr (set (i64 v), c)
    end.

(** A bytes or string field of the chunk: the wire type must be 2. *)
Definition chunkBytes (wireType : Z) (field : string) (c : cursor)
    (set : list Z -> SessionChunk) : decoded (SessionChunk * cursor) :=
  if negb (wireType =? 2) then inl (ErrWrongWireType wireType field)
  else
    match readBytes c with
    | inl e => inl e
    | inr (b, c) => inr (set b, c)
    end.

(** One turn of the loop of [SessionChunk.Unmarshal]: a tag and its
    field. *)
Definition chunkField (m : SessionChunk) (pre : cursor)
  : decoded (SessionChunk * cursor) :=
  match readVarint (snd pre) (fst pre) 0 0 with
  | inl e => inl e
  | inr (wire, c) =>
    let fieldNum := i32 (Z.shiftr wire 3) in
    let wireType := Z.land wire 7 in
    if wireType =? 4 then inl (ErrEndGroupForNonGroup "SessionChunk")
    else if fieldNum <=? 0 then inl (ErrIllegalTag "SessionChunk" fieldNum wire)
    else if fieldNum =? 2 then chunkVarint wireType "Time" c (setTime m)
    else if fieldNum =? 3 then chunkBytes wireType "Data" c (setData m)
    else if fieldNum =? 4 then chunkBytes wireType "EventType" c (setEventType m)
    else if fieldNum =? 5 then chunkVarint wireType "EventIndex" c (setEventIndex m)
    else if fieldNum =? 6 then chunkVarint wireType "ChunkIndex" c (setChunkIndex m)
    else if fieldNum =? 7 then chunkVarint wireType "Offset" c (setOffset m)
    else if fieldNum =? 8 then chunkVarint wireType "Delay" c (setDelay m)
    else
      match readUnknown pre with
      | inl e => inl e
      | inr (b, c) => inr (addUnrecognized m b, c)
      end
  end.

(** The loop [for iNdEx < l]; every turn consumes at least one byte. *)
Fixpoint chunkLoop (fuel : nat) (m : SessionChunk) (c : cursor) : decoded SessionChunk :=
  match snd c with
  | [] => inr m
  | _ :: _ =>
    match fuel with
    | O => inl ErrUnexpectedEOF
    | S fuel' =>
      match chunkField m c with
      | inl e => inl e
      | inr (m, c) => chunkLoop fuel' m c
      end
    end
  end.

(** [SessionChunk.Unmarshal] into the message [m]. *)
Definition Chunk_Unmarshal (m : SessionChunk) (dAtA : list Z) : decoded SessionChunk :=
  chunkLoop (List.length dAtA) m (0, dAtA).


(** ** SessionSlice *)

(** One turn of the loop over [m.Chunks] in
    [SessionSlice.MarshalToSizedBuffer]: the chunk is marshalled into
    [dAtA[:i]], which shares its array with [dAtA]; then its size and the
    tag are written.  A nil chunk is dereferenced inside its
    [MarshalToSizedBuffer]. *)
Definition putChunk (c : option SessionChunk) (st : list Z * Z) : run (list Z * Z) :=
  let '(dAtA, i) := st in
  sub <- sliceTo dAtA i ;;
  '(sub, size) <- match c with
                  | None => NilPanic
                  | Some c => Chunk_MarshalToSizedBuffer c sub
                  end ;;
  let dAtA := sub ++ skipn (Z.to_nat i) dAtA in
  let i := i - size in
  putVarint 0x1a size (dAtA, i).

(** [for iNdEx := len(m.Chunks) - 1; iNdEx >= 0; iNdEx--], on the chunks
    in reverse order. *)
Fixpoint putChunks (reversed : list (option SessionChunk)) (st : list Z * Z)
  : run (list Z * Z) :=
  match reversed with
  | [] => Ret st
  | c :: reversed' => st <- putChunk c st ;; putChunks reversed' st
  end.

Definition Slice_fields (m : SessionSlice) (st : list Z * Z) : run (list Z * Z) :=
  st <- when (negb (len (XXX_unrecognized m) =? 0)) (putRaw (XXX_unrecognized m)) st ;;
  st <- when (negb (Version m =? 0)) (putVarint 0x20 (Version m)) st ;;
  st <- putChunks (rev (Chunks m)) st ;;
  st <- when (0 <? len (SessionID m)) (putBytes 0x12 (SessionID m)) st ;;
  when (0 <? len (Namespace m)) (putBytes 0xa (Namespace m)) st.

(** [SessionSlice.MarshalToSizedBuffer]. *)
Definition Slice_MarshalToSizedBuffer (m : SessionSlice) (dAtA : list Z)
  : run (list Z * Z) :=
  st <- Slice_fields m (dAtA, len dAtA) ;;
  Ret (fst st, len dAtA - snd st).

(** [e.Size()] of an element of [m.Chunks]: 0 for nil. *)
Definition Chunk_Size_ptr (c : option SessionChunk) : Z :=
  match c with
  | None => 0
  | Some c => Chunk_Size c
  end.

(** [SessionSlice.Size]. *)
Definition Slice_Size (m : SessionSlice) : Z :=
  let n := 0 in
  let l := len (Namespace m) in
  let n := if 0 <? l then n + 1 + l + sovSlice (u64 l) else n in
  let l := len (SessionID m) in
  let n := if 0 <? l then n + 1 + l + sovSlice (u64 l) else n in
  let n := fold_left (fun n e => let l := Chunk_Size_ptr e in
                                 n + 1 + l + sovSlice (u64 l)) (Chunks m) n in
  let n := if negb (Version m =? 0) then n + 1 + sovSlice (u64 (Version m)) else n in
  let n := if negb (len (XXX_unrecognized m) =? 0)
           then n + len (XXX_unrecognized m) else n in
  n.

(** [SessionSlice.Marshal]. *)
Definition Slice_Marshal (m : SessionSlice) : run (list Z) :=
  let size := Slice_Size m in
  let dAtA := repeat 0 (Z.to_nat size) in
  buf <- sliceTo dAtA size ;;
  '(buf, n) <- Slice_MarshalToSizedBuffer m buf ;;
  let dAtA := buf ++ skipn (Z.to_nat size) dAtA in
  sliceTo dAtA n.

Definition setNamespace (m : SessionSlice) (v : list Z) : SessionSlice :=
  mkSessionSlice v (SessionID m) (Chunks m) (Version m) (XXX_unrecognized m).
Definition setSessionID (m : SessionSlice) (v : list Z) : SessionSlice :=
  mkSessionSlice (Namespace m) v (Chunks m) (Version m) (XXX_unrecognized m).
Definition appendChunk (m : SessionSlice) (c : SessionChunk) : SessionSlice :=
  mkSessionSlice (Namespace m) (SessionID m) (Chunks m ++ [Some c]) (Version m)
    (XXX_unrecognized m).
Definition setVersion (m : SessionSlice) (v : Z) : SessionSlice :=
  mkSessionSlice (Namespace m) (SessionID m) (Chunks m) v (XXX_unrecognized m).
Definition addSliceUnrecognized (m : SessionSlice) (v : list Z) : SessionSlice :=
  mkSessionSlice (Namespace m) (SessionID m) (Chunks m) (Version m)
    (XXX_unrecognized m ++ v).

Definition sliceVarint (wireType : Z) (field : string) (c : cursor)
    (set : Z -> SessionSlice) : decoded (SessionSlice * cursor) :=
  if negb (wireType =? 0) then inl (ErrWrongWireType wireType field)
  else
    match readVarint (snd c) (fst c) 0 0 with
    | inl e => inl e
    | inr (v, c) => inr (set (i64 v), c)
    end.

Definition sliceBytes (wireType : Z) (field : string) (c : cursor)
    (set : list Z -> SessionSlice) : decoded (SessionSlice * cursor) :=
  if negb (wireType =? 2) then inl (ErrWrongWireType wireType field)
  else
    match readBytes c with
    | inl e => inl e
    | inr (b, c) => inr (set b, c)
    end.

(** Field 3: a fresh chunk is appended and unmarshalled from
    [dAtA[iNdEx:postIndex]]. *)
Definition sliceChunk (wireType : Z) (m : SessionSlice) (c : cursor)
  : decoded (SessionSlice * cursor) :=
  if negb (wireType =? 2) then inl (ErrWrongWireType wireType "Chunks")
  else
    match readBytes c with
    | inl e => inl e
    | inr (b, c) =>
      match Chunk_Unmarshal emptyChunk b with
      | inl e => inl e
      | inr chunk => inr (appendChunk m chunk, c)
      end
    end.

(** One turn of the loop of [SessionSlice.Unmarshal]. *)
Definition sliceField (m : SessionSlice) (pre : cursor)
  : decoded (SessionSlice * cursor) :=
  match readVarint (snd pre) (fst pre) 0 0 with
  | inl e => inl e
  | inr (wire, c) =>
    let fieldNum := i32 (Z.shiftr wire 3) in
    let wireType := Z.land wire 7 in
    if wireType =? 4 then inl (ErrEndGroupForNonGroup "SessionSlice")
    else if fieldNum <=? 0 then inl (ErrIllegalTag "SessionSlice" fieldNum wire)
    else if fieldNum =? 1 then sliceBytes wireType "Namespace" c (setNamespace m)
    else if fieldNum =? 2 then sliceBytes wireType "SessionID" c (setSessionID m)
    else if fieldNum =? 3 then sliceChunk wireType m c
    else if fieldNum =? 4 then sliceVarint wireType "Version" c (setVersion m)
    else
      match readUnknown pre with
      | inl e => inl e
      | inr (b, c) => inr (addSliceUnrecognized m b, c)
      end
  end.

Fixpoint sliceLoop (fuel : nat) (m : SessionSlice) (c : cursor) : decoded SessionSlice :=
  match snd c with
  | [] => inr m
  | _ :: _ =>
    match fuel with
    | O => inl ErrUnexpectedEOF
    | S fuel' =>
      match sliceField m c with
      | inl e => inl e
      | inr (m, c) => sliceLoop fuel' m c
      end
    end
  end.

(** [SessionSlice.Unmarshal] into the message [m]. *)
Definition Slice_Unmarshal (m : SessionSlice) (dAtA : list Z) : decoded SessionSlice :=
  sliceLoop (List.length dAtA) m (0, dAtA).
(** ** The bytes a varint is made of *)

(** The groups of seven bits of [v], lowest first, all but the last with
    the continuation bit set. *)
Fixpoint varintBytes (fuel : nat) (v : Z) : list Z :=
  match fuel with
  | O => [u8 v]
  | S fuel' =>
    if 128 <=? v then u8 (Z.lor (Z.land v 127) 128) :: varintBytes fuel' (Z.shiftr v 7)
    else [u8 v]
  end.

Definition varint (v : Z) : list Z := varintBytes 9 v.

Lemma len_app {A : Type} (a b : list A) : len (a ++ b) = len a + len b.
Proof. unfold len. rewrite length_app. lia. Qed.

Lemma len_cons {A : Type} (x : A) (l : list A) : len (x :: l) = 1 + len l.
Proof. unfold len. simpl List.length. lia. Qed.

Lemma len_nonneg {A : Type} (l : list A) : 0 <= len l.
Proof. unfold len. lia. Qed.

Lemma len_nil {A : Type} : len (@nil A) = 0.
Proof. reflexivity. Qed.

Lemma u64_small (x : Z) : 0 <= x < two64 -> u64 x = x.
Proof. intros H. unfold u64. apply Z.mod_small. exact H. Qed.

Lemma u64_range (x : Z) : 0 <= u64 x < two64.
Proof. unfold u64. apply Z.mod_pos_bound. reflexivity. Qed.

(** A signed 64-bit number survives the trip through [uint64]. *)
Lemma i64_u64 (x : Z) : - 2 ^ 63 <= x < 2 ^ 63 -> i64 (u64 x) = x.
Proof.
  intros H. unfold i64, u64. rewrite Z.mod_mod by (unfold two64; lia).
  destruct (Z_lt_le_dec x 0) as [Hneg | Hpos].
  - assert (E : x mod two64 = x + two64).
    { symmetry. apply (Z.mod_unique x two64 (-1) (x + two64)); unfold two64 in *; lia. }
    rewrite E. destruct (x + two64 <? 2 ^ 63) eqn:C.
    + apply Z.ltb_lt in C. unfold two64 in *. lia.
    + lia.
  - rewrite Z.mod_small by (unfold two64; lia).
    destruct (x <? 2 ^ 63) eqn:C; [reflexivity|].
    apply Z.ltb_ge in C. lia.
Qed.

Lemma i64_small (x : Z) : 0 <= x < 2 ^ 63 -> i64 x = x.
Proof.
  intros H. unfold i64. rewrite Z.mod_small by (unfold two64; lia).
  destruct (x <? 2 ^ 63) eqn:C; [reflexivity|].
  apply Z.ltb_ge in C. lia.
Qed.

Lemma i64_neg_or_same (x : Z) : 0 <= x < two64 -> i64 x < 0 \/ i64 x = x.
Proof.
  intros H. unfold i64. rewrite Z.mod_small by exact H.
  destruct (x <? 2 ^ 63); [right; reflexivity | left; unfold two64 in *; lia].
Qed.

Lemma shiftr7_lt (v : Z) (n : Z) :
  0 <= n -> 0 <= v < 2 ^ (7 * (n + 1)) -> 0 <= Z.shiftr v 7 < 2 ^ (7 * n).
Proof.
  intros Hn [H0 H1]. rewrite Z.shiftr_div_pow2 by lia. split.
  - apply Z.div_pos; lia.
  - apply Z.div_lt_upper_bound; [lia|].
    rewrite <- Z.pow_add_r by lia.
    replace (7 + 7 * n) with (7 * (n + 1)) by lia. exact H1.
Qed.

Lemma low7_lor128 (v : Z) :
  0 <= v -> 128 <= Z.lor (Z.land v 127) 128 < 256 /\
            Z.land (Z.lor (Z.land v 127) 128) 127 = Z.land v 127.
Proof.
  intros Hv.
  assert (Hl : 0 <= Z.land v 127 < 128).
  { change 127 with (Z.ones 7). rewrite Z.land_ones by lia.
    apply Z.mod_pos_bound. reflexivity. }
  assert (Hdisj : Z.land (Z.land v 127) 128 = 0).
  { apply Z.bits_inj'. intros n Hn. rewrite !Z.land_spec, Z.bits_0.
    change 127 with (Z.ones 7). change 128 with (2 ^ 7).
    rewrite Z.testbit_ones_nonneg by lia. rewrite Z.pow2_bits_eqb by lia.
    destruct (Z.eqb_spec 7 n); destruct (Z.ltb_spec n 7); try lia;
      rewrite ?andb_false_r; auto. }
  assert (Hadd : Z.lor (Z.land v 127) 128 = Z.land v 127 + 128).
  { rewrite <- Z.lxor_lor by exact Hdisj.
    symmetry. apply Z.add_nocarry_lxor. exact Hdisj. }
  split; [lia|].
  apply Z.bits_inj'. intros n Hn.
  rewrite !Z.land_spec, Z.lor_spec, Z.land_spec.
  change 127 with (Z.ones 7). change 128 with (2 ^ 7).
  rewrite Z.testbit_ones_nonneg by lia. rewrite Z.pow2_bits_eqb by lia.
  destruct (Z.eqb_spec 7 n); destruct (Z.ltb_spec n 7); try lia;
    rewrite ?andb_false_r, ?andb_true_r, ?orb_false_r; auto.
Qed.

Lemma low7_and_rest (v : Z) :
  0 <= v -> Z.lor (Z.land v 127) (Z.shiftl (Z.shiftr v 7) 7) = v.
Proof.
  intros Hv. apply Z.bits_inj'. intros n Hn.
  rewrite Z.lor_spec, Z.land_spec.
  change 127 with (Z.ones 7). rewrite Z.testbit_ones_nonneg by lia.
  destruct (Z.ltb_spec n 7).
  - rewrite Z.shiftl_spec_low by lia. rewrite andb_true_r, orb_false_r. reflexivity.
  - rewrite Z.shiftl_spec by lia. rewrite Z.shiftr_spec by lia.
    rewrite andb_false_r. simpl. f_equal. lia.
Qed.

Lemma varintBytes_nonempty (fuel : nat) (v : Z) : varintBytes fuel v <> [].
Proof. destruct fuel; simpl; [|destruct (128 <=? v)]; discriminate. Qed.

Lemma Len64_lor1 (v : Z) : 0 <= v -> Len64 (Z.lor v 1) = Z.log2 v + 1.
Proof.
  intros Hv. unfold Len64.
  assert (H1 : 1 <= Z.lor v 1).
  { destruct (Z.eq_dec v 0) as [-> | Hne]; [simpl; lia|].
    pose proof (Z.lor_nonneg v 1) as Hn.
    assert (Hb : Z.testbit (Z.lor v 1) 0 = true)
      by (rewrite Z.lor_spec; simpl; apply orb_true_r).
    destruct (Z.eq_dec (Z.lor v 1) 0) as [E | E].
    - rewrite E in Hb. discriminate Hb.
    - assert (0 <= Z.lor v 1) by (apply Hn; lia). lia. }
  destruct (Z.lor v 1 =? 0) eqn:E; [apply Z.eqb_eq in E; lia|].
  rewrite Z.log2_lor by lia. change (Z.log2 1) with 0.
  pose proof (Z.log2_nonneg v). lia.
Qed.

Lemma sovSlice_small (v : Z) : 0 <= v < 128 -> sovSlice v = 1.
Proof.
  intros [H0 H1]. unfold sovSlice. rewrite Len64_lor1 by lia.
  assert (Hl : 0 <= Z.log2 v < 7).
  { split; [apply Z.log2_nonneg|].
    destruct (Z.eq_dec v 0) as [-> | Hne]; [simpl; lia|].
    apply Z.log2_lt_pow2; lia. }
  assert (E : Z.log2 v + 1 + 6 = 1 * 7 + Z.log2 v) by lia.
  rewrite E, Z.div_add_l by lia. rewrite Z.div_small by lia. lia.
Qed.

Lemma sovSlice_step (v : Z) : 128 <= v -> sovSlice v = 1 + sovSlice (Z.shiftr v 7).
Proof.
  intros Hv. unfold sovSlice.
  assert (Hs : 1 <= Z.shiftr v 7).
  { rewrite Z.shiftr_div_pow2 by lia. apply Z.div_le_lower_bound; lia. }
  rewrite !Len64_lor1 by lia.
  rewrite Z.log2_shiftr by lia.
  assert (Hl : 7 <= Z.log2 v) by (apply Z.log2_le_pow2; lia).
  rewrite Z.max_r by lia.
  replace (Z.log2 v + 1 + 6) with (1 * 7 + (Z.log2 v - 7 + 1 + 6)) by lia.
  rewrite Z.div_add_l by lia. reflexivity.
Qed.

(** [sovSlice] is the number of bytes of the varint. *)
Lemma len_varintBytes (fuel : nat) (v : Z) :
  0 <= v < 2 ^ (7 * (Z.of_nat fuel + 1)) -> len (varintBytes fuel v) = sovSlice v.
Proof.
  revert v. induction fuel as [|fuel IH]; intros v Hv.
  - simpl in Hv. cbn [varintBytes]. rewrite sovSlice_small by lia. reflexivity.
  - cbn [varintBytes]. destruct (128 <=? v) eqn:C.
    + apply Z.leb_le in C.
      rewrite len_cons, IH.
      * rewrite <- sovSlice_step by lia. reflexivity.
      * apply shiftr7_lt; [lia|].
        replace (Z.of_nat fuel + 1 + 1) with (Z.of_nat (S fuel) + 1) by lia. exact Hv.
    + apply Z.leb_gt in C. rewrite sovSlice_small by lia. reflexivity.
Qed.

Lemma len_varint (v : Z) : 0 <= v < two64 -> len (varint v) = sovSlice v.
Proof.
  intros H. apply len_varintBytes. simpl. unfold two64 in H. lia.
Qed.

Lemma sovSlice_bounds (v : Z) : 0 <= v < two64 -> 1 <= sovSlice v <= 10.
Proof.
  intros [H0 H1]. unfold sovSlice. rewrite Len64_lor1 by lia.
  assert (Hl : 0 <= Z.log2 v < 64).
  { split; [apply Z.log2_nonneg|].
    destruct (Z.eq_dec v 0) as [-> | Hne]; [simpl; lia|].
    apply Z.log2_lt_pow2; [lia | exact H1]. }
  split.
  - apply Z.div_le_lower_bound; lia.
  - apply Z.div_le_upper_bound; lia.
Qed.

(** ** Writing into the buffer from its end *)

Lemma update_middle {A : Type} (pre : list A) (x b : A) (post : list A) :
  update (List.length pre) b (pre ++ x :: post) = pre ++ b :: post.
Proof.
  induction pre as [|h pre IH]; simpl; [reflexivity | rewrite IH; reflexivity].
Qed.

Lemma store_middle (pre : list Z) (x b : Z) (post : list Z) :
  store (pre ++ x :: post) (len pre) b = Ret (pre ++ b :: post).
Proof.
  unfold store.
  assert (H : (0 <=? len pre) && (len pre <? len (pre ++ x :: post)) = true).
  { apply andb_true_iff. split; [apply Z.leb_le; apply len_nonneg|].
    apply Z.ltb_lt. rewrite len_app, len_cons. pose proof (len_nonneg post). lia. }
  rewrite H. unfold len. rewrite Nat2Z.id, update_middle. reflexivity.
Qed.

Lemma encodeVarintLoop_writes (fuel : nat) (v : Z) (pre seg post : list Z) :
  List.length seg = List.length (varintBytes fuel v) ->
  encodeVarintLoop fuel (pre ++ seg ++ post) (len pre) v
    = Ret (pre ++ varintBytes fuel v ++ post).
Proof.
  revert v pre seg. induction fuel as [|fuel IH]; intros v pre seg Hlen.
  - cbn [varintBytes encodeVarintLoop] in *.
    destruct seg as [|x [|y seg]]; try discriminate Hlen.
    apply store_middle.
  - cbn [varintBytes encodeVarintLoop] in *.
    destruct (128 <=? v).
    + destruct seg as [|x seg]; [discriminate Hlen|].
      simpl in Hlen. injection Hlen as Hlen.
      change ((x :: seg) ++ post) with (x :: seg ++ post).
      rewrite store_middle. cbn [bind].
      replace (pre ++ u8 (Z.lor (Z.land v 127) 128) :: seg ++ post)
        with ((pre ++ [u8 (Z.lor (Z.land v 127) 128)]) ++ seg ++ post)
        by (rewrite <- app_assoc; reflexivity).
      replace (len pre + 1) with (len (pre ++ [u8 (Z.lor (Z.land v 127) 128)]))
        by (rewrite len_app, len_cons, len_nil; lia).
      rewrite (IH _ _ seg Hlen). rewrite <- app_assoc. reflexivity.
    + destruct seg as [|x [|y seg]]; try discriminate Hlen.
      apply store_middle.
Qed.

Lemma copyAt_exact (pre seg post src : list Z) :
  List.length seg = List.length src ->
  copyAt (pre ++ seg ++ post) (len pre) src = Ret (pre ++ src ++ post).
Proof.
  intros Hlen. unfold copyAt.
  assert (H : (0 <=? len pre) && (len pre <=? len (pre ++ seg ++ post)) = true).
  { apply andb_true_iff. split; [apply Z.leb_le; apply len_nonneg|].
    apply Z.leb_le. rewrite len_app. pose proof (len_nonneg (seg ++ post)). lia. }
  rewrite H.
  assert (Hn : Z.to_nat (Z.min (len src) (len (pre ++ seg ++ post) - len pre))
               = List.length src).
  { rewrite !len_app. unfold len. rewrite Hlen. lia. }
  rewrite Hn. unfold len. rewrite Nat2Z.id.
  rewrite firstn_app, firstn_all, Nat.sub_diag, firstn_O, app_nil_r.
  rewrite firstn_all.
  rewrite skipn_app, skipn_all2 by lia.
  replace (List.length pre + List.length src - List.length pre)%nat
    with (List.length seg) by lia.
  rewrite skipn_app, skipn_all, Nat.sub_diag, skipn_O. reflexivity.
Qed.

(** A step of a marshalling function writes the bytes [e] when, on any
    buffer with exactly that much room before the part already written, it
    fills the room with [e] and moves the index to its start. *)
Definition writes (w : list Z * Z -> run (list Z * Z)) (e : list Z) : Prop :=
  forall pre seg out,
    List.length seg = List.length e ->
    w (pre ++ seg ++ out, len pre + len seg) = Ret (pre ++ e ++ out, len pre).

Lemma writes_nothing : writes (fun st => Ret st) [].
Proof.
  intros pre seg out Hlen. destruct seg; [|discriminate Hlen].
  rewrite len_nil, Z.add_0_r. reflexivity.
Qed.

Lemma writes_when (c : bool) (w : list Z * Z -> run (list Z * Z)) (e : list Z) :
  writes w e -> writes (when c w) (if c then e else []).
Proof.
  intros Hw. destruct c; [exact Hw | apply writes_nothing].
Qed.

Lemma writes_then (w1 w2 : list Z * Z -> run (list Z * Z)) (e1 e2 : list Z) :
  writes w1 e1 -> writes w2 e2 ->
  writes (fun st => bind (w1 st) w2) (e2 ++ e1).
Proof.
  intros H1 H2 pre seg out Hlen.
  rewrite length_app in Hlen.
  assert (Hsplit : seg = firstn (List.length e2) seg ++ skipn (List.length e2) seg)
    by (symmetry; apply firstn_skipn).
  set (s2 := firstn (List.length e2) seg) in *.
  set (s1 := skipn (List.length e2) seg) in *.
  assert (L2 : List.length s2 = List.length e2)
    by (unfold s2; rewrite length_firstn; lia).
  assert (L1 : List.length s1 = List.length e1)
    by (unfold s1; rewrite length_skipn; lia).
  rewrite Hsplit.
  replace (pre ++ (s2 ++ s1) ++ out) with ((pre ++ s2) ++ s1 ++ out)
    by (rewrite <- !app_assoc; reflexivity).
  replace (len pre + len (s2 ++ s1)) with (len (pre ++ s2) + len s1)
    by (rewrite !len_app; lia).
  rewrite (H1 (pre ++ s2) s1 out L1). cbn [bind].
  rewrite <- app_assoc. rewrite len_app.
  rewrite (H2 pre s2 (e1 ++ out) L2).
  rewrite <- app_assoc. reflexivity.
Qed.

Definition encVarint (tag v : Z) : list Z := tag :: varint (u64 v).

Definition encBytes (tag : Z) (b : list Z) : list Z :=
  tag :: varint (u64 (len b)) ++ b.

Lemma writes_putVarint (tag v : Z) : writes (putVarint tag v) (encVarint tag v).
Proof.
  intros pre seg out Hlen. unfold encVarint in *.
  destruct seg as [|x seg]; [discriminate Hlen|].
  simpl in Hlen. injection Hlen as Hlen.
  unfold putVarint, encodeVarintSlice.
  assert (Hsov : sovSlice (u64 v) = len seg).
  { rewrite <- len_varint by apply u64_range. unfold len. rewrite Hlen. reflexivity. }
  replace (len pre + len (x :: seg) - sovSlice (u64 v)) with (len (pre ++ [x]))
    by (rewrite len_app, !len_cons, len_nil; lia).
  replace (pre ++ (x :: seg) ++ out) with ((pre ++ [x]) ++ seg ++ out)
    by (rewrite <- app_assoc; reflexivity).
  rewrite (encodeVarintLoop_writes 9 (u64 v) (pre ++ [x]) seg out Hlen).
  cbn [bind].
  replace (len (pre ++ [x]) - 1) with (len pre)
    by (rewrite len_app, len_cons, len_nil; lia).
  rewrite <- app_assoc. change ([x] ++ varintBytes 9 (u64 v) ++ out)
    with (x :: varintBytes 9 (u64 v) ++ out).
  rewrite store_middle. reflexivity.
Qed.

Lemma writes_putBytes (tag : Z) (b : list Z) : writes (putBytes tag b) (encBytes tag b).
Proof.
  intros pre seg out Hlen. unfold encBytes in *.
  unfold putBytes.
  change (tag :: varint (u64 (len b)) ++ b) with (encVarint tag (len b) ++ b) in *.
  rewrite length_app in Hlen.
  assert (Hsplit : seg = firstn (List.length (encVarint tag (len b))) seg
                         ++ skipn (List.length (encVarint tag (len b))) seg)
    by (symmetry; apply firstn_skipn).
  set (s1 := firstn (List.length (encVarint tag (len b))) seg) in *.
  set (s2 := skipn (List.length (encVarint tag (len b))) seg) in *.
  assert (L1 : List.length s1 = List.length (encVarint tag (len b)))
    by (unfold s1; rewrite length_firstn; lia).
  assert (L2 : List.length s2 = List.length b)
    by (unfold s2; rewrite length_skipn; lia).
  rewrite Hsplit.
  replace (len pre + len (s1 ++ s2) - len b) with (len (pre ++ s1))
    by (rewrite !len_app; unfold len; rewrite L2; lia).
  replace (pre ++ (s1 ++ s2) ++ out) with ((pre ++ s1) ++ s2 ++ out)
    by (rewrite <- !app_assoc; reflexivity).
  rewrite (copyAt_exact (pre ++ s1) s2 out b L2). cbn [bind].
  rewrite <- app_assoc, len_app.
  rewrite (writes_putVarint tag (len b) pre s1 (b ++ out) L1).
  rewrite <- app_assoc. reflexivity.
Qed.

(** ** What a chunk is marshalled to *)

Definition optVarint (tag v : Z) : list Z :=
  if negb (v =? 0) then encVarint tag v else [].

Definition optBytes (tag : Z) (b : list Z) : list Z :=
  if 0 <? len b then encBytes tag b else [].

Definition optRaw (b : list Z) : list Z :=
  if negb (len b =? 0) then b else [].

(** The bytes of a chunk on the wire: the fields that are set, in the
    order of their numbers, then the unrecognized bytes. *)
Definition encodeChunk (m : SessionChunk) : list Z :=
  optVarint 0x10 (Time m) ++ optBytes 0x1a (Data m) ++ optBytes 0x22 (EventType m)
  ++ optVarint 0x28 (EventIndex m) ++ optVarint 0x30 (ChunkIndex m)
  ++ optVarint 0x38 (Offset m) ++ optVarint 0x40 (Delay m)
  ++ optRaw (Chunk_unrecognized m).

Lemma writes_putRaw (b : list Z) : writes (putRaw b) b.
Proof.
  intros pre seg out Hlen. unfold putRaw.
  replace (len pre + len seg - len b) with (len pre)
    by (unfold len; rewrite Hlen; lia).
  rewrite (copyAt_exact pre seg out b Hlen). reflexivity.
Qed.

Lemma writes_Chunk_fields (m : SessionChunk) :
  writes (Chunk_fields m) (encodeChunk m).
Proof.
  unfold encodeChunk, optVarint, optBytes, optRaw.
  rewrite !app_assoc. unfold Chunk_fields.
  repeat (apply writes_then; [apply writes_when|]);
    try apply writes_when;
    first [apply writes_putVarint | apply writes_putBytes | apply writes_putRaw].
Qed.

Lemma Chunk_MarshalToSizedBuffer_writes (m : SessionChunk) (pre seg : list Z) :
  List.length seg = List.length (encodeChunk m) ->
  Chunk_MarshalToSizedBuffer m (pre ++ seg)
    = Ret (pre ++ encodeChunk m, len (encodeChunk m)).
Proof.
  intros Hlen. unfold Chunk_MarshalToSizedBuffer.
  pose proof (writes_Chunk_fields m pre seg [] Hlen) as H.
  rewrite !app_nil_r in H. rewrite len_app, H. cbn [bind fst snd].
  f_equal. f_equal. unfold len. rewrite Hlen. lia.
Qed.

Lemma len_encVarint (tag v : Z) : len (encVarint tag v) = 1 + sovSlice (u64 v).
Proof.
  unfold encVarint. rewrite len_cons, len_varint by apply u64_range. reflexivity.
Qed.

Lemma len_encBytes (tag : Z) (b : list Z) :
  len (encBytes tag b) = 1 + len b + sovSlice (u64 (len b)).
Proof.
  unfold encBytes. rewrite len_cons, len_app, len_varint by apply u64_range. lia.
Qed.

(** [Size] is the length of what [MarshalToSizedBuffer] writes. *)
Lemma Chunk_Size_encodeChunk (m : SessionChunk) : Chunk_Size m = len (encodeChunk m).
Proof.
  unfold Chunk_Size, encodeChunk, optVarint, optBytes, optRaw.
  rewrite !len_app.
  destruct (negb (Time m =? 0)); destruct (0 <? len (Data m));
  destruct (0 <? len (EventType m)); destruct (negb (EventIndex m =? 0));
  destruct (negb (ChunkIndex m =? 0)); destruct (negb (Offset m =? 0));
  destruct (negb (Delay m =? 0)); destruct (negb (len (Chunk_unrecognized m) =? 0));
  repeat rewrite len_encVarint; repeat rewrite len_encBytes;
  repeat rewrite (@len_nil Z); lia.
Qed.

Lemma sliceTo_all (l : list Z) : sliceTo l (len l) = Ret l.
Proof.
  unfold sliceTo.
  assert (H : (0 <=? len l) && (len l <=? len l) = true).
  { apply andb_true_iff. split; apply Z.leb_le; [apply len_nonneg | lia]. }
  rewrite H. unfold len. rewrite Nat2Z.id, firstn_all. reflexivity.
Qed.

Lemma len_repeat (x : Z) (n : Z) : 0 <= n -> len (repeat x (Z.to_nat n)) = n.
Proof. intros H. unfold len. rewrite repeat_length. lia. Qed.

Lemma Chunk_Marshal_encodeChunk (m : SessionChunk) :
  Chunk_Marshal m = Ret (encodeChunk m).
Proof.
  unfold Chunk_Marshal. rewrite Chunk_Size_encodeChunk.
  set (e := encodeChunk m).
  assert (Hr : len (repeat 0 (Z.to_nat (len e))) = len e)
    by (apply len_repeat; apply len_nonneg).
  rewrite <- Hr at 2. rewrite sliceTo_all. cbn [bind].
  pose proof (Chunk_MarshalToSizedBuffer_writes m [] (repeat 0 (Z.to_nat (len e)))) as H.
  cbn [app] in H. rewrite H by (rewrite repeat_length; unfold len, e; lia).
  cbn [bind]. fold e. rewrite skipn_all2 by (rewrite repeat_length; unfold len; lia).
  rewrite app_nil_r. apply sliceTo_all.
Qed.

(** ** Reading back what was written *)

Lemma readVarint_varintBytes (fuel : nat) (v : Z) (rest : list Z) (i shift acc : Z) :
  0 <= v < 2 ^ (7 * (Z.of_nat fuel + 1)) ->
  0 <= shift -> shift + 7 * Z.of_nat fuel < 64 ->
  Z.shiftl v shift < two64 ->
  readVarint (varintBytes fuel v ++ rest) i shift acc
    = inr (Z.lor acc (Z.shiftl v shift), (i + len (varintBytes fuel v), rest)).
Proof.
  revert v i shift acc.
  assert (Hlast : forall v i shift acc,
            0 <= v < 128 -> 0 <= shift < 64 -> Z.shiftl v shift < two64 ->
            readVarint ([u8 v] ++ rest) i shift acc
              = inr (Z.lor acc (Z.shiftl v shift), (i + len [u8 v], rest))).
  { intros v i shift acc Hv Hs Hfit. cbn [app readVarint].
    assert (E : u8 v = v) by (unfold u8; apply Z.mod_small; lia). rewrite E.
    destruct (64 <=? shift) eqn:C; [apply Z.leb_le in C; lia|].
    assert (El : Z.land v 127 = v).
    { change 127 with (Z.ones 7). rewrite Z.land_ones by lia.
      apply Z.mod_small. simpl. lia. }
    rewrite El, u64_small.
    - destruct (v <? 128) eqn:C2; [|apply Z.ltb_ge in C2; lia].
      rewrite len_cons, len_nil. reflexivity.
    - split; [apply Z.shiftl_nonneg; lia | exact Hfit]. }
  induction fuel as [|fuel IH]; intros v i shift acc Hv Hs Hsum Hfit.
  - cbn [varintBytes]. apply Hlast; simpl in Hv; lia.
  - cbn [varintBytes]. destruct (128 <=? v) eqn:C.
    + apply Z.leb_le in C.
      destruct (low7_lor128 v) as [Hb Hland]; [lia|].
      assert (E : u8 (Z.lor (Z.land v 127) 128) = Z.lor (Z.land v 127) 128)
        by (unfold u8; apply Z.mod_small; lia).
      rewrite E. cbn [app readVarint].
      destruct (64 <=? shift) eqn:C1; [apply Z.leb_le in C1; lia|].
      destruct (Z.lor (Z.land v 127) 128 <? 128) eqn:C2; [apply Z.ltb_lt in C2; lia|].
      rewrite Hland.
      assert (Hlow : 0 <= Z.shiftl (Z.land v 127) shift <= Z.shiftl v shift).
      { split; [apply Z.shiftl_nonneg; apply Z.land_nonneg; lia|].
        rewrite !Z.shiftl_mul_pow2 by lia.
        apply Z.mul_le_mono_nonneg_r; [lia|].
        change 127 with (Z.ones 7). rewrite Z.land_ones by lia.
        apply Z.mod_le; lia. }
      rewrite u64_small by lia.
      assert (Hhigh : Z.shiftl (Z.shiftr v 7) (shift + 7) <= Z.shiftl v shift).
      { rewrite !Z.shiftl_mul_pow2 by lia.
        rewrite Z.shiftr_div_pow2 by lia.
        rewrite Z.pow_add_r by lia.
        replace (v / 2 ^ 7 * (2 ^ shift * 2 ^ 7)) with ((2 ^ 7 * (v / 2 ^ 7)) * 2 ^ shift)
          by ring.
        apply Z.mul_le_mono_nonneg_r; [lia|].
        apply Z.mul_div_le. lia. }
      rewrite IH.
      * rewrite len_cons. f_equal. f_equal.
        -- rewrite <- Z.lor_assoc. f_equal.
           replace (shift + 7) with (7 + shift) by lia.
           rewrite <- Z.shiftl_shiftl by lia.
           rewrite <- Z.shiftl_lor, low7_and_rest by lia. reflexivity.
        -- f_equal. lia.
      * apply shiftr7_lt; [lia|].
        replace (Z.of_nat fuel + 1 + 1) with (Z.of_nat (S fuel) + 1) by lia. exact Hv.
      * lia.
      * lia.
      * lia.
    + apply Z.leb_gt in C. apply Hlast; lia.
Qed.

(** The decoder's loop inverts [encodeVarintSlice]. *)
Lemma readVarint_varint (v : Z) (rest : list Z) (i : Z) :
  0 <= v < two64 ->
  readVarint (varint v ++ rest) i 0 0 = inr (v, (i + sovSlice v, rest)).
Proof.
  intros Hv. unfold varint.
  rewrite readVarint_varintBytes.
  - rewrite Z.shiftl_0_r, Z.lor_0_l. fold (varint v). rewrite len_varint by exact Hv.
    reflexivity.
  - simpl. unfold two64 in Hv. lia.
  - lia.
  - simpl. lia.
  - rewrite Z.shiftl_0_r. lia.
Qed.

Lemma readBytes_encoded (b rest : list Z) (i : Z) :
  0 <= i -> i + sovSlice (u64 (len b)) + len b < 2 ^ 63 ->
  readBytes (i, varint (u64 (len b)) ++ b ++ rest)
    = inr (b, (i + sovSlice (u64 (len b)) + len b, rest)).
Proof.
  intros Hi Hfit.
  pose proof (len_nonneg b) as Hb.
  pose proof (sovSlice_bounds (u64 (len b)) (u64_range _)) as Hs.
  assert (Eu : u64 (len b) = len b) by (apply u64_small; unfold two64; lia).
  unfold readBytes. cbn [fst snd].
  rewrite readVarint_varint by apply u64_range.
  cbn [fst snd]. rewrite Eu in *.
  rewrite i64_small by lia.
  destruct (len b <? 0) eqn:C; [apply Z.ltb_lt in C; lia|].
  rewrite i64_small by lia.
  destruct (i + sovSlice (len b) + len b <? 0) eqn:C1; [apply Z.ltb_lt in C1; lia|].
  rewrite len_app.
  destruct (i + sovSlice (len b) + (len b + len rest) <? i + sovSlice (len b) + len b)
    eqn:C2; [apply Z.ltb_lt in C2; pose proof (len_nonneg rest); lia|].
  assert (En : Z.to_nat (len b) = List.length b) by (unfold len; apply Nat2Z.id).
  rewrite En.
  rewrite firstn_app, firstn_all, Nat.sub_diag, firstn_O, app_nil_r.
  rewrite skipn_app, skipn_all, Nat.sub_diag, skipn_O. reflexivity.
Qed.

Lemma tag_Time m i r :
  chunkField m (i, 0x10 :: r) = chunkVarint 0 "Time" (i + 1, r) (setTime m).
Proof. reflexivity. Qed.

Lemma tag_Data m i r :
  chunkField m (i, 0x1a :: r) = chunkBytes 2 "Data" (i + 1, r) (setData m).
Proof. reflexivity. Qed.

Lemma tag_EventType m i r :
  chunkField m (i, 0x22 :: r) = chunkBytes 2 "EventType" (i + 1, r) (setEventType m).
Proof. reflexivity. Qed.

Lemma tag_EventIndex m i r :
  chunkField m (i, 0x28 :: r) = chunkVarint 0 "EventIndex" (i + 1, r) (setEventIndex m).
Proof. reflexivity. Qed.

Lemma tag_ChunkIndex m i r :
  chunkField m (i, 0x30 :: r) = chunkVarint 0 "ChunkIndex" (i + 1, r) (setChunkIndex m).
Proof. reflexivity. Qed.

Lemma tag_Offset m i r :
  chunkField m (i, 0x38 :: r) = chunkVarint 0 "Offset" (i + 1, r) (setOffset m).
Proof. reflexivity. Qed.

Lemma tag_Delay m i r :
  chunkField m (i, 0x40 :: r) = chunkVarint 0 "Delay" (i + 1, r) (setDelay m).
Proof. reflexivity. Qed.

(** ** Unmarshal after Marshal *)

(** [decodesTo bytes m final]: the loop of [SessionChunk.Unmarshal],
    started on the message [m] with [bytes] still unread, ends without an
    error on the message [final], wherever in the input [bytes] starts. *)
Definition decodesTo (bytes : list Z) (m final : SessionChunk) : Prop :=
  forall (i : Z) (fuel : nat),
    0 <= i -> i + len bytes < 2 ^ 63 -> (List.length bytes <= fuel)%nat ->
    chunkLoop fuel m (i, bytes) = inr final.

Lemma decodesTo_nil (m : SessionChunk) : decodesTo [] m m.
Proof. intros i fuel _ _ _. destruct fuel; reflexivity. Qed.

Lemma decodesTo_varint (tag : Z) (name : string) (set : SessionChunk -> Z -> SessionChunk)
    (v : Z) (rest : list Z) (m final : SessionChunk) :
  (forall m i r, chunkField m (i, tag :: r) = chunkVarint 0 name (i + 1, r) (set m)) ->
  - 2 ^ 63 <= v < 2 ^ 63 ->
  decodesTo rest (set m v) final ->
  decodesTo (encVarint tag v ++ rest) m final.
Proof.
  intros Htag Hv Hrest i fuel Hi Hfit Hfuel.
  unfold encVarint in *. rewrite <- app_comm_cons in *.
  rewrite len_cons, len_app in Hfit. rewrite len_varint in Hfit by apply u64_range.
  pose proof (sovSlice_bounds (u64 v) (u64_range _)) as Hs.
  pose proof (len_nonneg rest) as Hr.
  destruct fuel as [|fuel]; [cbn [List.length] in Hfuel; lia|].
  cbn [chunkLoop snd]. rewrite Htag. unfold chunkVarint.
  cbn [negb Z.eqb fst snd].
  rewrite readVarint_varint by apply u64_range.
  rewrite i64_u64 by exact Hv.
  apply Hrest; [lia | lia |].
  cbn [List.length] in Hfuel. rewrite length_app in Hfuel. lia.
Qed.

Lemma decodesTo_bytes (tag : Z) (name : string)
    (set : SessionChunk -> list Z -> SessionChunk)
    (b rest : list Z) (m final : SessionChunk) :
  (forall m i r, chunkField m (i, tag :: r) = chunkBytes 2 name (i + 1, r) (set m)) ->
  decodesTo rest (set m b) final ->
  decodesTo (encBytes tag b ++ rest) m final.
Proof.
  intros Htag Hrest i fuel Hi Hfit Hfuel.
  unfold encBytes in *. rewrite <- app_comm_cons in *. rewrite <- app_assoc in *.
  rewrite len_cons, !len_app in Hfit. rewrite len_varint in Hfit by apply u64_range.
  pose proof (sovSlice_bounds (u64 (len b)) (u64_range _)) as Hs.
  pose proof (len_nonneg rest) as Hr.
  pose proof (len_nonneg b) as Hb.
  destruct fuel as [|fuel]; [cbn [List.length] in Hfuel; lia|].
  cbn [chunkLoop snd]. rewrite Htag. unfold chunkBytes.
  cbn [negb Z.eqb Pos.eqb fst snd].
  rewrite readBytes_encoded by lia.
  apply Hrest; [lia | lia |].
  cbn [List.length] in Hfuel. rewrite !length_app in Hfuel. lia.
Qed.

Lemma decodesTo_optVarint (tag : Z) (name : string)
    (set : SessionChunk -> Z -> SessionChunk)
    (v : Z) (rest : list Z) (m final : SessionChunk) :
  (forall m i r, chunkField m (i, tag :: r) = chunkVarint 0 name (i + 1, r) (set m)) ->
  - 2 ^ 63 <= v < 2 ^ 63 ->
  set m 0 = m ->
  decodesTo rest (set m v) final ->
  decodesTo (optVarint tag v ++ rest) m final.
Proof.
  intros Htag Hv Hzero Hrest. unfold optVarint.
  destruct (v =? 0) eqn:C; cbn [negb].
  - apply Z.eqb_eq in C. subst v. rewrite Hzero in Hrest. exact Hrest.
  - apply (decodesTo_varint tag name set); assumption.
Qed.

Lemma decodesTo_optBytes (tag : Z) (name : string)
    (set : SessionChunk -> list Z -> SessionChunk)
    (b rest : list Z) (m final : SessionChunk) :
  (forall m i r, chunkField m (i, tag :: r) = chunkBytes 2 name (i + 1, r) (set m)) ->
  set m [] = m ->
  decodesTo rest (set m b) final ->
  decodesTo (optBytes tag b ++ rest) m final.
Proof.
  intros Htag Hzero Hrest. unfold optBytes.
  destruct (0 <? len b) eqn:C.
  - apply (decodesTo_bytes tag name set); assumption.
  - apply Z.ltb_ge in C. destruct b as [|x b].
    + rewrite Hzero in Hrest. exact Hrest.
    + rewrite len_cons in C. pose proof (len_nonneg b). lia.
Qed.

(** The int64 fields of a chunk hold int64 values. *)
Definition int64 (v : Z) : Prop := - 2 ^ 63 <= v < 2 ^ 63.

Definition chunkInRange (m : SessionChunk) : Prop :=
  int64 (Time m) /\ int64 (EventIndex m) /\ int64 (ChunkIndex m)
  /\ int64 (Offset m) /\ int64 (Delay m).

Lemma encodeChunk_then_decodes (m : SessionChunk) (rest : list Z) (final : SessionChunk) :
  chunkInRange m -> Chunk_unrecognized m = [] ->
  decodesTo rest m final ->
  decodesTo (encodeChunk m ++ rest) emptyChunk final.
Proof.
  intros (Ht & Hei & Hci & Ho & Hd) Hu Hrest.
  destruct m as [t d e ei ci o dl u]. cbn in Ht, Hei, Hci, Ho, Hd, Hu. subst u.
  unfold encodeChunk, int64 in *.
  cbn [Time Data EventType EventIndex ChunkIndex Offset Delay Chunk_unrecognized].
  rewrite <- !app_assoc. change (optRaw [] ++ rest) with rest.
  apply decodesTo_optVarint with (name := "Time") (set := setTime);
    [exact tag_Time | exact Ht | reflexivity |].
  apply decodesTo_optBytes with (name := "Data") (set := setData);
    [exact tag_Data | reflexivity |].
  apply decodesTo_optBytes with (name := "EventType") (set := setEventType);
    [exact tag_EventType | reflexivity |].
  apply decodesTo_optVarint with (name := "EventIndex") (set := setEventIndex);
    [exact tag_EventIndex | exact Hei | reflexivity |].
  apply decodesTo_optVarint with (name := "ChunkIndex") (set := setChunkIndex);
    [exact tag_ChunkIndex | exact Hci | reflexivity |].
  apply decodesTo_optVarint with (name := "Offset") (set := setOffset);
    [exact tag_Offset | exact Ho | reflexivity |].
  apply decodesTo_optVarint with (name := "Delay") (set := setDelay);
    [exact tag_Delay | exact Hd | reflexivity |].
  exact Hrest.
Qed.

Lemma encodeChunk_decodes (m : SessionChunk) :
  chunkInRange m -> Chunk_unrecognized m = [] ->
  decodesTo (encodeChunk m) emptyChunk m.
Proof.
  intros Hr Hu. rewrite <- (app_nil_r (encodeChunk m)).
  apply encodeChunk_then_decodes; [exact Hr | exact Hu | apply decodesTo_nil].
Qed.

Lemma decodesTo_Unmarshal (bytes : list Z) (m final : SessionChunk) :
  decodesTo bytes m final -> len bytes < 2 ^ 63 ->
  Chunk_Unmarshal m bytes = inr final.
Proof.
  intros H Hfit. unfold Chunk_Unmarshal. apply H; [lia | lia | apply Nat.le_refl].
Qed.

(** ** Fields the message does not know *)

Lemma skipVarint_varintBytes (fuel : nat) (v : Z) (rest : list Z) (i shift : Z) :
  0 <= v < 2 ^ (7 * (Z.of_nat fuel + 1)) -> shift + 7 * Z.of_nat fuel < 64 ->
  skipVarint (varintBytes fuel v ++ rest) i shift
    = inr (i + len (varintBytes fuel v), rest).
Proof.
  revert v i shift.
  assert (Hlast : forall v i shift, 0 <= v < 128 -> shift < 64 ->
            skipVarint ([u8 v] ++ rest) i shift = inr (i + len [u8 v], rest)).
  { intros v i shift Hv Hs. cbn [app skipVarint].
    assert (E : u8 v = v) by (unfold u8; apply Z.mod_small; lia). rewrite E.
    destruct (64 <=? shift) eqn:C; [apply Z.leb_le in C; lia|].
    destruct (v <? 128) eqn:C2; [|apply Z.ltb_ge in C2; lia].
    rewrite len_cons, len_nil. reflexivity. }
  induction fuel as [|fuel IH]; intros v i shift Hv Hsum.
  - cbn [varintBytes]. apply Hlast; simpl in Hv; lia.
  - cbn [varintBytes]. destruct (128 <=? v) eqn:C.
    + apply Z.leb_le in C.
      destruct (low7_lor128 v) as [Hb Hland]; [lia|].
      assert (E : u8 (Z.lor (Z.land v 127) 128) = Z.lor (Z.land v 127) 128)
        by (unfold u8; apply Z.mod_small; lia).
      rewrite E. cbn [app skipVarint].
      destruct (64 <=? shift) eqn:C1; [apply Z.leb_le in C1; lia|].
      destruct (Z.lor (Z.land v 127) 128 <? 128) eqn:C2; [apply Z.ltb_lt in C2; lia|].
      rewrite IH.
      * rewrite len_cons. f_equal. f_equal. lia.
      * apply shiftr7_lt; [lia|].
        replace (Z.of_nat fuel + 1 + 1) with (Z.of_nat (S fuel) + 1) by lia. exact Hv.
      * lia.
    + apply Z.leb_gt in C. apply Hlast; lia.
Qed.

(** A one-byte tag of wire type 0 whose field number the chunk does not
    have: field 1, or 9 to 15. *)
Definition unknownVarintTag (tag : Z) : Prop :=
  tag = 8 \/ tag = 72 \/ tag = 80 \/ tag = 88 \/ tag = 96 \/ tag = 104
  \/ tag = 112 \/ tag = 120.

Lemma readVarint_tag (tag : Z) (r : list Z) (i : Z) :
  0 <= tag < 128 -> readVarint (tag :: r) i 0 0 = inr (tag, (i + 1, r)).
Proof.
  intros Ht.
  assert (E : u8 tag = tag) by (unfold u8; apply Z.mod_small; lia).
  assert (H : readVarint (varintBytes 0 tag ++ r) i 0 0
              = inr (Z.lor 0 (Z.shiftl tag 0), (i + len (varintBytes 0 tag), r))).
  { apply readVarint_varintBytes; try rewrite Z.shiftl_0_r; simpl; unfold two64; lia. }
  rewrite Z.shiftl_0_r, Z.lor_0_l in H.
  unfold varintBytes in H. rewrite E in H. exact H.
Qed.

Lemma unknownVarintTag_facts (tag : Z) :
  unknownVarintTag tag -> 0 <= tag < 128 /\ Z.land tag 7 = 0.
Proof.
  unfold unknownVarintTag. intros H.
  repeat (destruct H as [H | H]; [subst tag; split; [lia | reflexivity]|]).
  subst tag; split; [lia | reflexivity].
Qed.

Lemma skipSlice_varint_field (tag v : Z) (rest : list Z) :
  unknownVarintTag tag ->
  skipSlice (encVarint tag v ++ rest) = inr (1 + sovSlice (u64 v)).
Proof.
  intros Htag. destruct (unknownVarintTag_facts tag Htag) as [Hr Hw].
  unfold skipSlice, encVarint. rewrite <- app_comm_cons.
  cbn [List.length skipLoop snd fst].
  rewrite readVarint_tag by exact Hr. cbn [fst snd]. rewrite Hw.
  cbn [Z.eqb].
  unfold varint. rewrite skipVarint_varintBytes.
  - fold (varint (u64 v)). rewrite len_varint by apply u64_range.
    pose proof (sovSlice_bounds (u64 v) (u64_range _)) as Hs.
    cbn [fst snd].
    destruct (0 + 1 + sovSlice (u64 v) <? 0) eqn:C; [apply Z.ltb_lt in C; lia|].
    change (0 =? 0) with true. cbv iota. f_equal.
  - pose proof (u64_range v) as Hu. unfold two64 in Hu. simpl. lia.
  - simpl. lia.
Qed.

Lemma tag_unknown (tag : Z) :
  unknownVarintTag tag ->
  forall m i r,
    chunkField m (i, tag :: r)
    = match readUnknown (i, tag :: r) with
      | inl e => inl e
      | inr (b, c) => inr (addUnrecognized m b, c)
      end.
Proof.
  unfold unknownVarintTag. intros H m i r.
  repeat (destruct H as [H | H]; [subst tag; reflexivity|]).
  subst tag; reflexivity.
Qed.

Lemma readUnknown_varint_field (tag v : Z) (rest : list Z) (i : Z) :
  unknownVarintTag tag ->
  0 <= i -> i + len (encVarint tag v) < 2 ^ 63 ->
  readUnknown (i, encVarint tag v ++ rest)
    = inr (encVarint tag v, (i + len (encVarint tag v), rest)).
Proof.
  intros Htag Hi Hfit. unfold readUnknown. cbn [fst snd].
  rewrite skipSlice_varint_field by exact Htag.
  rewrite len_encVarint in *.
  pose proof (sovSlice_bounds (u64 v) (u64_range _)) as Hs.
  destruct (1 + sovSlice (u64 v) <? 0) eqn:C; [apply Z.ltb_lt in C; lia|].
  rewrite i64_small by lia.
  destruct (i + (1 + sovSlice (u64 v)) <? 0) eqn:C1; [apply Z.ltb_lt in C1; lia|].
  cbn [orb]. rewrite len_app, len_encVarint.
  destruct (i + (1 + sovSlice (u64 v) + len rest) <? i + (1 + sovSlice (u64 v))) eqn:C2;
    [apply Z.ltb_lt in C2; pose proof (len_nonneg rest); lia|].
  assert (En : Z.to_nat (1 + sovSlice (u64 v)) = List.length (encVarint tag v)).
  { rewrite <- len_encVarint with (tag := tag). unfold len. apply Nat2Z.id. }
  rewrite En.
  rewrite firstn_app, firstn_all, Nat.sub_diag, firstn_O, app_nil_r.
  rewrite skipn_app, skipn_all, Nat.sub_diag, skipn_O. reflexivity.
Qed.

Lemma decodesTo_unknownVarint (tag v : Z) (rest : list Z) (m final : SessionChunk) :
  unknownVarintTag tag ->
  decodesTo rest (addUnrecognized m (encVarint tag v)) final ->
  decodesTo (encVarint tag v ++ rest) m final.
Proof.
  intros Htag Hrest i fuel Hi Hfit Hfuel.
  rewrite len_app in Hfit. pose proof (len_nonneg rest) as Hr.
  pose proof (len_encVarint tag v) as Hl.
  pose proof (sovSlice_bounds (u64 v) (u64_range _)) as Hs.
  destruct fuel as [|fuel];
    [unfold encVarint in Hfuel; cbn [List.length app] in Hfuel; lia|].
  assert (Hc : exists r, encVarint tag v ++ rest = tag :: r)
    by (unfold encVarint; eexists; rewrite <- app_comm_cons; reflexivity).
  destruct Hc as [r Hc].
  cbn [chunkLoop]. cbn [snd]. rewrite Hc at 1.
  rewrite Hc at 1. rewrite (tag_unknown tag Htag). rewrite <- Hc.
  rewrite readUnknown_varint_field by (try exact Htag; lia).
  apply Hrest; [lia | lia |].
  rewrite length_app in Hfuel. unfold len in Hl.
  assert (0 < List.length (encVarint tag v))%nat by (unfold encVarint; cbn; lia).
  lia.
Qed.

(** ** Properties of the chunk codec *)

Lemma optRaw_id (b : list Z) : optRaw b = b.
Proof. destruct b; reflexivity. Qed.

Lemma sovSlice_top_bit (x : Z) : 2 ^ 63 <= x < two64 -> sovSlice x = 10.
Proof.
  intros Hx. unfold sovSlice, Len64.
  assert (Hl : 2 ^ 63 <= Z.lor x 1 < 2 ^ 64).
  { assert (H0 : 0 <= Z.lor x 1) by (apply Z.lor_nonneg; lia).
    assert (Hlog : Z.log2 (Z.lor x 1) = 63).
    { rewrite Z.log2_lor by lia.
      assert (Z.log2 x = 63).
      { apply Z.log2_unique; [lia|]. unfold two64 in Hx. simpl. simpl in Hx. lia. }
      change (Z.log2 1) with 0. lia. }
    destruct (Z.log2_spec (Z.lor x 1)) as [Hlo Hhi].
    - destruct (Z.eq_dec (Z.lor x 1) 0) as [E|]; [|lia].
      apply Z.lor_eq_0_iff in E. lia.
    - rewrite Hlog in Hlo, Hhi. simpl in Hlo, Hhi. simpl. lia. }
  destruct (Z.lor x 1 =? 0) eqn:C; [apply Z.eqb_eq in C; simpl in Hl; lia|].
  assert (Hlog : Z.log2 (Z.lor x 1) = 63)
    by (apply Z.log2_unique; [lia | simpl; simpl in Hl; lia]).
  rewrite Hlog. reflexivity.
Qed.

(** X2: a negative [int64] field is converted with [uint64(v)] and so
    always takes ten bytes after its tag. *)
Theorem negative_varint_takes_ten_bytes (v : Z) :
  - 2 ^ 63 <= v < 0 -> sovSlice (u64 v) = 10.
Proof.
  intros Hv. apply sovSlice_top_bit. unfold u64, two64.
  replace (v mod 2 ^ 64) with (v + 2 ^ 64).
  - simpl. simpl in Hv. lia.
  - symmetry. rewrite <- (Z.mod_add v 1 (2 ^ 64)) by (simpl; lia).
    rewrite Z.mul_1_l. apply Z.mod_small. simpl. simpl in Hv. lia.
Qed.

Lemma negative_varint_takes_ten_bytes_witness :
  - 2 ^ 63 <= -1 < 0 /\ sovSlice (u64 (-1)) = 10.
Proof.
  split; [simpl; lia | apply (negative_varint_takes_ten_bytes (-1)); simpl; lia].
Defined.

(** X1: [encodeVarintSlice] fills exactly the [sovSlice v] bytes before
    [offset], leaves the rest of the buffer alone, returns the index of the
    first byte written, and the decoder's varint loop started there reads
    [v] back and stops at [offset]. *)
Theorem encodeVarintSlice_read_back (v : Z) (pre seg post : list Z) :
  0 <= v < two64 -> len seg = sovSlice v ->
  exists written,
    encodeVarintSlice (pre ++ seg ++ post) (len pre + len seg) v
      = Ret (pre ++ written ++ post, len pre)
    /\ len written = sovSlice v
    /\ readVarint (written ++ post) (len pre) 0 0
       = inr (v, (len pre + len seg, post)).
Proof.
  intros Hv Hseg. exists (varint v).
  assert (Hlen : List.length seg = List.length (varint v)).
  { apply Nat2Z.inj. fold (len seg). fold (len (varint v)).
    rewrite len_varint by exact Hv. exact Hseg. }
  repeat split.
  - unfold encodeVarintSlice. rewrite Hseg.
    replace (len pre + sovSlice v - sovSlice v) with (len pre) by lia.
    unfold varint in *. rewrite (encodeVarintLoop_writes 9 v pre seg post Hlen).
    reflexivity.
  - apply len_varint. exact Hv.
  - rewrite readVarint_varint by exact Hv. rewrite Hseg. reflexivity.
Qed.

Lemma encodeVarintSlice_read_back_witness :
  exists written,
    encodeVarintSlice ([7] ++ [0; 0] ++ [9]) (len [7] + len [0; 0]) 300
      = Ret ([7] ++ written ++ [9], len [7])
    /\ len written = sovSlice 300
    /\ readVarint (written ++ [9]) (len [7]) 0 0
       = inr (300, (len [7] + len [0; 0], [9])).
Proof.
  apply (encodeVarintSlice_read_back 300 [7] [0; 0] [9]);
    [unfold two64; simpl; lia | reflexivity].
Defined.

(** X3: [SessionChunk.Marshal] never panics, and returns exactly
    [SessionChunk.Size] bytes. *)
Theorem Chunk_Marshal_returns_Size_bytes (m : SessionChunk) :
  exists bytes, Chunk_Marshal m = Ret bytes /\ len bytes = Chunk_Size m.
Proof.
  exists (encodeChunk m). split.
  - apply Chunk_Marshal_encodeChunk.
  - symmetry. apply Chunk_Size_encodeChunk.
Qed.

(** X4: a chunk whose integer fields are int64 values and which carries
    no unrecognized bytes is read back unchanged: [Unmarshal] of what
    [Marshal] returned, into a fresh chunk, gives the chunk. *)
Theorem Chunk_Unmarshal_Marshal (m : SessionChunk) :
  chunkInRange m -> Chunk_unrecognized m = [] -> Chunk_Size m < 2 ^ 63 ->
  exists bytes,
    Chunk_Marshal m = Ret bytes /\ Chunk_Unmarshal emptyChunk bytes = inr m.
Proof.
  intros Hr Hu Hsize. exists (encodeChunk m). split.
  - apply Chunk_Marshal_encodeChunk.
  - apply decodesTo_Unmarshal.
    + apply encodeChunk_decodes; assumption.
    + rewrite <- Chunk_Size_encodeChunk. exact Hsize.
Qed.

(** A print event of a session recording, with a negative delay. *)
Definition printChunk : SessionChunk :=
  mkSessionChunk 1600000000000000000 [104; 105; 10] [112; 114; 105; 110; 116]
    3 1 4096 (-1) [].

Lemma chunkInRange_printChunk : chunkInRange printChunk.
Proof. unfold chunkInRange, int64, printChunk; cbn; lia. Qed.

Lemma Chunk_Unmarshal_Marshal_witness :
  chunkInRange printChunk /\ Chunk_unrecognized printChunk = []
  /\ Chunk_Size printChunk < 2 ^ 63
  /\ exists bytes,
       Chunk_Marshal printChunk = Ret bytes
       /\ Chunk_Unmarshal emptyChunk bytes = inr printChunk.
Proof.
  split; [exact chunkInRange_printChunk|].
  split; [reflexivity|].
  split; [vm_compute; reflexivity|].
  apply (Chunk_Unmarshal_Marshal printChunk);
    [exact chunkInRange_printChunk | reflexivity | vm_compute; reflexivity].
Defined.

(** X5: a varint field the chunk does not know (field 1, or 9 to 15)
    that follows the chunk's own fields is not dropped: [Unmarshal] keeps
    its bytes as the unrecognized bytes of the chunk, and [Marshal] of the
    result gives the input back byte for byte. *)
Theorem Chunk_keeps_unknown_varint_field (m : SessionChunk) (tag v : Z) :
  chunkInRange m -> Chunk_unrecognized m = [] -> Chunk_Size m + 11 < 2 ^ 63 ->
  unknownVarintTag tag ->
  exists bytes m',
    Chunk_Marshal m = Ret bytes
    /\ Chunk_Unmarshal emptyChunk (bytes ++ encVarint tag v) = inr m'
    /\ m' = addUnrecognized m (encVarint tag v)
    /\ Chunk_Marshal m' = Ret (bytes ++ encVarint tag v).
Proof.
  intros Hr Hu Hsize Htag.
  exists (encodeChunk m), (addUnrecognized m (encVarint tag v)).
  split; [apply Chunk_Marshal_encodeChunk|].
  split; [|split; [reflexivity|]].
  - apply decodesTo_Unmarshal.
    + apply encodeChunk_then_decodes; [exact Hr | exact Hu |].
      rewrite <- (app_nil_r (encVarint tag v)) at 1.
      apply decodesTo_unknownVarint; [exact Htag | apply decodesTo_nil].
    + rewrite len_app, <- Chunk_Size_encodeChunk, len_encVarint.
      pose proof (sovSlice_bounds (u64 v) (u64_range _)). lia.
  - rewrite Chunk_Marshal_encodeChunk. f_equal.
    unfold encodeChunk, addUnrecognized.
    cbn [Time Data EventType EventIndex ChunkIndex Offset Delay Chunk_unrecognized].
    rewrite Hu, !optRaw_id. cbn [app]. rewrite <- !app_assoc, app_nil_l. reflexivity.
Qed.

Lemma Chunk_keeps_unknown_varint_field_witness :
  chunkInRange printChunk /\ Chunk_unrecognized printChunk = []
  /\ Chunk_Size printChunk + 11 < 2 ^ 63 /\ unknownVarintTag 72
  /\ exists bytes m',
       Chunk_Marshal printChunk = Ret bytes
       /\ Chunk_Unmarshal emptyChunk (bytes ++ encVarint 72 500) = inr m'
       /\ m' = addUnrecognized printChunk (encVarint 72 500)
       /\ Chunk_Marshal m' = Ret (bytes ++ encVarint 72 500).
Proof.
  assert (Ht : unknownVarintTag 72) by (right; left; reflexivity).
  split; [exact chunkInRange_printChunk|].
  split; [reflexivity|].
  split; [vm_compute; reflexivity|].
  split; [exact Ht|].
  apply (Chunk_keeps_unknown_varint_field printChunk 72 500);
    [exact chunkInRange_printChunk | reflexivity | vm_compute; reflexivity | exact Ht].
Defined.

(** ** What a slice is marshalled to *)

(** The bytes [Size] counts for an element of [m.Chunks]: none for nil. *)
Definition chunkPayload (c : option SessionChunk) : list Z :=
  match c with
  | None => []
  | Some c => encodeChunk c
  end.

Definition encodeChunks (cs : list (option SessionChunk)) : list Z :=
  concat (map (fun c => encBytes 0x1a (chunkPayload c)) cs).

Definition encodeSlice (m : SessionSlice) : list Z :=
  optBytes 0xa (Namespace m) ++ optBytes 0x12 (SessionID m)
  ++ encodeChunks (Chunks m)
  ++ optVarint 0x20 (Version m) ++ optRaw (XXX_unrecognized m).

Lemma encodeChunks_app (a b : list (option SessionChunk)) :
  encodeChunks (a ++ b) = encodeChunks a ++ encodeChunks b.
Proof. unfold encodeChunks. rewrite map_app, concat_app. reflexivity. Qed.

Lemma sliceTo_prefix (a b : list Z) : sliceTo (a ++ b) (len a) = Ret a.
Proof.
  unfold sliceTo.
  assert (H : (0 <=? len a) && (len a <=? len (a ++ b)) = true).
  { apply andb_true_iff. split; apply Z.leb_le; [apply len_nonneg|].
    rewrite len_app. pose proof (len_nonneg b). lia. }
  rewrite H. unfold len. rewrite Nat2Z.id.
  rewrite firstn_app, firstn_all, Nat.sub_diag, firstn_O, app_nil_r. reflexivity.
Qed.

Lemma skipn_prefix (a b : list Z) : skipn (Z.to_nat (len a)) (a ++ b) = b.
Proof.
  unfold len. rewrite Nat2Z.id.
  rewrite skipn_app, skipn_all, Nat.sub_diag, skipn_O. reflexivity.
Qed.

Lemma writes_putChunk (c : SessionChunk) :
  writes (putChunk (Some c)) (encBytes 0x1a (encodeChunk c)).
Proof.
  intros pre seg out Hlen.
  change (encBytes 26 (encodeChunk c))
    with (encVarint 26 (len (encodeChunk c)) ++ encodeChunk c) in *.
  rewrite length_app in Hlen.
  set (k := List.length (encVarint 26 (len (encodeChunk c)))) in *.
  assert (Hsplit : seg = firstn k seg ++ skipn k seg) by (symmetry; apply firstn_skipn).
  set (s1 := firstn k seg) in *. set (s2 := skipn k seg) in *.
  assert (L1 : List.length s1 = k) by (unfold s1; rewrite length_firstn; lia).
  assert (L2 : List.length s2 = List.length (encodeChunk c))
    by (unfold s2; rewrite length_skipn; lia).
  rewrite Hsplit. unfold putChunk.
  replace (pre ++ (s1 ++ s2) ++ out) with ((pre ++ s1 ++ s2) ++ out)
    by (rewrite <- !app_assoc; reflexivity).
  replace (len pre + len (s1 ++ s2)) with (len (pre ++ s1 ++ s2))
    by (rewrite !len_app; lia).
  rewrite sliceTo_prefix. cbn [bind].
  replace (pre ++ s1 ++ s2) with ((pre ++ s1) ++ s2) at 1
    by (rewrite <- !app_assoc; reflexivity).
  rewrite (Chunk_MarshalToSizedBuffer_writes c (pre ++ s1) s2 L2). cbn [bind].
  rewrite skipn_prefix.
  replace (len (pre ++ s1 ++ s2) - len (encodeChunk c)) with (len pre + len s1)
    by (rewrite !len_app; unfold len; rewrite L2; lia).
  rewrite <- !app_assoc.
  rewrite (writes_putVarint 26 (len (encodeChunk c)) pre s1 (encodeChunk c ++ out) L1).
  reflexivity.
Qed.

Lemma writes_putChunks (r : list SessionChunk) :
  writes (putChunks (map Some r)) (encodeChunks (map Some (rev r))).
Proof.
  induction r as [|c r IH].
  - apply writes_nothing.
  - cbn [map rev putChunks]. rewrite map_app, encodeChunks_app.
    apply writes_then; [|exact IH].
    unfold encodeChunks. cbn [map concat chunkPayload]. rewrite app_nil_r.
    apply writes_putChunk.
Qed.

(** Every element of [m.Chunks] points to a chunk. *)
Definition noNilChunk (m : SessionSlice) : Prop :=
  exists cs : list SessionChunk, Chunks m = map Some cs.

Lemma writes_Slice_fields (m : SessionSlice) :
  noNilChunk m -> writes (Slice_fields m) (encodeSlice m).
Proof.
  intros [cs Hcs].
  unfold encodeSlice, optVarint, optBytes, optRaw.
  rewrite !app_assoc. unfold Slice_fields.
  repeat (apply writes_then; [try apply writes_when|]);
    try apply writes_when;
    try first [apply writes_putVarint | apply writes_putBytes | apply writes_putRaw].
  rewrite Hcs, <- map_rev.
  rewrite <- (rev_involutive cs) at 2. apply writes_putChunks.
Qed.

Lemma Slice_Size_chunks (cs : list (option SessionChunk)) (n : Z) :
  fold_left (fun n e => let l := Chunk_Size_ptr e in n + 1 + l + sovSlice (u64 l)) cs n
  = n + len (encodeChunks cs).
Proof.
  revert n. induction cs as [|c cs IH]; intros n.
  - unfold encodeChunks. cbn [fold_left map concat]. rewrite len_nil. lia.
  - cbn [fold_left]. rewrite IH.
    change (c :: cs) with ([c] ++ cs). rewrite encodeChunks_app, len_app.
    unfold encodeChunks at 2. cbn [map concat]. rewrite app_nil_r, len_encBytes.
    assert (E : Chunk_Size_ptr c = len (chunkPayload c)).
    { destruct c as [c|]; [apply Chunk_Size_encodeChunk | reflexivity]. }
    cbv zeta. rewrite E. lia.
Qed.

(** [Size] is the length of [encodeSlice], nil chunks counted as empty
    ones. *)
Lemma Slice_Size_encodeSlice (m : SessionSlice) : Slice_Size m = len (encodeSlice m).
Proof.
  unfold Slice_Size, encodeSlice, optVarint, optBytes, optRaw.
  cbv zeta. rewrite Slice_Size_chunks. rewrite !len_app.
  destruct (0 <? len (Namespace m)); destruct (0 <? len (SessionID m));
  destruct (negb (Version m =? 0)); destruct (negb (len (XXX_unrecognized m) =? 0));
  repeat rewrite len_encVarint; repeat rewrite len_encBytes;
  repeat rewrite (@len_nil Z); lia.
Qed.

Lemma Slice_MarshalToSizedBuffer_writes (m : SessionSlice) (pre seg : list Z) :
  noNilChunk m ->
  List.length seg = List.length (encodeSlice m) ->
  Slice_MarshalToSizedBuffer m (pre ++ seg)
    = Ret (pre ++ encodeSlice m, len (encodeSlice m)).
Proof.
  intros Hn Hlen. unfold Slice_MarshalToSizedBuffer.
  pose proof (writes_Slice_fields m Hn pre seg [] Hlen) as H.
  rewrite !app_nil_r in H. rewrite len_app, H. cbn [bind fst snd].
  f_equal. f_equal. unfold len. rewrite Hlen. lia.
Qed.

Lemma Slice_Marshal_encodeSlice (m : SessionSlice) :
  noNilChunk m -> Slice_Marshal m = Ret (encodeSlice m).
Proof.
  intros Hn. unfold Slice_Marshal. rewrite Slice_Size_encodeSlice.
  set (e := encodeSlice m).
  assert (Hr : len (repeat 0 (Z.to_nat (len e))) = len e)
    by (apply len_repeat; apply len_nonneg).
  rewrite <- Hr at 2. rewrite sliceTo_all. cbn [bind].
  pose proof (Slice_MarshalToSizedBuffer_writes m [] (repeat 0 (Z.to_nat (len e))) Hn)
    as H.
  cbn [app] in H. rewrite H by (rewrite repeat_length; unfold len, e; lia).
  cbn [bind]. fold e. rewrite skipn_all2 by (rewrite repeat_length; unfold len; lia).
  rewrite app_nil_r. apply sliceTo_all.
Qed.

(** ** Unmarshal after Marshal, for slices *)

Definition sliceDecodesTo (bytes : list Z) (m final : SessionSlice) : Prop :=
  forall (i : Z) (fuel : nat),
    0 <= i -> i + len bytes < 2 ^ 63 -> (List.length bytes <= fuel)%nat ->
    sliceLoop fuel m (i, bytes) = inr final.

Lemma sliceDecodesTo_nil (m : SessionSlice) : sliceDecodesTo [] m m.
Proof. intros i fuel _ _ _. destruct fuel; reflexivity. Qed.

Lemma slice_tag_Namespace m i r :
  sliceField m (i, 0xa :: r) = sliceBytes 2 "Namespace" (i + 1, r) (setNamespace m).
Proof. reflexivity. Qed.

Lemma slice_tag_SessionID m i r :
  sliceField m (i, 0x12 :: r) = sliceBytes 2 "SessionID" (i + 1, r) (setSessionID m).
Proof. reflexivity. Qed.

Lemma slice_tag_Chunks m i r :
  sliceField m (i, 0x1a :: r) = sliceChunk 2 m (i + 1, r).
Proof. reflexivity. Qed.

Lemma slice_tag_Version m i r :
  sliceField m (i, 0x20 :: r) = sliceVarint 0 "Version" (i + 1, r) (setVersion m).
Proof. reflexivity. Qed.

Lemma sliceDecodesTo_varint (tag : Z) (name : string)
    (set : SessionSlice -> Z -> SessionSlice)
    (v : Z) (rest : list Z) (m final : SessionSlice) :
  (forall m i r, sliceField m (i, tag :: r) = sliceVarint 0 name (i + 1, r) (set m)) ->
  - 2 ^ 63 <= v < 2 ^ 63 ->
  sliceDecodesTo rest (set m v) final ->
  sliceDecodesTo (encVarint tag v ++ rest) m final.
Proof.
  intros Htag Hv Hrest i fuel Hi Hfit Hfuel.
  unfold encVarint in *. rewrite <- app_comm_cons in *.
  rewrite len_cons, len_app in Hfit. rewrite len_varint in Hfit by apply u64_range.
  pose proof (sovSlice_bounds (u64 v) (u64_range _)) as Hs.
  pose proof (len_nonneg rest) as Hr.
  destruct fuel as [|fuel]; [cbn [List.length] in Hfuel; lia|].
  cbn [sliceLoop snd]. rewrite Htag. unfold sliceVarint.
  cbn [negb Z.eqb fst snd].
  rewrite readVarint_varint by apply u64_range.
  rewrite i64_u64 by exact Hv.
  apply Hrest; [lia | lia |].
  cbn [List.length] in Hfuel. rewrite length_app in Hfuel. lia.
Qed.

Lemma sliceDecodesTo_bytes (tag : Z) (name : string)
    (set : SessionSlice -> list Z -> SessionSlice)
    (b rest : list Z) (m final : SessionSlice) :
  (forall m i r, sliceField m (i, tag :: r) = sliceBytes 2 name (i + 1, r) (set m)) ->
  sliceDecodesTo rest (set m b) final ->
  sliceDecodesTo (encBytes tag b ++ rest) m final.
Proof.
  intros Htag Hrest i fuel Hi Hfit Hfuel.
  unfold encBytes in *. rewrite <- app_comm_cons in *. rewrite <- app_assoc in *.
  rewrite len_cons, !len_app in Hfit. rewrite len_varint in Hfit by apply u64_range.
  pose proof (sovSlice_bounds (u64 (len b)) (u64_range _)) as Hs.
  pose proof (len_nonneg rest) as Hr.
  pose proof (len_nonneg b) as Hb.
  destruct fuel as [|fuel]; [cbn [List.length] in Hfuel; lia|].
  cbn [sliceLoop snd]. rewrite Htag. unfold sliceBytes.
  cbn [negb Z.eqb Pos.eqb fst snd].
  rewrite readBytes_encoded by lia.
  apply Hrest; [lia | lia |].
  cbn [List.length] in Hfuel. rewrite !length_app in Hfuel. lia.
Qed.

Lemma sliceDecodesTo_optVarint (tag : Z) (name : string)
    (set : SessionSlice -> Z -> SessionSlice)
    (v : Z) (rest : list Z) (m final : SessionSlice) :
  (forall m i r, sliceField m (i, tag :: r) = sliceVarint 0 name (i + 1, r) (set m)) ->
  - 2 ^ 63 <= v < 2 ^ 63 ->
  set m 0 = m ->
  sliceDecodesTo rest (set m v) final ->
  sliceDecodesTo (optVarint tag v ++ rest) m final.
Proof.
  intros Htag Hv Hzero Hrest. unfold optVarint.
  destruct (v =? 0) eqn:C; cbn [negb].
  - apply Z.eqb_eq in C. subst v. rewrite Hzero in Hrest. exact Hrest.
  - apply (sliceDecodesTo_varint tag name set); assumption.
Qed.

Lemma sliceDecodesTo_optBytes (tag : Z) (name : string)
    (set : SessionSlice -> list Z -> SessionSlice)
    (b rest : list Z) (m final : SessionSlice) :
  (forall m i r, sliceField m (i, tag :: r) = sliceBytes 2 name (i + 1, r) (set m)) ->
  set m [] = m ->
  sliceDecodesTo rest (set m b) final ->
  sliceDecodesTo (optBytes tag b ++ rest) m final.
Proof.
  intros Htag Hzero Hrest. unfold optBytes.
  destruct (0 <? len b) eqn:C.
  - apply (sliceDecodesTo_bytes tag name set); assumption.
  - apply Z.ltb_ge in C. destruct b as [|x b].
    + rewrite Hzero in Hrest. exact Hrest.
    + rewrite len_cons in C. pose proof (len_nonneg b). lia.
Qed.

(** A chunk that [Unmarshal] gives back as it was. *)
Definition plainChunk (c : SessionChunk) : Prop :=
  chunkInRange c /\ Chunk_unrecognized c = [].

Lemma sliceDecodesTo_chunk (c : SessionChunk) (rest : list Z) (m final : SessionSlice) :
  plainChunk c ->
  sliceDecodesTo rest (appendChunk m c) final ->
  sliceDecodesTo (encBytes 0x1a (encodeChunk c) ++ rest) m final.
Proof.
  intros [Hr Hu] Hrest i fuel Hi Hfit Hfuel.
  unfold encBytes in *. rewrite <- app_comm_cons in *. rewrite <- app_assoc in *.
  rewrite len_cons, !len_app in Hfit. rewrite len_varint in Hfit by apply u64_range.
  pose proof (sovSlice_bounds (u64 (len (encodeChunk c))) (u64_range _)) as Hs.
  pose proof (len_nonneg rest) as Hrs.
  pose proof (len_nonneg (encodeChunk c)) as Hb.
  destruct fuel as [|fuel]; [cbn [List.length] in Hfuel; lia|].
  cbn [sliceLoop snd]. rewrite slice_tag_Chunks. unfold sliceChunk.
  cbn [negb Z.eqb Pos.eqb fst snd].
  rewrite readBytes_encoded by lia.
  rewrite (decodesTo_Unmarshal (encodeChunk c) emptyChunk c)
    by (try apply encodeChunk_decodes; try assumption; lia).
  apply Hrest; [lia | lia |].
  cbn [List.length] in Hfuel. rewrite !length_app in Hfuel. lia.
Qed.

Lemma appendChunk_Chunks (m : SessionSlice) (c : SessionChunk) :
  Chunks (appendChunk m c) = Chunks m ++ [Some c].
Proof. reflexivity. Qed.

Fixpoint appendChunks (m : SessionSlice) (cs : list SessionChunk) : SessionSlice :=
  match cs with
  | [] => m
  | c :: cs' => appendChunks (appendChunk m c) cs'
  end.

Lemma sliceDecodesTo_chunks (cs : list SessionChunk) (rest : list Z)
    (m final : SessionSlice) :
  Forall plainChunk cs ->
  sliceDecodesTo rest (appendChunks m cs) final ->
  sliceDecodesTo (encodeChunks (map Some cs) ++ rest) m final.
Proof.
  revert m. induction cs as [|c cs IH]; intros m Hall Hrest.
  - exact Hrest.
  - inversion Hall as [|c' cs' Hc Hcs]; subst.
    change (map Some (c :: cs)) with ([Some c] ++ map Some cs).
    rewrite encodeChunks_app, <- app_assoc.
    unfold encodeChunks at 1. cbn [map concat chunkPayload]. rewrite app_nil_r.
    apply sliceDecodesTo_chunk; [exact Hc|].
    apply IH; [exact Hcs | exact Hrest].
Qed.

Lemma appendChunks_fields (m : SessionSlice) (cs : list SessionChunk) :
  appendChunks m cs
  = mkSessionSlice (Namespace m) (SessionID m) (Chunks m ++ map Some cs) (Version m)
      (XXX_unrecognized m).
Proof.
  revert m. induction cs as [|c cs IH]; intros m.
  - cbn [appendChunks map]. rewrite app_nil_r. destruct m; reflexivity.
  - cbn [appendChunks map]. rewrite IH. unfold appendChunk.
    cbn [Namespace SessionID Chunks Version XXX_unrecognized].
    rewrite <- app_assoc. reflexivity.
Qed.

(** A slice that [Unmarshal] gives back as it was: no nil chunk, int64
    values, and no unrecognized bytes at either level. *)
Definition plainSlice (m : SessionSlice) : Prop :=
  (exists cs, Chunks m = map Some cs /\ Forall plainChunk cs)
  /\ int64 (Version m) /\ XXX_unrecognized m = [].

Lemma plainSlice_noNilChunk (m : SessionSlice) : plainSlice m -> noNilChunk m.
Proof. intros [[cs [H _]] _]. exists cs. exact H. Qed.

Lemma encodeSlice_decodes (m : SessionSlice) :
  plainSlice m -> sliceDecodesTo (encodeSlice m) emptySlice m.
Proof.
  intros [[cs [Hcs Hall]] [Hv Hu]].
  destruct m as [ns sid chunks ver u]. cbn in Hcs, Hv, Hu. subst chunks u.
  unfold encodeSlice, int64 in *.
  cbn [Namespace SessionID Chunks Version XXX_unrecognized].
  change (optRaw []) with (@nil Z). rewrite app_nil_r.
  apply sliceDecodesTo_optBytes with (name := "Namespace") (set := setNamespace);
    [exact slice_tag_Namespace | reflexivity |].
  apply sliceDecodesTo_optBytes with (name := "SessionID") (set := setSessionID);
    [exact slice_tag_SessionID | reflexivity |].
  apply sliceDecodesTo_chunks; [exact Hall|].
  rewrite appendChunks_fields.
  cbn [setNamespace setSessionID emptySlice Namespace SessionID Chunks Version
       XXX_unrecognized app].
  rewrite <- (app_nil_r (optVarint 32 ver)).
  apply sliceDecodesTo_optVarint with (name := "Version") (set := setVersion);
    [exact slice_tag_Version | exact Hv | reflexivity |].
  apply sliceDecodesTo_nil.
Qed.

(** X6: a slice without nil chunks is marshalled without a panic into
    exactly [Size] bytes. *)
Theorem Slice_Marshal_returns_Size_bytes (m : SessionSlice) :
  noNilChunk m ->
  exists bytes, Slice_Marshal m = Ret bytes /\ len bytes = Slice_Size m.
Proof.
  intros Hn. exists (encodeSlice m). split.
  - apply Slice_Marshal_encodeSlice. exact Hn.
  - symmetry. apply Slice_Size_encodeSlice.
Qed.

(** X7: [Unmarshal] of what [Marshal] returned for a plain slice, into a
    fresh slice, gives the slice back, its chunks included and in order. *)
Theorem Slice_Unmarshal_Marshal (m : SessionSlice) :
  plainSlice m -> Slice_Size m < 2 ^ 63 ->
  exists bytes,
    Slice_Marshal m = Ret bytes /\ Slice_Unmarshal emptySlice bytes = inr m.
Proof.
  intros Hp Hsize. exists (encodeSlice m). split.
  - apply Slice_Marshal_encodeSlice. apply plainSlice_noNilChunk. exact Hp.
  - unfold Slice_Unmarshal. apply encodeSlice_decodes; [exact Hp | lia | | apply Nat.le_refl].
    rewrite <- Slice_Size_encodeSlice. lia.
Qed.

(** A recorded session with two chunks, the second one empty. *)
Definition printSlice : SessionSlice :=
  mkSessionSlice [100; 101; 102] [115; 49] [Some printChunk; Some emptyChunk] 2 [].

Lemma plainSlice_printSlice : plainSlice printSlice.
Proof.
  split; [|split; [unfold int64; cbn; lia | reflexivity]].
  exists [printChunk; emptyChunk]. split; [reflexivity|].
  repeat constructor; try exact chunkInRange_printChunk;
    unfold chunkInRange, int64; cbn; lia.
Qed.

Lemma Slice_Marshal_returns_Size_bytes_witness :
  noNilChunk printSlice
  /\ exists bytes, Slice_Marshal printSlice = Ret bytes /\ len bytes = Slice_Size printSlice.
Proof.
  assert (H : noNilChunk printSlice)
    by (exists [printChunk; emptyChunk]; reflexivity).
  split; [exact H | apply (Slice_Marshal_returns_Size_bytes printSlice H)].
Defined.

Lemma Slice_Unmarshal_Marshal_witness :
  plainSlice printSlice /\ Slice_Size printSlice < 2 ^ 63
  /\ exists bytes,
       Slice_Marshal printSlice = Ret bytes
       /\ Slice_Unmarshal emptySlice bytes = inr printSlice.
Proof.
  split; [exact plainSlice_printSlice|].
  split; [vm_compute; reflexivity|].
  apply (Slice_Unmarshal_Marshal printSlice);
    [exact plainSlice_printSlice | vm_compute; reflexivity].
Defined.

(** ** A nil chunk *)








(** ** A chunk cut short *)

(** Whatever message the loop of [SessionChunk.Unmarshal] holds and
    wherever [bytes] starts in the input, the loop fails on [bytes] with
    [io.ErrUnexpectedEOF]. *)
Definition cutShort (bytes : list Z) : Prop :=
  forall (m : SessionChunk) (i : Z) (fuel : nat),
    0 <= i -> i + len bytes + 1 < 2 ^ 63 -> (List.length bytes <= fuel)%nat ->
    chunkLoop fuel m (i, bytes) = inl ErrUnexpectedEOF.

Lemma readVarint_cut (fuel : nat) (v : Z) (i shift acc : Z) :
  0 <= v < 2 ^ (7 * (Z.of_nat fuel + 1)) ->
  0 <= shift -> shift + 7 * Z.of_nat fuel < 64 ->
  readVarint (removelast (varintBytes fuel v)) i shift acc = inl ErrUnexpectedEOF.
Proof.
  revert v i shift acc.
  assert (Hempty : forall i shift acc, shift < 64 ->
            readVarint [] i shift acc = inl ErrUnexpectedEOF).
  { intros i shift acc Hs. cbn [readVarint].
    destruct (64 <=? shift) eqn:C; [apply Z.leb_le in C; lia | reflexivity]. }
  induction fuel as [|fuel IH]; intros v i shift acc Hv Hs Hsum.
  - cbn [varintBytes removelast]. apply Hempty. lia.
  - cbn [varintBytes]. destruct (128 <=? v) eqn:C.
    + apply Z.leb_le in C.
      destruct (low7_lor128 v) as [Hb Hland]; [lia|].
      assert (E : u8 (Z.lor (Z.land v 127) 128) = Z.lor (Z.land v 127) 128)
        by (unfold u8; apply Z.mod_small; lia).
      rewrite E.
      pose proof (varintBytes_nonempty fuel (Z.shiftr v 7)) as Hne.
      destruct (varintBytes fuel (Z.shiftr v 7)) as [|x xs] eqn:Ev; [contradiction|].
      change (removelast (Z.lor (Z.land v 127) 128 :: x :: xs))
        with (Z.lor (Z.land v 127) 128 :: removelast (x :: xs)).
      cbn [readVarint].
      destruct (64 <=? shift) eqn:C1; [apply Z.leb_le in C1; lia|].
      destruct (Z.lor (Z.land v 127) 128 <? 128) eqn:C2; [apply Z.ltb_lt in C2; lia|].
      rewrite <- Ev. apply IH.
      * apply shiftr7_lt; [lia|].
        replace (Z.of_nat fuel + 1 + 1) with (Z.of_nat (S fuel) + 1) by lia. exact Hv.
      * lia.
      * lia.
    + cbn [removelast]. apply Hempty. lia.
Qed.

Lemma removelast_encVarint (tag v : Z) :
  removelast (encVarint tag v) = tag :: removelast (varint (u64 v)).
Proof.
  unfold encVarint, varint.
  pose proof (varintBytes_nonempty 9 (u64 v)) as Hne.
  destruct (varintBytes 9 (u64 v)); [contradiction | reflexivity].
Qed.

Lemma removelast_encBytes (tag : Z) (b : list Z) :
  b <> [] ->
  removelast (encBytes tag b) = tag :: varint (u64 (len b)) ++ removelast b.
Proof.
  intros Hb. unfold encBytes.
  rewrite <- (removelast_app (varint (u64 (len b))) Hb).
  destruct (varint (u64 (len b)) ++ b) eqn:E; [|reflexivity].
  apply app_eq_nil in E. destruct E as [_ E]. contradiction.
Qed.

Lemma len_removelast (l : list Z) : l <> [] -> len (removelast l) = len l - 1.
Proof.
  intros Hl. destruct (exists_last Hl) as [l' [x E]]. subst l.
  rewrite removelast_last, len_app, len_cons, len_nil. lia.
Qed.

Lemma cutShort_varint (tag : Z) (name : string)
    (set : SessionChunk -> Z -> SessionChunk) (v : Z) :
  (forall m i r, chunkField m (i, tag :: r) = chunkVarint 0 name (i + 1, r) (set m)) ->
  cutShort (removelast (encVarint tag v)).
Proof.
  intros Htag m i fuel Hi Hfit Hfuel. rewrite removelast_encVarint in *.
  destruct fuel as [|fuel]; [cbn [List.length] in Hfuel; lia|].
  cbn [chunkLoop snd]. rewrite Htag. unfold chunkVarint. cbn [negb Z.eqb fst snd].
  unfold varint. rewrite readVarint_cut; [reflexivity| | lia | simpl; lia].
  pose proof (u64_range v) as Hu. unfold two64 in Hu. simpl. lia.
Qed.

Lemma cutShort_bytes (tag : Z) (name : string)
    (set : SessionChunk -> list Z -> SessionChunk) (b : list Z) :
  (forall m i r, chunkField m (i, tag :: r) = chunkBytes 2 name (i + 1, r) (set m)) ->
  b <> [] ->
  cutShort (removelast (encBytes tag b)).
Proof.
  intros Htag Hb m i fuel Hi Hfit Hfuel.
  rewrite (removelast_encBytes tag b Hb) in *.
  rewrite len_cons, len_app, len_varint in Hfit by apply u64_range.
  rewrite (len_removelast b Hb) in Hfit.
  pose proof (sovSlice_bounds (u64 (len b)) (u64_range _)) as Hs.
  pose proof (len_nonneg b) as Hlb.
  assert (Eu : u64 (len b) = len b) by (apply u64_small; unfold two64; lia).
  destruct fuel as [|fuel]; [cbn [List.length] in Hfuel; lia|].
  cbn [chunkLoop snd]. rewrite Htag. unfold chunkBytes, readBytes.
  cbn [negb Z.eqb Pos.eqb fst snd].
  rewrite readVarint_varint by apply u64_range. cbn [fst snd].
  rewrite Eu in *. rewrite i64_small by lia.
  destruct (len b <? 0) eqn:C; [apply Z.ltb_lt in C; lia|].
  rewrite i64_small by lia.
  destruct (i + 1 + sovSlice (len b) + len b <? 0) eqn:C1; [apply Z.ltb_lt in C1; lia|].
  rewrite (len_removelast b Hb).
  destruct (i + 1 + sovSlice (len b) + (len b - 1) <? i + 1 + sovSlice (len b) + len b)
    eqn:C2; [reflexivity | apply Z.ltb_ge in C2; lia].
Qed.

Lemma cutShort_after_varint (tag : Z) (name : string)
    (set : SessionChunk -> Z -> SessionChunk) (v : Z) (rest : list Z) :
  (forall m i r, chunkField m (i, tag :: r) = chunkVarint 0 name (i + 1, r) (set m)) ->
  cutShort rest -> cutShort (encVarint tag v ++ rest).
Proof.
  intros Htag Hrest m i fuel Hi Hfit Hfuel.
  unfold encVarint in *. rewrite <- app_comm_cons in *.
  rewrite len_cons, len_app in Hfit. rewrite len_varint in Hfit by apply u64_range.
  pose proof (sovSlice_bounds (u64 v) (u64_range _)) as Hs.
  pose proof (len_nonneg rest) as Hr.
  destruct fuel as [|fuel]; [cbn [List.length] in Hfuel; lia|].
  cbn [chunkLoop snd]. rewrite Htag. unfold chunkVarint. cbn [negb Z.eqb fst snd].
  rewrite readVarint_varint by apply u64_range.
  apply Hrest; [lia | lia |].
  cbn [List.length] in Hfuel. rewrite length_app in Hfuel. lia.
Qed.

Lemma cutShort_after_bytes (tag : Z) (name : string)
    (set : SessionChunk -> list Z -> SessionChunk) (b rest : list Z) :
  (forall m i r, chunkField m (i, tag :: r) = chunkBytes 2 name (i + 1, r) (set m)) ->
  cutShort rest -> cutShort (encBytes tag b ++ rest).
Proof.
  intros Htag Hrest m i fuel Hi Hfit Hfuel.
  unfold encBytes in *. rewrite <- app_comm_cons in *. rewrite <- app_assoc in *.
  rewrite len_cons, !len_app in Hfit. rewrite len_varint in Hfit by apply u64_range.
  pose proof (sovSlice_bounds (u64 (len b)) (u64_range _)) as Hs.
  pose proof (len_nonneg rest) as Hr.
  pose proof (len_nonneg b) as Hb.
  destruct fuel as [|fuel]; [cbn [List.length] in Hfuel; lia|].
  cbn [chunkLoop snd]. rewrite Htag. unfold chunkBytes.
  cbn [negb Z.eqb Pos.eqb fst snd].
  rewrite readBytes_encoded by lia.
  apply Hrest; [lia | lia |].
  cbn [List.length] in Hfuel. rewrite !length_app in Hfuel. lia.
Qed.

(** A field followed by more fields: the cut is in the last one that is
    present. *)
Lemma cutShort_optVarint (tag : Z) (name : string)
    (set : SessionChunk -> Z -> SessionChunk) (v : Z) (rest : list Z) :
  (forall m i r, chunkField m (i, tag :: r) = chunkVarint 0 name (i + 1, r) (set m)) ->
  (rest <> [] -> cutShort (removelast rest)) ->
  optVarint tag v ++ rest <> [] ->
  cutShort (removelast (optVarint tag v ++ rest)).
Proof.
  intros Htag Hrest Hne. unfold optVarint in *.
  destruct (negb (v =? 0)).
  - destruct rest as [|x rest'].
    + rewrite app_nil_r. apply (cutShort_varint tag name set). exact Htag.
    + rewrite removelast_app by discriminate.
      apply (cutShort_after_varint tag name set); [exact Htag|].
      apply Hrest. discriminate.
  - cbn [app] in *. apply Hrest. exact Hne.
Qed.

Lemma cutShort_optBytes (tag : Z) (name : string)
    (set : SessionChunk -> list Z -> SessionChunk) (b rest : list Z) :
  (forall m i r, chunkField m (i, tag :: r) = chunkBytes 2 name (i + 1, r) (set m)) ->
  (rest <> [] -> cutShort (removelast rest)) ->
  optBytes tag b ++ rest <> [] ->
  cutShort (removelast (optBytes tag b ++ rest)).
Proof.
  intros Htag Hrest Hne. unfold optBytes in *.
  destruct (0 <? len b) eqn:C.
  - assert (Hb : b <> []).
    { intros E. subst b. cbv in C. discriminate C. }
    destruct rest as [|x rest'].
    + rewrite app_nil_r. apply (cutShort_bytes tag name set); assumption.
    + rewrite removelast_app by discriminate.
      apply (cutShort_after_bytes tag name set); [exact Htag|].
      apply Hrest. discriminate.
  - cbn [app] in *. apply Hrest. exact Hne.
Qed.

Lemma encodeChunk_cutShort (m : SessionChunk) :
  Chunk_unrecognized m = [] -> encodeChunk m <> [] ->
  cutShort (removelast (encodeChunk m)).
Proof.
  intros Hu. unfold encodeChunk. rewrite Hu.
  change (optRaw []) with (@nil Z). rewrite app_nil_r.
  apply cutShort_optVarint with (name := "Time") (set := setTime); [exact tag_Time|].
  apply cutShort_optBytes with (name := "Data") (set := setData); [exact tag_Data|].
  apply cutShort_optBytes with (name := "EventType") (set := setEventType);
    [exact tag_EventType|].
  apply cutShort_optVarint with (name := "EventIndex") (set := setEventIndex);
    [exact tag_EventIndex|].
  apply cutShort_optVarint with (name := "ChunkIndex") (set := setChunkIndex);
    [exact tag_ChunkIndex|].
  apply cutShort_optVarint with (name := "Offset") (set := setOffset); [exact tag_Offset|].
  intros Hne. rewrite <- (app_nil_r (optVarint 64 (Delay m))).
  apply cutShort_optVarint with (name := "Delay") (set := setDelay); [exact tag_Delay | |].
  - intros H. contradiction.
  - rewrite app_nil_r. exact Hne.
Qed.

(** X29: a chunk that lost its last byte is never read as a chunk: for
    every chunk without unrecognized bytes that marshals to at least one
    byte, [Unmarshal] of the marshalled bytes without the last one fails
    with [io.ErrUnexpectedEOF]. *)
Theorem Chunk_Unmarshal_rejects_cut_chunk (m : SessionChunk) :
  Chunk_unrecognized m = [] -> 0 < Chunk_Size m < 2 ^ 63 ->
  exists bytes,
    Chunk_Marshal m = Ret bytes /\
    Chunk_Unmarshal emptyChunk (removelast bytes) = inl ErrUnexpectedEOF.
Proof.
  intros Hu Hsize. exists (encodeChunk m). split; [apply Chunk_Marshal_encodeChunk|].
  rewrite Chunk_Size_encodeChunk in Hsize.
  assert (Hne : encodeChunk m <> []).
  { intros E. rewrite E in Hsize. change (len (@nil Z)) with 0 in Hsize. lia. }
  unfold Chunk_Unmarshal. apply encodeChunk_cutShort; try assumption.
  - lia.
  - rewrite (len_removelast _ Hne). lia.
  - apply Nat.le_refl.
Qed.

Lemma Chunk_Unmarshal_rejects_cut_chunk_witness :
  exists bytes,
    Chunk_Marshal printChunk = Ret bytes /\
    Chunk_Unmarshal emptyChunk (removelast bytes) = inl ErrUnexpectedEOF.
Proof.
  apply (Chunk_Unmarshal_rejects_cut_chunk printChunk);
    [reflexivity | split; vm_compute; reflexivity].
Defined.
End Slice.

(* ===================================================================== *)
(** * api/types/provisioning.go: what validation leaves behind, and the
      conversions between the two versions of a token                      *)
(* ===================================================================== *)

Module Tokens.

Import Types.

(** [ProvisionTokenV1]; [Expires] is a [time.Time]. *)
Record ProvisionTokenV1 (Time : Type) : Type := mkTokenV1 {
  V1_Roles : list SystemRole;
  V1_Expires : Time;
  V1_Token : string
}.
Arguments mkTokenV1 {Time}.
Arguments V1_Roles {Time}.
Arguments V1_Expires {Time}.
Arguments V1_Token {Time}.

Section Conversions.

Variable Metadata_CheckAndSetDefaults : Metadata -> Metadata * option Error.
Variable SystemRoles_Check : list SystemRole -> option Error.

(** [time.Time] with [IsZero], the methods [Expiry] and [SetExpiry] of
    [Metadata] and the constant [defaults.Namespace] come from files
    outside this development. *)
Variable Time : Type.
Variable IsZero : Time -> bool.
Variable Metadata_Expiry : Metadata -> Time.
Variable Metadata_SetExpiry : Metadata -> Time -> Metadata.
Variable defaults_Namespace : string.

Definition validate (p : ProvisionTokenV2) : ProvisionTokenV2 * option Error :=
  CheckAndSetDefaults Metadata_CheckAndSetDefaults SystemRoles_Check p.

(** [ProvisionTokenV2.SetExpiry]. *)
Definition SetExpiry (p : ProvisionTokenV2) (expires : Time) : ProvisionTokenV2 :=
  withMetadata p (Metadata_SetExpiry (Meta p) expires).

(** [ProvisionTokenV2.V1]. *)
Definition V2_V1 (p : ProvisionTokenV2) : ProvisionTokenV1 Time :=
  mkTokenV1 (Roles (Spec p)) (Metadata_Expiry (Meta p)) (Name (Meta p)).

(** [ProvisionTokenV1.V2]: the error of [CheckAndSetDefaults] is dropped. *)
Definition V1_V2 (p : ProvisionTokenV1 Time) : ProvisionTokenV2 :=
  let t := mkToken KindToken "" V2
             (mkMetadata (V1_Token p) defaults_Namespace "" [] None 0%Z)
             (mkSpec (V1_Roles p) [] 0%Z JoinMethodUnspecified) in
  let t := if negb (IsZero (V1_Expires p)) then SetExpiry t (V1_Expires p) else t in
  fst (validate t).

(** [ProvisionTokensToV1] and [ProvisionTokensFromV1]; a nil slice is an
    empty list. *)
Definition ProvisionTokensToV1 (l : list ProvisionTokenV2) : list (ProvisionTokenV1 Time) :=
  map V2_V1 l.

Definition ProvisionTokensFromV1 (l : list (ProvisionTokenV1 Time)) : list ProvisionTokenV2 :=
  map V1_V2 l.

(** [NewProvisionTokenFromSpec] and [NewProvisionToken]. *)
Definition NewProvisionTokenFromSpec (token : string) (expires : Z)
    (spec : ProvisionTokenSpecV2) : result ProvisionTokenV2 :=
  let t := mkToken "" "" "" (mkMetadata token "" "" [] (Some expires) 0%Z) spec in
  match validate t with
  | (_, Some err) => Err (Wrap err)
  | (t, None) => Ok t
  end.

Definition NewProvisionToken (token : string) (roles : list SystemRole) (expires : Z)
  : result ProvisionTokenV2 :=
  NewProvisionTokenFromSpec token expires (mkSpec roles [] 0%Z JoinMethodUnspecified).

(** The metadata check and the role check went through. *)
Definition headerAccepted (p : ProvisionTokenV2) : Prop :=
  snd (Metadata_CheckAndSetDefaults (Meta p)) = None /\
  Roles (Spec p) <> [] /\
  SystemRoles_Check (Roles (Spec p)) = None.

Local Arguments checkEC2Rules : simpl never.
Local Arguments checkIAMRules : simpl never.

Lemma validate_keeps_spec (p : ProvisionTokenV2) :
  Kind (fst (validate p)) = KindToken /\ Version (fst (validate p)) = V2 /\
  Roles (Spec (fst (validate p))) = Roles (Spec p) /\
  Allow (Spec (fst (validate p))) = Allow (Spec p).
Proof.
  destruct p as [k sk v m [roles allow ttl jm]].
  unfold validate, CheckAndSetDefaults; simpl.
  destruct (Metadata_CheckAndSetDefaults m) as [m' [merr|]]; simpl; [repeat split|].
  destruct roles as [|r roles]; simpl; [repeat split|].
  destruct (SystemRoles_Check (r :: roles)); simpl; [repeat split|].
  destruct (jm =? JoinMethodUnspecified); simpl.
  - destruct allow as [|a allow]; simpl; [repeat split|].
    destruct (checkEC2Rules (a :: allow)); simpl; [|destruct (Z.eqb ttl 0); simpl];
      repeat split.
  - destruct (jm =? JoinMethodToken); [destruct allow; simpl; repeat split|].
    destruct (jm =? JoinMethodEC2).
    { destruct allow as [|a allow]; simpl; [repeat split|].
      destruct (checkEC2Rules (a :: allow)); simpl; [|destruct (Z.eqb ttl 0); simpl];
        repeat split. }
    destruct (jm =? JoinMethodIAM).
    { destruct allow as [|a allow]; simpl; [repeat split|].
      destruct (checkIAMRules (a :: allow)); simpl; repeat split. }
    repeat split.
Qed.

(** X9: whatever [CheckAndSetDefaults] answers, it leaves the kind and the
    version stamped and the sub-kind, the roles and the allow rules as they
    were; and once the metadata and the roles are accepted the join method
    is stored with its default filled in even when the call then fails, so a
    rejected token can come back changed. *)
Theorem CheckAndSetDefaults_leaves_behind (p : ProvisionTokenV2) :
  let p' := fst (validate p) in
  (Kind p' = KindToken /\ Version p' = V2 /\ SubKind p' = SubKind p /\
   Roles (Spec p') = Roles (Spec p) /\ Allow (Spec p') = Allow (Spec p)) /\
  (headerAccepted p -> JoinMethod_ (Spec p') = effectiveJoinMethod p).
Proof.
  destruct p as [k sk v m [roles allow ttl jm]].
  unfold validate, headerAccepted, CheckAndSetDefaults, effectiveJoinMethod; simpl.
  destruct (Metadata_CheckAndSetDefaults m) as [m' [merr|]] eqn:HM; simpl.
  { split; [repeat split | intros [H _]; discriminate H]. }
  destruct roles as [|r roles]; simpl.
  { split; [repeat split | intros (_ & H & _); contradiction]. }
  destruct (SystemRoles_Check (r :: roles)) as [rerr|] eqn:HR; simpl.
  { split; [repeat split | intros (_ & _ & H); discriminate H]. }
  destruct (jm =? JoinMethodUnspecified) eqn:Hjm; simpl.
  - destruct allow as [|a allow]; simpl.
    + split; [repeat split | reflexivity].
    + destruct (checkEC2Rules (a :: allow)); simpl;
        [|destruct (Z.eqb ttl 0); simpl]; (split; [repeat split | reflexivity]).
  - destruct (jm =? JoinMethodToken) eqn:Htok.
    { destruct allow; simpl; (split; [repeat split | reflexivity]). }
    destruct (jm =? JoinMethodEC2) eqn:Hec2.
    { destruct allow as [|a allow]; simpl; [split; [repeat split | reflexivity]|].
      destruct (checkEC2Rules (a :: allow)); simpl;
        [|destruct (Z.eqb ttl 0); simpl]; (split; [repeat split | reflexivity]). }
    destruct (jm =? JoinMethodIAM) eqn:Hiam.
    { destruct allow as [|a allow]; simpl; [split; [repeat split | reflexivity]|].
      destruct (checkIAMRules (a :: allow)); simpl; (split; [repeat split | reflexivity]). }
    split; [repeat split | reflexivity].
Qed.

(* the second call, on the token the first one returned *)
Local Ltac rerun HM HR :=
  unfold validate, CheckAndSetDefaults; simpl; rewrite HM; simpl; rewrite HR; simpl.

(** X10: validation is idempotent: when the metadata validate accepts its own
    output unchanged, a token that [CheckAndSetDefaults] accepted is
    accepted again and not modified by a second call. *)
Theorem CheckAndSetDefaults_idempotent (p p' : ProvisionTokenV2) :
  (forall m m', Metadata_CheckAndSetDefaults m = (m', None) ->
                Metadata_CheckAndSetDefaults m' = (m', None)) ->
  validate p = (p', None) ->
  validate p' = (p', None).
Proof.
  intros Hidem.
  destruct p as [k sk v m [roles allow ttl jm]].
  unfold validate at 1. unfold CheckAndSetDefaults; simpl.
  destruct (Metadata_CheckAndSetDefaults m) as [m' [merr|]] eqn:HM; simpl.
  { intros H; discriminate H. }
  apply Hidem in HM.
  destruct roles as [|r roles]; simpl.
  { intros H; discriminate H. }
  destruct (SystemRoles_Check (r :: roles)) as [rerr|] eqn:HR; simpl.
  { intros H; discriminate H. }
  destruct (jm =? JoinMethodUnspecified) eqn:Hjm; simpl.
  - destruct allow as [|a allow]; simpl.
    + intros H. injection H as H. subst p'. rerun HM HR. reflexivity.
    + destruct (checkEC2Rules (a :: allow)) as [e|] eqn:HE; simpl;
        [intros H; discriminate H|].
      destruct (Z.eqb ttl 0) eqn:Httl; simpl; intros H; injection H as H; subst p';
        rerun HM HR; rewrite HE; simpl; [reflexivity|].
      rewrite Httl. reflexivity.
  - destruct (jm =? JoinMethodToken) eqn:Htok.
    { apply String.eqb_eq in Htok. subst jm.
      destruct allow; simpl; intros H; [|discriminate H].
      injection H as H. subst p'. rerun HM HR. reflexivity. }
    destruct (jm =? JoinMethodEC2) eqn:Hec2.
    { destruct allow as [|a allow]; simpl; [intros H; discriminate H|].
      destruct (checkEC2Rules (a :: allow)) as [e|] eqn:HE; simpl;
        [intros H; discriminate H|].
      apply String.eqb_eq in Hec2. subst jm.
      destruct (Z.eqb ttl 0) eqn:Httl; simpl; intros H; injection H as H; subst p';
        rerun HM HR; rewrite HE; simpl; [reflexivity|].
      rewrite Httl. reflexivity. }
    destruct (jm =? JoinMethodIAM) eqn:Hiam.
    { destruct allow as [|a allow]; simpl; [intros H; discriminate H|].
      destruct (checkIAMRules (a :: allow)) as [e|] eqn:HE; simpl;
        [intros H; discriminate H|].
      apply String.eqb_eq in Hiam. subst jm.
      intros H; injection H as H; subst p'.
      rerun HM HR. rewrite HE. reflexivity. }
    intros H; discriminate H.
Qed.

(** X11: a token taken to version 1 and back has lost its allow rules and
    is never an ec2 or iam token: its join method is the token method when
    the metadata and the roles are accepted, and is left unset otherwise;
    the roles are kept.  No error is reported in either case. *)
Theorem V1_round_trip_drops_join_method (p : ProvisionTokenV2) :
  let q := V1_V2 (V2_V1 p) in
  Roles (Spec q) = Roles (Spec p) /\
  Allow (Spec q) = [] /\
  (JoinMethod_ (Spec q) = JoinMethodToken \/ JoinMethod_ (Spec q) = JoinMethodUnspecified) /\
  Kind q = KindToken /\ Version q = V2.
Proof.
  unfold V1_V2, V2_V1. cbn [V1_Roles V1_Expires V1_Token].
  set (t := if negb (IsZero (Metadata_Expiry (Meta p))) then _ else _).
  assert (Ht : Spec t = mkSpec (Roles (Spec p)) [] 0%Z JoinMethodUnspecified)
    by (unfold t; destruct (negb _); reflexivity).
  destruct (validate_keeps_spec t) as (Hk & Hv & Hr & Ha).
  rewrite Hr, Ha, Ht. cbn [Roles Allow].
  repeat split; try assumption.
  destruct t as [k sk v m [roles allow ttl jm]]. cbn in Ht. injection Ht as -> -> -> ->.
  unfold validate, CheckAndSetDefaults; simpl.
  destruct (Metadata_CheckAndSetDefaults m) as [m' [merr|]]; simpl; [right; reflexivity|].
  destruct (Roles (Spec p)) as [|r roles]; simpl; [right; reflexivity|].
  destruct (SystemRoles_Check (r :: roles)); simpl; [right | left]; reflexivity.
Qed.

(** X12: [NewProvisionToken] can only fail on the name or the roles, never
    on the join method: a token it returns uses the token method, has no
    allow rule and carries the roles given, and it returns an error only
    when the metadata or the roles are rejected. *)
Theorem NewProvisionToken_token_method (token : string) (roles : list SystemRole)
    (expires : Z) :
  match NewProvisionToken token roles expires with
  | Ok t =>
    JoinMethod_ (Spec t) = JoinMethodToken /\ Allow (Spec t) = [] /\
    Roles (Spec t) = roles /\ roles <> [] /\ Kind t = KindToken /\ Version t = V2
  | Err _ =>
    ~ headerAccepted
        (mkToken "" "" "" (mkMetadata token "" "" [] (Some expires) 0%Z)
           (mkSpec roles [] 0%Z JoinMethodUnspecified))
  end.
Proof.
  unfold NewProvisionToken, NewProvisionTokenFromSpec, validate, headerAccepted,
    CheckAndSetDefaults; simpl.
  destruct (Metadata_CheckAndSetDefaults _) as [m' [merr|]]; simpl.
  { intros [H _]; discriminate H. }
  destruct roles as [|r roles]; simpl.
  { intros (_ & H & _); contradiction. }
  destruct (SystemRoles_Check (r :: roles)) as [rerr|]; simpl.
  { intros (_ & _ & H); discriminate H. }
  repeat split. discriminate.
Qed.

End Conversions.

Lemma metadataNeedsName_idempotent (m m' : Metadata) :
  metadataNeedsName m = (m', None) -> metadataNeedsName m' = (m', None).
Proof.
  unfold metadataNeedsName.
  destruct (Name m =? "") eqn:Hn; [intros H; discriminate H|].
  intros H. injection H as H. subst m'. cbn [Name Namespace Description Labels Expires ID].
  rewrite Hn.
  destruct (Namespace m =? "") eqn:Hs; [reflexivity|].
  rewrite Hs. reflexivity.
Qed.

(** The token of the older kind comes out of a first validation as an ec2
    token; a second validation accepts it as it is. *)
Lemma CheckAndSetDefaults_idempotent_witness :
  validate metadataNeedsName rolesAreKnown legacyEC2Token
    = (fst (validate metadataNeedsName rolesAreKnown legacyEC2Token), None)
  /\ validate metadataNeedsName rolesAreKnown
       (fst (validate metadataNeedsName rolesAreKnown legacyEC2Token))
     = (fst (validate metadataNeedsName rolesAreKnown legacyEC2Token), None).
Proof.
  split; [vm_compute; reflexivity|].
  apply (CheckAndSetDefaults_idempotent metadataNeedsName rolesAreKnown legacyEC2Token);
    [exact metadataNeedsName_idempotent | vm_compute; reflexivity].
Defined.
End Tokens.

(* ===================================================================== *)
(** * lib/srv/regular/sshserver.go: how connections and channels are
      answered                                                             *)
(* ===================================================================== *)

Module Admission.

Import Regular.

Section Answers.

Variable K : Constants.
Variable env : Env.


(** The audit events emitted, in program order. *)
Definition audited (es : list Effect) : list SessionReject :=
  flat_map (fun e => match e with
                     | EmitAuditEvent ev => [ev]
                     | _ => []
                     end) es.

Local Ltac branches :=
  repeat match goal with
         | |- context [match ?x with _ => _ end] => destruct x eqn:?
         end.

Local Ltac absent :=
  let H := fresh in
  intros H; simpl in H;
  repeat (destruct H as [H | H]; [discriminate H|]); exact H.

Local Ltac present := simpl; repeat (first [left; reflexivity | right]).


(** X14: the count of session channels of the connection goes up, by one,
    exactly when [HandleNewChan] starts a session handler that gives the
    slot back when it ends; in every other case, a failed accept after the
    slot was taken included, the count is what it was. *)
Theorem HandleNewChan_session_accounting
    (s : Server) (ccx : ConnectionContext) (nch : NewChannel) :
  let ccx' := fst (HandleNewChan K env s ccx nch) in
  let es := snd (HandleNewChan K env s ccx nch) in
  (In (Go (HandleSessionRequests true)) es -> sessions ccx' = (sessions ccx + 1)%Z) /\
  (~ In (Go (HandleSessionRequests true)) es -> sessions ccx' = sessions ccx) /\
  ServerConn_LocalAddr ccx' = ServerConn_LocalAddr ccx /\
  ServerConn_RemoteAddr ccx' = ServerConn_RemoteAddr ccx.
Proof.
  unfold HandleNewChan, acceptSession, acceptFailed, handleTracingChannel,
    rejectChannel, emitSessionReject, IncrSessions, decr.
  branches;
    repeat match goal with
           | H : (if ?c then _ else _) = (_, _) |- _ =>
             destruct c eqn:?; inversion H; subst; clear H
           end;
    try discriminate;
    cbn [snd fst app sessions ServerConn_LocalAddr ServerConn_RemoteAddr];
    (split; [|split; [|split; reflexivity]]);
    try (intros _; lia);
    try (intros H; exfalso; revert H; absent);
    try (intros H; exfalso; apply H; present).
Qed.

(** X15: a lock in force refuses the connection in every mode: the error
    of the lock is returned, exactly one SessionReject event is emitted,
    carrying the text of the lock error as its reason, and neither a
    semaphore lease is asked for nor the lock-loss watcher started, whether
    the server is a node or a proxy and whatever the user's connection
    limit. *)
Theorem HandleNewConn_lock_in_force
    (s : Server) (ccx : ConnectionContext)
    (ic : IdentityContext) (mode : LockingMode) (targets : list LockTarget)
    (lockErr : Error) :
  preludeOK env s ccx ic mode targets ->
  CheckLockInForce env (AccessChecker_LockingMode ic mode) targets = Some lockErr ->
  fst (HandleNewConn K env s ccx) = Some (Wrap lockErr) /\
  (exists ev,
     audited (snd (HandleNewConn K env s ccx)) = [ev] /\
     Metadata_Type ev = SessionRejectedEvent K /\
     Reason ev = msg lockErr /\ UserMeta ev = GetUserMetadata ic /\
     ServerID ev = uuid s /\ Maximum ev = 0%Z) /\
  noSemaphore (snd (HandleNewConn K env s ccx)) /\
  ~ In (Go CloseConnOnLockLoss) (snd (HandleNewConn K env s ccx)) /\
  ~ In CounterInc (snd (HandleNewConn K env s ccx)).
Proof.
  intros (Hic & Hmode & Htargets) Hlock.
  unfold HandleNewConn. rewrite Hic, Hmode, Htargets, Hlock.
  unfold after, emitSessionReject, noSemaphore. cbn [fst snd app].
  split; [reflexivity|].
  split.
  - eexists.
    split; [destruct (EmitAuditEvent_err env _); reflexivity|].
    repeat split; reflexivity.
  - destruct (EmitAuditEvent_err env _);
      (split; [intros cfg; absent | split; absent]).
Qed.

End Answers.

(** A cluster in which alice is locked out. *)
Definition aliceLocked : Error := AccessDenied "lock targeting User:alice is in force".

Definition lockedCluster : Env :=
  mkEnv (fun _ => Ok alice) (Ok "best_effort") (fun _ _ => Ok ["user:alice"])
    (fun _ _ => Some aliceLocked) (Ok 30%Z) (fun _ => None)
    (fun _ => None) (fun _ => None) (fun _ => None) (fun _ => None) (fun _ => None).

Lemma HandleNewConn_lock_in_force_witness :
  fst (HandleNewConn teleportConstants lockedCluster proxyServer busyConn)
    = Some (Wrap aliceLocked) /\
  (exists ev,
     audited (snd (HandleNewConn teleportConstants lockedCluster proxyServer busyConn))
       = [ev] /\
     Metadata_Type ev = SessionRejectedEvent teleportConstants /\
     Reason ev = msg aliceLocked /\ UserMeta ev = GetUserMetadata alice /\
     ServerID ev = uuid proxyServer /\ Maximum ev = 0%Z) /\
  noSemaphore (snd (HandleNewConn teleportConstants lockedCluster proxyServer busyConn)) /\
  ~ In (Go CloseConnOnLockLoss)
       (snd (HandleNewConn teleportConstants lockedCluster proxyServer busyConn)) /\
  ~ In CounterInc
       (snd (HandleNewConn teleportConstants lockedCluster proxyServer busyConn)).
Proof.
  apply (HandleNewConn_lock_in_force teleportConstants lockedCluster proxyServer busyConn
           alice "best_effort" ["user:alice"] aliceLocked).
  - repeat split; reflexivity.
  - reflexivity.
Defined.

End Admission.

(* ===================================================================== *)
(** * lib/srv/regular/sshserver.go: requests inside a session channel      *)
(* ===================================================================== *)

Module Requests.

(** Request types and other string constants of the packages [sshutils],
    [tracessh], [teleport] and [events]. *)
Record Names : Type := mkNames {
  TracingRequest : string;
  SubsystemRequest : string;
  EnvRequest : string;
  AgentForwardRequest : string;
  PuTTYSimpleRequest : string;
  PTYRequest : string;
  ShellRequest : string;
  WindowChangeRequest : string;
  ForceTerminateRequest : string;
  ExecRequest : string;
  X11ForwardRequest : string;
  sftpSubsystem : string;
  X11ForwardEvent : string;
  X11ForwardCode : string;
  X11ForwardFailureCode : string;
  SSHAuthSock : string;
  SSHAgentPID : string;
  PortForwardEvent : string;
  PortForwardCode : string;
  RemoteCommandFailure : Z;
  KeepAliveReqType : string;
  RecordingProxyReqType : string;
  VersionRequest : string;
  TerminalSizeRequest : string;
  Version : string
}.

(** [ssh.Request]. *)
Record Request : Type := mkRequest {
  Type_ : string;
  WantReply : bool;
  Payload : string
}.

(** [srv.ServerContext], the parts read here; [RecordAtProxy] is
    [services.IsRecordAtProxy(ctx.SessionRecordingConfig.GetMode())]. *)
Record ServerContext : Type := mkServerContext {
  JoinOnly : bool;
  Identity_Login : string;
  Identity_TeleportUser : string;
  Identity_Impersonator : string;
  ServerConn_LocalAddr : string;
  ServerConn_RemoteAddr : string;
  RecordAtProxy : bool;
  Identity_GetUserMetadata : Regular.UserMetadata;
  SrcAddr : string;
  DstAddr : string
}.

(** [scx.SrcAddr = src; scx.DstAddr = dst]. *)
Definition withAddrs (scx : ServerContext) (src dst : string) : ServerContext :=
  mkServerContext (JoinOnly scx) (Identity_Login scx) (Identity_TeleportUser scx)
    (Identity_Impersonator scx) (ServerConn_LocalAddr scx) (ServerConn_RemoteAddr scx)
    (RecordAtProxy scx) (Identity_GetUserMetadata scx) src dst.

(** [sshutils.DirectTCPIPReq]. *)
Record DirectTCPIPReq : Type := mkDirectTCPIPReq {
  Host : string;
  Port : Z;
  Orig : string;
  OrigPort : Z
}.

(** [x11.ServerConfig]. *)
Record X11Config : Type := mkX11Config {
  Enabled : bool;
  DisplayOffset : Z;
  MaxDisplay : Z
}.

(** The fields of [Server] read here. *)
Record Server : Type := mkServer {
  core : Regular.Server;
  x11 : X11Config;
  allowTCPForwarding : bool
}.

Definition proxyMode (s : Server) : bool := Regular.proxyMode (core s).

(** [apievents.X11Forward]. *)
Record X11Forward : Type := mkX11Forward {
  Metadata_Type : string;
  Metadata_Code : string;
  UserMeta : Regular.UserMetadata;
  LocalAddr : string;
  RemoteAddr : string;
  Status_Success : bool;
  Status_Error : string
}.

(** [apievents.PortForward]. *)
Record PortForward : Type := mkPortForward {
  PF_Type : string;
  PF_Code : string;
  PF_UserMeta : Regular.UserMetadata;
  PF_LocalAddr : string;
  PF_RemoteAddr : string;
  PF_Addr : string;
  PF_Success : bool
}.

(** The methods of [s.termHandlers]. *)
Inductive TermCall : Type :=
| HandleExec
| HandlePTYReq
| HandleShell
| HandleWinChange
| HandleForceTerminate.

(** The subsystems [parseSubsystemRequest] can return. *)
Inductive Subsystem : Type :=
| ProxySubsys (name : string)
| ProxySitesSubsys (name : string)
| SFTPSubsys
| ProxyJumpSubsys (host port : string).

(** What is registered with [AddCloser]. *)
Inductive Closer : Type :=
| AgentServer
| Channel.

(** What the [select] of the session loop receives, in the order in which
    it receives it; a nil request means that the client went away. *)
Inductive Incoming : Type :=
| SubsystemResult
| IncomingRequest (req : option Request)
| ExecResult (code : Z)
| ContextDone.

(** What a handler does to the outside, in program order.  Debug
    messages are left out, and a warning that prints a whole request or its
    type keeps only its fixed text. *)
Inductive Effect : Type :=
| CallTermHandler (h : TermCall) (req : Request)
| SetForwardAgent
| ListenUnixSocket_ (socketDir socketName systemUser : string)
| ParentSetEnv (name value : string)
| AddCloser (c : Closer)
| GoServeAgent
| SetEnv (name value : string)
| CtxError (m : string)
| CtxWarn (m : string)
| LogWarn (m : string)
| LogError (m : string)
| WriteStderr (m : string)
| Reply (ok : bool) (payload : string)
| EmitAuditEvent (ev : X11Forward)
| OpenXServerListener_ (x11Req : string) (displayOffset maxDisplay : Z)
| SubsystemStart (sb : Subsystem)
| SendSubsystemResult (err : Error)
| GoWaitSubsystem (sb : Subsystem)
| TrackActivity
| GoKeepAliveLoop
| ChannelClose
| ScxClose
| SendExitStatus (code : Z)
| CtxInfo (m : string)
| CmdStart
| GoCopy
| CmdWait
| EmitPortForward (ev : PortForward)
| HandleTerminalSize (req : Request).

(** The answers of what the handlers call outside this file. *)
Record Env : Type := mkEnv {
  (* s.termHandlers.HandleExec(ctx, ch, req, serverContext) and the like *)
  TermHandler_err : TermCall -> Request -> ServerContext -> option Error;
  (* s.authHandlers.CheckAgentForward(ctx), CheckX11Forward(ctx) *)
  CheckAgentForward : ServerContext -> option Error;
  CheckX11Forward : ServerContext -> option Error;
  (* x11.CheckXAuthPath() *)
  CheckXAuthPath : option Error;
  (* user.Lookup(login), trace.ConvertSystemError(err), os.Getpid() *)
  user_Lookup : string -> result string;
  ConvertSystemError : Error -> Error;
  os_Getpid : Z;
  (* agentServer.ListenUnixSocket(dir, name, user): agentServer.Path *)
  ListenUnixSocket : string -> string -> string -> result string;
  (* ssh.Unmarshal(req.Payload, &e) for the three payloads *)
  Unmarshal_EnvReq : string -> result (string * string);
  Unmarshal_X11Req : string -> result string;
  Unmarshal_SubsystemReq : string -> result string;
  (* ctx.OpenXServerListener(x11Req, offset, max) *)
  OpenXServerListener : string -> Z -> Z -> option Error;
  (* s.EmitAuditEvent(s.ctx, event) *)
  EmitAuditEvent_err : X11Forward -> option Error;
  (* req.Reply(ok, payload), io.WriteString(ch.Stderr(), msg) *)
  Reply_err : Request -> bool -> string -> option Error;
  WriteString_err : string -> option Error;
  (* utils.FormatErrorWithNewline(err) *)
  FormatErrorWithNewline : Error -> string;
  (* parseProxySubsys, parseProxySitesSubsys, newSFTPSubsys: their errors *)
  parseProxySubsys_err : string -> ServerContext -> option Error;
  parseProxySitesSubsys_err : string -> option Error;
  newSFTPSubsys_err : option Error;
  (* sb.Start(ctx, serverContext.ServerConn, ch, req, serverContext) *)
  Subsystem_Start_err : Subsystem -> option Error;
  (* s.GetAccessPoint().GetClusterNetworkingConfig(ctx): its error *)
  GetClusterNetworkingConfig_err : option Error;
  (* s.GetAccessPoint().GetSessionRecordingConfig(ctx), then
     services.IsRecordAtProxy(recConfig.GetMode()) *)
  GetSessionRecordingConfig : result bool;
  (* srv.NewServerContext(ctx, ccx, s, identityContext) *)
  NewServerContext : result ServerContext;
  (* ch.Close() *)
  Channel_Close_err : option Error;
  (* scx.CreateOrJoinSession(s.reg), at each turn of the session loop *)
  CreateOrJoinSession_err : nat -> option Error;
  (* ch.SendRequest("exit-status", false, ...) *)
  SendRequest_err : Z -> option Error;
  (* s.authHandlers.CheckPortForward(scx.DstAddr, scx) *)
  CheckPortForward : string -> ServerContext -> option Error;
  (* net.JoinHostPort(host, strconv.Itoa(int(port))) *)
  JoinHostPort : string -> Z -> string;
  (* srv.ConfigureCommand(scx), cmd.StdoutPipe(), cmd.StdinPipe(),
     cmd.Start(), cmd.Wait() *)
  ConfigureCommand_err : option Error;
  StdoutPipe_err : option Error;
  StdinPipe_err : option Error;
  cmd_Start_err : option Error;
  cmd_Wait_err : option Error;
  (* the warnings logged while the two copy routines are waited for *)
  copyWarnings : list string;
  (* s.EmitAuditEvent(s.ctx, &apievents.PortForward{...}) *)
  EmitPortForward_err : PortForward -> option Error;
  (* newProxySubsys(scx, s, proxySubsysRequest{host, port}) *)
  newProxySubsys_err : string -> string -> option Error;
  (* s.authService.GetSessionRecordingConfig(s.ctx), then
     services.IsRecordAtProxy(recConfig.GetMode()) *)
  AuthService_RecordAtProxy : result bool
}.

(** [trace.IsLimitExceeded]. *)
Definition IsLimitExceeded (e : Error) : bool :=
  match kind e with KLimitExceeded => true | _ => false end.

Definition returned : Type := (option Error * list Effect)%type.

(** Effects [es] happen, then the rest [r] runs. *)
Definition after (es : list Effect) (r : returned) : returned :=
  (fst r, es ++ snd r).

Section Handlers.

Variable K : Regular.Constants.
Variable N : Names.
Variable env : Env.

Definition Component (s : Server) : string := Regular.Component K (core s).

(** [Server.serveAgent]. *)
Definition serveAgent (ctx : ServerContext) : returned :=
  match user_Lookup env (Identity_Login ctx) with
  | Err err => (Some (ConvertSystemError env err), [])
  | Ok systemUser =>
    let pid := os_Getpid env in
    let socketDir := "teleport" in
    let socketName := ("teleport-" ++ fmt_d pid ++ ".socket")%string in
    after [ListenUnixSocket_ socketDir socketName systemUser]
    match ListenUnixSocket env socketDir socketName systemUser with
    | Err err => (Some (Wrap err), [])
    | Ok path =>
      (None, [ParentSetEnv (SSHAuthSock N) path;
              ParentSetEnv (SSHAgentPID N) (fmt_d pid);
              AddCloser AgentServer; GoServeAgent])
    end
  end.

(** [Server.handleAgentForwardNode]. *)
Definition handleAgentForwardNode (req : Request) (ctx : ServerContext) : returned :=
  match CheckAgentForward env ctx with
  | Some err => (Some (Wrap err), [])
  | None =>
    after [SetForwardAgent]
    match serveAgent ctx with
    | (Some err, es) => (Some (Wrap err), es)
    | (None, es) => (None, es)
    end
  end.

(** [Server.handleAgentForwardProxy]. *)
Definition handleAgentForwardProxy (req : Request) (ctx : ServerContext) : returned :=
  if negb (RecordAtProxy ctx) then
    (Some (BadParameter "agent forwarding to proxy only supported in recording mode"), [])
  else
    match CheckAgentForward env ctx with
    | Some err => (Some (Wrap err), [])
    | None => (None, [SetForwardAgent])
    end.

(** [writeStderr]. *)
Definition writeStderr (m : string) : list Effect :=
  WriteStderr m ::
  match WriteString_err env m with
  | Some err => [LogWarn ("Failed writing to ssh.Channel.Stderr(): " ++ msg err)]
  | None => []
  end.

(** [Server.replyError]. *)
Definition replyError (req : Request) (err : Error) : list Effect :=
  let message := FormatErrorWithNewline env err in
  LogError (msg err) :: writeStderr message ++
  (if WantReply req then
     Reply false message ::
     match Reply_err env req false message with
     | Some rerr => [LogWarn ("Failed to reply to " ++ fmt_q (Type_ req)
                                ++ " request: " ++ msg rerr)]
     | None => []
     end
   else []).

(** The body of [Server.handleX11Forward], before the deferred function
    runs. *)
Definition x11Body (s : Server) (req : Request) (ctx : ServerContext) : returned :=
  if negb (Enabled (x11 s))
     || match CheckXAuthPath env with Some _ => true | None => false end then
    (Some (AccessDenied "X11 forwarding is not enabled"), [])
  else
    match CheckX11Forward env ctx with
    | Some err => (Some (Wrap err), [])
    | None =>
      match Unmarshal_X11Req env (Payload req) with
      | Err err => (Some (Wrap err), [])
      | Ok x11Req =>
        after [OpenXServerListener_ x11Req (DisplayOffset (x11 s)) (MaxDisplay (x11 s))]
        match OpenXServerListener env x11Req (DisplayOffset (x11 s)) (MaxDisplay (x11 s)) with
        | Some err =>
          if IsLimitExceeded err then
            (Some (AccessDenied
               "The server cannot support any more X11 forwarding sessions at this time"),
             [])
          else (Some (Wrap err), [])
        | None => (None, [])
        end
      end
    end.

Definition x11Event (ctx : ServerContext) : X11Forward :=
  mkX11Forward (X11ForwardEvent N) (X11ForwardCode N)
    (Regular.mkUserMetadata (Identity_TeleportUser ctx) (Identity_Login ctx)
       (Identity_Impersonator ctx))
    (ServerConn_LocalAddr ctx) (ServerConn_RemoteAddr ctx) true "".

Definition emitX11 (ev : X11Forward) : list Effect :=
  EmitAuditEvent ev ::
  match EmitAuditEvent_err env ev with
  | Some _ => [LogWarn "Failed to emit x11-forward event."]
  | None => []
  end.

(** [Server.handleX11Forward]: the body, then the deferred function, which
    marks the event as failed, answers a denial over the channel instead of
    returning it, and emits the event. *)
Definition handleX11Forward (s : Server) (req : Request) (ctx : ServerContext)
  : returned :=
  let '(err, es) := x11Body s req ctx in
  let event := x11Event ctx in
  let event :=
    match err with
    | Some e =>
      mkX11Forward (Metadata_Type event) (X11ForwardFailureCode N) (UserMeta event)
        (LocalAddr event) (RemoteAddr event) false (msg e)
    | None => event
    end in
  match err with
  | Some e =>
    if IsAccessDenied e then (None, es ++ replyError req e ++ emitX11 event)
    else (Some e, es ++ emitX11 event)
  | None => (None, es ++ emitX11 event)
  end.

(** [Server.parseSubsystemRequest]. *)
Definition parseSubsystemRequest (s : Server) (req : Request) (ctx : ServerContext)
  : result Subsystem :=
  match Unmarshal_SubsystemReq env (Payload req) with
  | Err err => Err (BadParameter ("failed to parse subsystem request: " ++ msg err))
  | Ok name =>
    if proxyMode s && String.prefix "proxy:" name then
      match parseProxySubsys_err env name ctx with
      | Some err => Err err
      | None => Ok (ProxySubsys name)
      end
    else if proxyMode s && String.prefix "proxysites" name then
      match parseProxySitesSubsys_err env name with
      | Some err => Err err
      | None => Ok (ProxySitesSubsys name)
      end
    else if name =? sftpSubsystem N then
      match newSFTPSubsys_err env with
      | Some err => Err err
      | None => Ok SFTPSubsys
      end
    else Err (BadParameter ("unrecognized subsystem: " ++ name))
  end.

(** [Server.handleSubsystem]. *)
Definition handleSubsystem (s : Server) (req : Request) (ctx : ServerContext) : returned :=
  match parseSubsystemRequest s req ctx with
  | Err err => (Some (Wrap err), [CtxWarn "Failed to parse subsystem request"])
  | Ok sb =>
    after [SubsystemStart sb]
    match Subsystem_Start_err env sb with
    | Some err =>
      (Some (Wrap err), [CtxWarn "Subsystem request failed"; SendSubsystemResult (Wrap err)])
    | None => (None, [GoWaitSubsystem sb])
    end
  end.

(** [Server.handleEnv]. *)
Definition handleEnv (req : Request) (ctx : ServerContext) : returned :=
  match Unmarshal_EnvReq env (Payload req) with
  | Err err => (Some (WrapMsg err "failed to parse env request"), [CtxError (msg err)])
  | Ok (name, value) => (None, [SetEnv name value])
  end.

Definition callTermHandler (h : TermCall) (req : Request) (ctx : ServerContext)
  : returned :=
  (TermHandler_err env h req ctx, [CallTermHandler h req]).

(** An agent forwarding request never fails: the error is logged. *)
Definition logged (r : returned) : returned :=
  match r with
  | (Some err, es) => (None, es ++ [LogWarn (msg err)])
  | (None, es) => (None, es)
  end.

(** The last switch of [dispatch], for a node. *)
Definition dispatchNode (s : Server) (req : Request) (ctx : ServerContext) : returned :=
  let t := Type_ req in
  if t =? TracingRequest N then (None, [])
  else if t =? ExecRequest N then callTermHandler HandleExec req ctx
  else if t =? PTYRequest N then callTermHandler HandlePTYReq req ctx
  else if t =? ShellRequest N then callTermHandler HandleShell req ctx
  else if t =? WindowChangeRequest N then callTermHandler HandleWinChange req ctx
  else if t =? ForceTerminateRequest N then callTermHandler HandleForceTerminate req ctx
  else if t =? EnvRequest N then handleEnv req ctx
  else if t =? SubsystemRequest N then handleSubsystem s req ctx
  else if t =? X11ForwardRequest N then handleX11Forward s req ctx
  else if t =? AgentForwardRequest N then logged (handleAgentForwardNode req ctx)
  else (Some (BadParameter (Component s ++ " doesn't support request type '" ++ t ++ "'")),
        []).

(** [Server.dispatch].  In the switch for join-only certificates the case
    of [sshutils.EnvRequest] has no statement: control leaves that switch
    and goes on to the last one. *)
Definition dispatch (s : Server) (req : Request) (ctx : ServerContext) : returned :=
  let t := Type_ req in
  if proxyMode s then
    if t =? TracingRequest N then (None, [])
    else if t =? SubsystemRequest N then handleSubsystem s req ctx
    else if t =? EnvRequest N then handleEnv req ctx
    else if t =? AgentForwardRequest N then logged (handleAgentForwardProxy req ctx)
    else if t =? PuTTYSimpleRequest N then (None, [])
    else (Some (BadParameter ("(" ++ Component s ++ ") proxy doesn't support request type '"
                                ++ t ++ "'")), [])
  else if JoinOnly ctx then
    if t =? TracingRequest N then (None, [])
    else if t =? PTYRequest N then callTermHandler HandlePTYReq req ctx
    else if t =? ShellRequest N then callTermHandler HandleShell req ctx
    else if t =? WindowChangeRequest N then callTermHandler HandleWinChange req ctx
    else if t =? ForceTerminateRequest N then callTermHandler HandleForceTerminate req ctx
    else if t =? EnvRequest N then dispatchNode s req ctx
    else if t =? SubsystemRequest N then handleSubsystem s req ctx
    else if t =? AgentForwardRequest N then logged (handleAgentForwardNode req ctx)
    else (Some (AccessDenied ("attempted " ++ t ++ " request in join-only mode")), [])
  else dispatchNode s req ctx.

(** [ch.Close()] with the warning logged when it fails. *)
Definition closeChannel : list Effect :=
  ChannelClose ::
  match Channel_Close_err env with
  | Some _ => [LogWarn "Failed to close channel."]
  | None => []
  end.

(** The steps the three channel handlers share when [srv.NewServerContext]
    fails. *)
Definition noContext : list Effect :=
  LogError "Unable to create connection context." ::
  writeStderr "Unable to create connection context." ++ closeChannel.

(** [ch.SendRequest("exit-status", false, ...)]. *)
Definition sendExitStatus (code : Z) (onError : Effect) : list Effect :=
  SendExitStatus code ::
  match SendRequest_err env code with
  | Some _ => [onError]
  | None => []
  end.

(** [req.Reply(true, nil)] when the sender wants a reply. *)
Definition replyOK (req : Request) : list Effect :=
  if WantReply req then
    Reply true "" ::
    match Reply_err env req true "" with
    | Some rerr => [LogWarn ("Failed to reply to " ++ fmt_q (Type_ req)
                               ++ " request: " ++ msg rerr)]
    | None => []
    end
  else [].

(** The loop of [Server.handleSessionRequests] at its turn number [i], on
    what its [select] receives: the effects, and whether the loop returned
    (with nothing left to receive it blocks).  The tracing span around
    [dispatch] is left out. *)
Fixpoint sessionLoop (s : Server) (scx : ServerContext) (i : nat)
    (events : list Incoming) : list Effect * bool :=
  match (if proxyMode s then None else CreateOrJoinSession_err env i) with
  | Some err =>
    let errorMessage := ("unable to update context: " ++ msg err)%string in
    (CtxError ("Unable to update context: " ++ errorMessage ++ ".") ::
     writeStderr errorMessage ++
     sendExitStatus (RemoteCommandFailure N)
       (CtxError ("Failed to send exit status " ++ errorMessage ++ ".")),
     true)
  | None =>
    match events with
    | [] => ([], false)
    | SubsystemResult :: _ => ([], true)
    | IncomingRequest None :: _ => ([], true)
    | IncomingRequest (Some req) :: rest =>
      match dispatch s req scx with
      | (Some err, es) => (es ++ replyError req err, true)
      | (None, es) =>
        let '(es', r) := sessionLoop s scx (S i) rest in
        (es ++ replyOK req ++ es', r)
      end
    | ExecResult code :: _ =>
      (sendExitStatus (code mod 2 ^ 32) (CtxInfo "Failed to send exit status"), true)
    | ContextDone :: _ => ([], true)
    end
  end.

(** [Server.handleSessionRequests]: [defer scx.Close()] runs when the loop
    returns. *)
Definition handleSessionRequests (s : Server) (events : list Incoming) : list Effect :=
  match GetClusterNetworkingConfig_err env with
  | Some err =>
    LogError ("Unable to fetch cluster networking config: " ++ msg err ++ ".") ::
    writeStderr "Unable to fetch cluster networking configuration."
  | None =>
    match NewServerContext env with
    | Err err => noContext
    | Ok scx =>
      let '(es, r) := sessionLoop s scx 0 events in
      [AddCloser Channel; TrackActivity; GoKeepAliveLoop] ++ es
      ++ (if r then [ScxClose] else [])
    end
  end.

(** [Server.canPortForward]. *)
Definition canPortForward (s : Server) (scx : ServerContext) : option Error :=
  if negb (allowTCPForwarding s) then
    Some (AccessDenied "node does not allow port forwarding")
  else CheckPortForward env (DstAddr scx) scx.

Definition portForwardEvent (scx : ServerContext) : PortForward :=
  mkPortForward (PortForwardEvent N) (PortForwardCode N) (Identity_GetUserMetadata scx)
    (ServerConn_LocalAddr scx) (ServerConn_RemoteAddr scx) (DstAddr scx) true.

Definition emitPortForward (scx : ServerContext) : list Effect :=
  EmitPortForward (portForwardEvent scx) ::
  match EmitPortForward_err env (portForwardEvent scx) with
  | Some _ => [LogWarn "Failed to emit port forward event."]
  | None => []
  end.

(** [Server.handleDirectTCPIPRequest] between the two deferred calls. *)
Definition forwardPort (s : Server) (scx : ServerContext) : list Effect :=
  match canPortForward s scx with
  | Some err => writeStderr (msg err)
  | None =>
  match ConfigureCommand_err env with
  | Some err => writeStderr (msg err)
  | None =>
  match StdoutPipe_err env with
  | Some err =>
    LogError ("Failed to setup stdout pipe: " ++ msg err) :: writeStderr (msg err)
  | None =>
  match StdinPipe_err env with
  | Some err =>
    LogError ("Failed to setup stdin pipe: " ++ msg err) :: writeStderr (msg err)
  | None =>
  CmdStart ::
  match cmd_Start_err env with
  | Some err => writeStderr (msg err)
  | None =>
  [GoCopy; GoCopy] ++ map LogWarn (copyWarnings env) ++
  CmdWait ::
  match cmd_Wait_err env with
  | Some err => writeStderr (msg err)
  | None => emitPortForward scx
  end end end end end end.

(** [Server.handleDirectTCPIPRequest]. *)
Definition handleDirectTCPIPRequest (s : Server) (req : DirectTCPIPReq) : list Effect :=
  match NewServerContext env with
  | Err err => noContext
  | Ok scx =>
    let scx := withAddrs scx (JoinHostPort env (Orig req) (OrigPort req))
                 (JoinHostPort env (Host req) (Port req)) in
    [AddCloser Channel; TrackActivity] ++ forwardPort s scx ++ [ScxClose]
  end.

(** [Server.handleProxyJump] after the context was created. *)
Definition proxyJump (s : Server) (scx : ServerContext) (req : DirectTCPIPReq)
  : list Effect :=
  match GetSessionRecordingConfig env with
  | Err err =>
    LogError ("Unable to fetch session recording config: " ++ msg err ++ ".") ::
    writeStderr "Unable to fetch session recording configuration."
  | Ok recordAtProxy =>
    let '(agentErr, agentEffects) :=
      if recordAtProxy then handleAgentForwardProxy (mkRequest "" false "") scx
      else (None, []) in
    agentEffects ++
    match agentErr with
    | Some err =>
      LogWarn ("Failed to request agent in recording mode: " ++ msg err) ::
      writeStderr "Failed to request agent"
    | None =>
    match GetClusterNetworkingConfig_err env with
    | Some err =>
      LogError ("Unable to fetch cluster networking config: " ++ msg err ++ ".") ::
      writeStderr "Unable to fetch cluster networking configuration."
    | None =>
    GoKeepAliveLoop ::
    match newProxySubsys_err env (Host req) (fmt_d (Port req)) with
    | Some err =>
      LogError ("Unable instantiate proxy subsystem: " ++ msg err ++ ".") ::
      writeStderr "Unable to instantiate proxy subsystem."
    | None =>
    let subsys := ProxyJumpSubsys (Host req) (fmt_d (Port req)) in
    SubsystemStart subsys ::
    match Subsystem_Start_err env subsys with
    | Some err =>
      LogError ("Unable to start proxy subsystem: " ++ msg err ++ ".") ::
      writeStderr "Unable to start proxy subsystem."
    | None => [GoWaitSubsystem subsys]
    end end end end
  end.

(** [Server.handleProxyJump]. *)
Definition handleProxyJump (s : Server) (req : DirectTCPIPReq) : list Effect :=
  match NewServerContext env with
  | Err err => noContext
  | Ok scx => [AddCloser Channel; TrackActivity] ++ proxyJump s scx req ++ [ScxClose]
  end.

(** [req.Reply(ok, payload)] with the warning logged when it fails; a nil
    payload is the empty text. *)
Definition reply (req : Request) (ok : bool) (payload : string) (warning : string)
  : list Effect :=
  Reply ok payload ::
  match Reply_err env req ok payload with
  | Some _ => [LogWarn warning]
  | None => []
  end.

(** [Server.handleKeepAlive]. *)
Definition handleKeepAlive (req : Request) : list Effect :=
  if WantReply req then reply req true "" "Unable to reply to request" else [].

(** [strconv.FormatBool]. *)
Definition FormatBool (b : bool) : string := if b then "true" else "false".

(** [Server.handleRecordingProxy]. *)
Definition handleRecordingProxy (req : Request) : list Effect :=
  if WantReply req then
    match AuthService_RecordAtProxy env with
    | Err _ => reply req false "" "Unable to respond to global request"
    | Ok recordingProxy =>
      reply req true (FormatBool recordingProxy) "Unable to respond to global request"
    end
  else [].

(** [Server.handleVersionRequest]; a failure is only logged at debug
    level. *)
Definition handleVersionRequest (req : Request) : list Effect :=
  [Reply true (Version N)].

(** [Server.HandleRequest], for global requests. *)
Definition HandleRequest (r : Request) : list Effect :=
  let t := Type_ r in
  if t =? KeepAliveReqType N then handleKeepAlive r
  else if t =? RecordingProxyReqType N then handleRecordingProxy r
  else if t =? VersionRequest N then handleVersionRequest r
  else if t =? TerminalSizeRequest N then [HandleTerminalSize r]
  else if WantReply r then reply r false "" "Failed to reply to request"
  else [].

Definition isReply (e : Effect) : bool :=
  match e with Reply _ _ => true | _ => false end.




(* case analysis on every test of the goal, innermost first *)
Local Ltac branches :=
  repeat match goal with
         | |- context [match ?x with _ => _ end] =>
           lazymatch x with
           | context [match _ with _ => _ end] => fail
           | _ => destruct x eqn:?
           end
         end.

Local Ltac absent :=
  let H := fresh in
  intros H; simpl in H;
  repeat (destruct H as [H | H]; [discriminate H|]); exact H.

Local Ltac present := simpl; repeat (first [left; reflexivity | right]).

Local Ltac absent' :=
  let H := fresh in
  intros H; cbn [app In] in H;
  repeat (destruct H as [H | H]; [discriminate H|]);
  repeat match type of H with
         | In _ (match ?x with _ => _ end) => destruct x; cbn [In] in H
         | _ \/ _ => destruct H as [H | H]; [discriminate H|]
         end;
  try contradiction; try exact H.

(** The server touches the host for the request: a terminal handler runs,
    an agent socket is served or an X11 listener is opened. *)
Definition touchesHost (e : Effect) : bool :=
  match e with
  | CallTermHandler _ _ | ListenUnixSocket_ _ _ _ | ParentSetEnv _ _
  | AddCloser AgentServer | GoServeAgent | OpenXServerListener_ _ _ _ => true
  | _ => false
  end.

(** X19: in proxy mode [dispatch] never runs a terminal handler, never
    serves an agent socket and never opens an X11 listener, whatever the
    request is. *)
Theorem proxy_dispatch_stays_off_the_host
    (s : Server) (req : Request) (ctx : ServerContext) :
  proxyMode s = true ->
  forallb (fun e => negb (touchesHost e)) (snd (dispatch s req ctx)) = true.
Proof.
  intros Hp. unfold dispatch. rewrite Hp.
  unfold handleSubsystem, parseSubsystemRequest, handleEnv, logged,
    handleAgentForwardProxy, after.
  branches; reflexivity.
Qed.

(** X20: an agent forwarding request never fails in [dispatch]: the error
    of the handler is logged and nil is returned; and when the role check
    refuses it, or the server is a proxy that does not record, nothing is
    forwarded: the warning is the only effect. *)
Theorem agent_forward_never_fails
    (s : Server) (req : Request) (ctx : ServerContext) :
  Type_ req = AgentForwardRequest N ->
  ~ In (AgentForwardRequest N)
       [TracingRequest N; SubsystemRequest N; EnvRequest N; PuTTYSimpleRequest N;
        PTYRequest N; ShellRequest N; WindowChangeRequest N; ForceTerminateRequest N;
        ExecRequest N; X11ForwardRequest N] ->
  fst (dispatch s req ctx) = None /\
  (CheckAgentForward env ctx <> None \/ (proxyMode s = true /\ RecordAtProxy ctx = false) ->
   exists m, snd (dispatch s req ctx) = [LogWarn m]).
Proof.
  intros Ht Hd.
  assert (Hne : forall x,
            In x [TracingRequest N; SubsystemRequest N; EnvRequest N; PuTTYSimpleRequest N;
                  PTYRequest N; ShellRequest N; WindowChangeRequest N;
                  ForceTerminateRequest N; ExecRequest N; X11ForwardRequest N] ->
            (AgentForwardRequest N =? x) = false).
  { intros x Hx. apply String.eqb_neq. intros E. apply Hd. rewrite E. exact Hx. }
  unfold dispatch, dispatchNode. rewrite Ht.
  rewrite !String.eqb_refl.
  repeat rewrite Hne by (simpl; tauto).
  unfold logged, handleAgentForwardProxy, handleAgentForwardNode, serveAgent, after.
  destruct (proxyMode s) eqn:Hp.
  - destruct (RecordAtProxy ctx) eqn:Hr; cbn [negb].
    + destruct (CheckAgentForward env ctx) as [e|] eqn:Hc; cbn [fst snd app].
      * split; [reflexivity|]. intros _. eexists. reflexivity.
      * split; [reflexivity|].
        intros [H | [_ H]]; [exfalso; apply H; reflexivity | discriminate H].
    + split; [reflexivity|]. intros _. eexists. reflexivity.
  - destruct (JoinOnly ctx);
      (destruct (CheckAgentForward env ctx) as [e|] eqn:Hc; cbn [fst snd app];
       [split; [reflexivity|]; intros _; eexists; reflexivity|]);
      (split; [branches; reflexivity|]);
      (intros [H | [H _]]; [exfalso; apply H; reflexivity | discriminate H]).
Qed.

(** X21: for a certificate with a join-only principal on a node, an
    environment request is not dropped: it leaves the switch for join-only
    certificates and is handled by [handleEnv] like any other, so the
    variable is stored; and a request of a type outside the list of that
    switch, such as exec or X11 forwarding, is refused with AccessDenied
    without any effect. *)
Theorem join_only_dispatch
    (s : Server) (req : Request) (ctx : ServerContext) :
  proxyMode s = false -> JoinOnly ctx = true ->
  (Type_ req = EnvRequest N ->
   ~ In (EnvRequest N)
        [TracingRequest N; ExecRequest N; PTYRequest N; ShellRequest N;
         WindowChangeRequest N; ForceTerminateRequest N] ->
   dispatch s req ctx = handleEnv req ctx /\
   (forall name value,
      Unmarshal_EnvReq env (Payload req) = Ok (name, value) ->
      dispatch s req ctx = (None, [SetEnv name value]))) /\
  (~ In (Type_ req)
        [TracingRequest N; PTYRequest N; ShellRequest N; WindowChangeRequest N;
         ForceTerminateRequest N; EnvRequest N; SubsystemRequest N;
         AgentForwardRequest N] ->
   dispatch s req ctx
     = (Some (AccessDenied ("attempted " ++ Type_ req ++ " request in join-only mode")),
        [])).
Proof.
  intros Hp Hj. unfold dispatch. rewrite Hp, Hj. split.
  - intros Ht Hd.
    assert (Hne : forall x,
              In x [TracingRequest N; ExecRequest N; PTYRequest N; ShellRequest N;
                    WindowChangeRequest N; ForceTerminateRequest N] ->
              (EnvRequest N =? x) = false).
    { intros x Hx. apply String.eqb_neq. intros E. apply Hd. rewrite E. exact Hx. }
    assert (Hd' : dispatchNode s req ctx = handleEnv req ctx).
    { unfold dispatchNode. rewrite Ht. rewrite !String.eqb_refl.
      repeat rewrite Hne by (simpl; tauto). reflexivity. }
    rewrite Ht. rewrite !String.eqb_refl. repeat rewrite Hne by (simpl; tauto).
    split; [exact Hd'|].
    intros name value Hu. rewrite Hd'. unfold handleEnv. rewrite Hu. reflexivity.
  - intros Hd.
    assert (Hne : forall x,
              In x [TracingRequest N; PTYRequest N; ShellRequest N; WindowChangeRequest N;
                    ForceTerminateRequest N; EnvRequest N; SubsystemRequest N;
                    AgentForwardRequest N] ->
              (Type_ req =? x) = false).
    { intros x Hx. apply String.eqb_neq. intros E. apply Hd. rewrite E. exact Hx. }
    repeat rewrite Hne by (simpl; tauto). reflexivity.
Qed.

















(** X23: on a node [dispatch] starts no subsystem other than sftp: a
    request for a proxy subsystem is not even parsed as one. *)
Theorem node_starts_only_sftp
    (s : Server) (req : Request) (ctx : ServerContext) (sb : Subsystem) :
  proxyMode s = false ->
  In (SubsystemStart sb) (snd (dispatch s req ctx)) -> sb = SFTPSubsys.
Proof.
  intros Hp. unfold dispatch, dispatchNode. rewrite Hp.
  unfold handleSubsystem, parseSubsystemRequest. rewrite Hp. cbn [andb].
  unfold handleEnv, logged, handleAgentForwardNode, serveAgent, callTermHandler,
    handleX11Forward, x11Body, replyError, writeStderr, emitX11, after.
  branches; cbn [fst snd app]; intros H; simpl in H;
    repeat (destruct H as [H | H];
            [first [discriminate H | injection H as H; subst; try reflexivity;
                    try congruence]|]);
    try contradiction; try congruence.
Qed.

Lemma dispatch_no_close (s : Server) (req : Request) (ctx : ServerContext) :
  ~ In ScxClose (snd (dispatch s req ctx)).
Proof.
  unfold dispatch, dispatchNode, handleSubsystem, parseSubsystemRequest,
    handleEnv, logged, handleAgentForwardNode, handleAgentForwardProxy, serveAgent,
    callTermHandler, handleX11Forward, x11Body, replyError, writeStderr, emitX11, after.
  branches; cbn [fst snd app]; absent.
Qed.

Lemma replyError_no_close (req : Request) (err : Error) :
  ~ In ScxClose (replyError req err).
Proof.
  unfold replyError, writeStderr. branches; cbn [app]; absent.
Qed.

Lemma replyOK_no_close (req : Request) : ~ In ScxClose (replyOK req).
Proof. unfold replyOK. branches; absent. Qed.

Lemma writeStderr_no_close (m : string) : ~ In ScxClose (writeStderr m).
Proof. unfold writeStderr. branches; absent. Qed.

Lemma sessionLoop_no_close (s : Server) (scx : ServerContext) (events : list Incoming) :
  forall i, ~ In ScxClose (fst (sessionLoop s scx i events)).
Proof.
  induction events as [|ev rest IH]; intros i; cbn [sessionLoop].
  - destruct (if proxyMode s then None else CreateOrJoinSession_err env i);
      cbn [fst]; [|intros H; exact H].
    unfold sendExitStatus, writeStderr. branches; cbn [app]; absent.
  - destruct (if proxyMode s then None else CreateOrJoinSession_err env i).
    { cbn [fst]. unfold sendExitStatus, writeStderr. branches; cbn [app]; absent. }
    destruct ev as [|[req|]|code|]; cbn [fst]; try (intros H; exact H).
    + destruct (dispatch s req scx) as [[err|] es] eqn:Hd.
      * cbn [fst]. intros H. apply in_app_or in H. destruct H as [H | H].
        -- apply (dispatch_no_close s req scx). rewrite Hd. exact H.
        -- exact (replyError_no_close _ _ H).
      * specialize (IH (S i)). destruct (sessionLoop s scx (S i) rest) as [es' r].
        cbn [fst] in *. intros H.
        apply in_app_or in H. destruct H as [H | H].
        -- apply (dispatch_no_close s req scx). rewrite Hd. exact H.
        -- apply in_app_or in H. destruct H as [H | H];
             [exact (replyOK_no_close _ H) | exact (IH H)].
    + unfold sendExitStatus. branches; absent.
Qed.

Lemma forwardPort_no_close (s : Server) (scx : ServerContext) :
  ~ In ScxClose (forwardPort s scx).
Proof.
  unfold forwardPort, emitPortForward.
  assert (Hw : forall m, ~ In ScxClose (writeStderr m)) by exact writeStderr_no_close.
  branches;
    repeat match goal with
           | |- ~ In _ (_ :: _) =>
             let H := fresh in
             intros H; destruct H as [H | H]; [discriminate H | revert H]
           | |- ~ In _ (_ ++ _) =>
             let H := fresh in
             intros H; apply in_app_or in H; destruct H as [H | H]; revert H
           | |- In _ (_ :: _) -> False =>
             let H := fresh in
             intros H; destruct H as [H | H]; [discriminate H | revert H]
           | |- In _ (_ ++ _) -> False =>
             let H := fresh in
             intros H; apply in_app_or in H; destruct H as [H | H]; revert H
           end;
    try (apply Hw);
    try (intros H; simpl in H; exact H);
    try (intros H; apply in_map_iff in H; destruct H as [x [Hx _]]; discriminate Hx).
Qed.

Lemma proxyJump_no_close (s : Server) (scx : ServerContext) (req : DirectTCPIPReq) :
  ~ In ScxClose (proxyJump s scx req).
Proof.
  unfold proxyJump, handleAgentForwardProxy, writeStderr.
  branches; cbn [app];
    repeat match goal with
           | H : (_, _) = (_, _) |- _ => injection H as ? ?; subst
           end;
    absent.
Qed.

(** The trace ends with the one call of [scx.Close()]. *)
Definition closesOnce (es : list Effect) : Prop :=
  exists before, es = before ++ [ScxClose] /\ ~ In ScxClose before.

(** X24: once [srv.NewServerContext] gave a context, the handlers of the
    three kinds of channel close it exactly once, as their last step, on
    every path on which they return: port forwarding and proxy jumps
    always, the session loop whenever it leaves its [select]. *)
Theorem context_closed_on_return
    (s : Server) (scx : ServerContext) (req : DirectTCPIPReq) (events : list Incoming) :
  NewServerContext env = Ok scx ->
  closesOnce (handleDirectTCPIPRequest s req) /\
  closesOnce (handleProxyJump s req) /\
  (GetClusterNetworkingConfig_err env = None ->
   snd (sessionLoop s scx 0 events) = true ->
   closesOnce (handleSessionRequests s events)).
Proof.
  intros Hctx. split; [|split].
  - unfold handleDirectTCPIPRequest. rewrite Hctx. cbv zeta.
    eexists. rewrite app_assoc. split; [reflexivity|].
    intros H. apply in_app_or in H. destruct H as [H | H]; [revert H; absent|].
    exact (forwardPort_no_close _ _ H).
  - unfold handleProxyJump. rewrite Hctx.
    eexists. rewrite app_assoc. split; [reflexivity|].
    intros H. apply in_app_or in H. destruct H as [H | H]; [revert H; absent|].
    exact (proxyJump_no_close _ _ _ H).
  - intros Hnet Hret. unfold handleSessionRequests. rewrite Hnet, Hctx.
    pose proof (sessionLoop_no_close s scx events 0) as Hno.
    destruct (sessionLoop s scx 0 events) as [es r]. cbn [fst snd] in *. subst r.
    eexists. rewrite app_assoc. split; [reflexivity|].
    intros H. apply in_app_or in H. destruct H as [H | H]; [revert H; absent|].
    exact (Hno H).
Qed.





(** X26: on a node, an X11 forwarding request that wants a reply and is
    denied because X11 forwarding is disabled is answered twice: the
    handler replies false with the error text, returns nil, and the session
    loop then replies true to the same request; the session goes on. *)
Theorem denied_X11_is_answered_twice
    (s : Server) (scx : ServerContext) (i : nat) (req : Request) (rest : list Incoming) :
  proxyMode s = false -> JoinOnly scx = false ->
  Type_ req = X11ForwardRequest N ->
  ~ In (X11ForwardRequest N)
       [TracingRequest N; ExecRequest N; PTYRequest N; ShellRequest N;
        WindowChangeRequest N; ForceTerminateRequest N; EnvRequest N;
        SubsystemRequest N] ->
  Enabled (x11 s) = false -> WantReply req = true ->
  CreateOrJoinSession_err env i = None ->
  exists m es1 es2 es3,
    fst (sessionLoop s scx i (IncomingRequest (Some req) :: rest))
      = es1 ++ Reply false m :: es2 ++ Reply true "" :: es3
        ++ fst (sessionLoop s scx (S i) rest) /\
    snd (sessionLoop s scx i (IncomingRequest (Some req) :: rest))
      = snd (sessionLoop s scx (S i) rest).
Proof.
  intros Hp Hj Ht Hd Hx Hw Hc.
  assert (Hne : forall x,
            In x [TracingRequest N; ExecRequest N; PTYRequest N; ShellRequest N;
                  WindowChangeRequest N; ForceTerminateRequest N; EnvRequest N;
                  SubsystemRequest N] ->
            (X11ForwardRequest N =? x) = false).
  { intros x Hin. apply String.eqb_neq. intros E. apply Hd. rewrite E. exact Hin. }
  assert (Hdisp : dispatch s req scx = handleX11Forward s req scx).
  { unfold dispatch, dispatchNode. rewrite Hp, Hj, Ht. rewrite !String.eqb_refl.
    repeat rewrite Hne by (simpl; tauto). reflexivity. }
  cbn [sessionLoop]. rewrite Hp, Hc, Hdisp.
  unfold handleX11Forward, x11Body. rewrite Hx.
  cbn [negb orb IsAccessDenied AccessDenied kind].
  unfold replyError, replyOK. rewrite Hw.
  destruct (sessionLoop s scx (S i) rest) as [es' r]. cbn [fst snd].
  set (denied := mkError KAccessDenied "X11 forwarding is not enabled" []).
  set (message := FormatErrorWithNewline env denied).
  exists message, (LogError (msg denied) :: writeStderr message).
  exists (match Reply_err env req false message with
          | Some rerr => [LogWarn ("Failed to reply to " ++ fmt_q (Type_ req)
                                     ++ " request: " ++ msg rerr)]
          | None => []
          end
          ++ emitX11 (mkX11Forward (Metadata_Type (x11Event scx)) (X11ForwardFailureCode N)
                        (UserMeta (x11Event scx)) (LocalAddr (x11Event scx))
                        (RemoteAddr (x11Event scx)) false (msg denied))).
  exists (match Reply_err env req true "" with
          | Some rerr => [LogWarn ("Failed to reply to " ++ fmt_q (Type_ req)
                                     ++ " request: " ++ msg rerr)]
          | None => []
          end).
  split; [|reflexivity].
  cbn [app]. f_equal.
  repeat rewrite <- app_assoc. cbn [app]. reflexivity.
Qed.

(** X27: the session ends at the first request whose [dispatch] returns an
    error: whatever is received after it is never handled. *)
Theorem session_ends_at_first_failure
    (s : Server) (scx : ServerContext) (req : Request) (err : Error)
    (before rest : list Incoming) :
  fst (dispatch s req scx) = Some err ->
  forall i,
    sessionLoop s scx i (before ++ IncomingRequest (Some req) :: rest)
    = sessionLoop s scx i (before ++ [IncomingRequest (Some req)]) /\
    snd (sessionLoop s scx i (before ++ IncomingRequest (Some req) :: rest)) = true.
Proof.
  intros Hd. induction before as [|ev before IH]; intros i.
  - cbn [app sessionLoop].
    destruct (if proxyMode s then None else CreateOrJoinSession_err env i);
      [split; reflexivity|].
    destruct (dispatch s req scx) as [[e|] es]; [split; reflexivity | discriminate Hd].
  - cbn [app sessionLoop].
    destruct (if proxyMode s then None else CreateOrJoinSession_err env i);
      [split; reflexivity|].
    destruct ev as [|[r|]|code|]; try (split; reflexivity).
    destruct (dispatch s r scx) as [[e|] es]; [split; reflexivity|].
    destruct (IH (S i)) as [IH1 IH2]. rewrite IH1.
    rewrite IH1 in IH2.
    destruct (sessionLoop s scx (S i) (before ++ [IncomingRequest (Some req)])) as [es' r'].
    split; [reflexivity | exact IH2].
Qed.

(** X30: [HandleRequest] replies at most once to a global request; for
    every type other than the version request and the terminal size request
    (which is handed over to the terminal handlers) it replies exactly when
    the sender wants a reply, while a version request is replied to
    whether a reply is wanted or not. *)
Theorem global_request_replies (r : Request) :
  Type_ r <> TerminalSizeRequest N ->
  (List.length (filter isReply (HandleRequest r)) <= 1)%nat /\
  (Type_ r <> VersionRequest N ->
   List.length (filter isReply (HandleRequest r)) = if WantReply r then 1%nat else 0%nat) /\
  (Type_ r = VersionRequest N ->
   VersionRequest N <> KeepAliveReqType N ->
   VersionRequest N <> RecordingProxyReqType N ->
   HandleRequest r = [Reply true (Version N)]).
Proof.
  intros Hts. apply String.eqb_neq in Hts.
  unfold HandleRequest, handleKeepAlive, handleRecordingProxy, handleVersionRequest, reply.
  rewrite Hts. split; [|split].
  - branches; cbn [filter isReply List.length]; lia.
  - intros Hv. apply String.eqb_neq in Hv. rewrite Hv.
    branches; reflexivity.
  - intros Hv Hk Hr. rewrite Hv.
    apply String.eqb_neq in Hk, Hr. rewrite Hk, Hr, String.eqb_refl. reflexivity.
Qed.

End Handlers.

(** The names as the packages define them, and a host on which every call
    goes through. *)
Definition sshNames : Names :=
  mkNames "tracing@goteleport.com" "subsystem" "env" "auth-agent-req@openssh.com"
    "simple@putty.projects.tartarus.org" "pty-req" "shell" "window-change"
    "x-teleport-force-terminate" "exec" "x11-req" "sftp"
    "x11-forward" "T3008I" "T3008W" "SSH_AUTH_SOCK" "SSH_AGENT_PID"
    "port" "T3003I" 255%Z
    "keepalive@openssh.com" "recording-proxy@teleport.com" "x-teleport-version"
    "x-teleport-terminal-size" "10.0.0".

Definition aliceSession (joinOnly : bool) : ServerContext :=
  mkServerContext joinOnly "root" "alice" "" "10.0.0.1:3022" "10.0.0.9:51000" false
    (Regular.mkUserMetadata "alice" "root" "") "" "".

Definition quietHost : Env :=
  mkEnv (fun _ _ _ => None) (fun _ => None) (fun _ => None) None
    (fun login => Ok login) (fun e => e) 4242%Z
    (fun dir name _ => Ok ("/tmp/" ++ dir ++ "/" ++ name)%string)
    (fun _ => Ok ("LANG", "C")) (fun p => Ok p) (fun p => Ok p)
    (fun _ _ _ => None) (fun _ => None) (fun _ _ _ => None) (fun _ => None)
    (fun e => (msg e ++ String "010"%char EmptyString)%string)
    (fun _ _ => None) (fun _ => None) None (fun _ => None)
    None (Ok false) (Ok (aliceSession false)) None (fun _ => None) (fun _ => None)
    (fun _ _ => None) (fun host port => (host ++ ":" ++ fmt_d port)%string)
    None None None None None [] (fun _ => None) (fun _ _ => None) (Ok true).

Definition x11On : X11Config := mkX11Config true 10%Z 1000%Z.

Definition node : Server := mkServer Regular.nodeServer x11On true.
Definition proxy : Server := mkServer Regular.proxyServer x11On true.

Lemma proxy_dispatch_stays_off_the_host_witness :
  forallb (fun e => negb (touchesHost e))
    (snd (dispatch Regular.teleportConstants sshNames quietHost proxy
            (mkRequest "exec" true "ls") (aliceSession false))) = true.
Proof.
  apply (proxy_dispatch_stays_off_the_host Regular.teleportConstants sshNames quietHost
           proxy (mkRequest "exec" true "ls") (aliceSession false)).
  reflexivity.
Defined.

Lemma agent_forward_never_fails_witness :
  fst (dispatch Regular.teleportConstants sshNames quietHost proxy
         (mkRequest "auth-agent-req@openssh.com" true "") (aliceSession false)) = None /\
  exists m,
    snd (dispatch Regular.teleportConstants sshNames quietHost proxy
           (mkRequest "auth-agent-req@openssh.com" true "") (aliceSession false))
      = [LogWarn m].
Proof.
  destruct (agent_forward_never_fails Regular.teleportConstants sshNames quietHost proxy
              (mkRequest "auth-agent-req@openssh.com" true "") (aliceSession false)
              eq_refl) as [Hnil Hquiet].
  - simpl. intuition discriminate.
  - split; [exact Hnil|]. apply Hquiet. right. split; reflexivity.
Defined.

Lemma join_only_dispatch_witness :
  dispatch Regular.teleportConstants sshNames quietHost node
      (mkRequest "env" true "LANG=C") (aliceSession true)
    = (None, [SetEnv "LANG" "C"]) /\
  dispatch Regular.teleportConstants sshNames quietHost node
      (mkRequest "exec" true "ls") (aliceSession true)
    = (Some (AccessDenied "attempted exec request in join-only mode"), []).
Proof.
  destruct (join_only_dispatch Regular.teleportConstants sshNames quietHost node
              (mkRequest "env" true "LANG=C") (aliceSession true) eq_refl eq_refl)
    as [Henv _].
  destruct (join_only_dispatch Regular.teleportConstants sshNames quietHost node
              (mkRequest "exec" true "ls") (aliceSession true) eq_refl eq_refl)
    as [_ Hexec].
  split.
  - destruct Henv as [_ Hset]; [reflexivity | simpl; intuition discriminate|].
    apply Hset. reflexivity.
  - apply Hexec. simpl. intuition discriminate.
Defined.

Lemma node_starts_only_sftp_witness :
  In (SubsystemStart SFTPSubsys)
     (snd (dispatch Regular.teleportConstants sshNames quietHost node
             (mkRequest "subsystem" true "sftp") (aliceSession false))) /\
  forall sb,
    In (SubsystemStart sb)
       (snd (dispatch Regular.teleportConstants sshNames quietHost node
               (mkRequest "subsystem" true "sftp") (aliceSession false))) ->
    sb = SFTPSubsys.
Proof.
  split; [left; reflexivity|].
  intros sb.
  apply (node_starts_only_sftp Regular.teleportConstants sshNames quietHost node
           (mkRequest "subsystem" true "sftp") (aliceSession false) sb).
  reflexivity.
Defined.

Definition nodeWithoutX11 : Server :=
  mkServer Regular.nodeServer (mkX11Config false 10%Z 1000%Z) true.

Definition forwardToDB : DirectTCPIPReq := mkDirectTCPIPReq "db.internal" 5432%Z "10.0.0.9" 51000%Z.

Lemma context_closed_on_return_witness :
  closesOnce (handleDirectTCPIPRequest sshNames quietHost node forwardToDB) /\
  closesOnce (handleProxyJump quietHost proxy forwardToDB) /\
  closesOnce (handleSessionRequests Regular.teleportConstants sshNames quietHost node
                [IncomingRequest (Some (mkRequest "env" true "LANG=C")); ContextDone]).
Proof.
  destruct (context_closed_on_return Regular.teleportConstants sshNames quietHost node
              (aliceSession false) forwardToDB
              [IncomingRequest (Some (mkRequest "env" true "LANG=C")); ContextDone]
              eq_refl) as (Hdirect & _ & Hsession).
  destruct (context_closed_on_return Regular.teleportConstants sshNames quietHost proxy
              (aliceSession false) forwardToDB [] eq_refl) as (_ & Hjump & _).
  split; [exact Hdirect|]. split; [exact Hjump|].
  apply Hsession; reflexivity.
Defined.


Lemma denied_X11_is_answered_twice_witness :
  exists m es1 es2 es3,
    fst (sessionLoop Regular.teleportConstants sshNames quietHost nodeWithoutX11
           (aliceSession false) 0
           [IncomingRequest (Some (mkRequest "x11-req" true "")); ContextDone])
      = es1 ++ Reply false m :: es2 ++ Reply true "" :: es3
        ++ fst (sessionLoop Regular.teleportConstants sshNames quietHost nodeWithoutX11
                  (aliceSession false) 1 [ContextDone]) /\
    snd (sessionLoop Regular.teleportConstants sshNames quietHost nodeWithoutX11
           (aliceSession false) 0
           [IncomingRequest (Some (mkRequest "x11-req" true "")); ContextDone])
      = snd (sessionLoop Regular.teleportConstants sshNames quietHost nodeWithoutX11
               (aliceSession false) 1 [ContextDone]).
Proof.
  apply (denied_X11_is_answered_twice Regular.teleportConstants sshNames quietHost
           nodeWithoutX11 (aliceSession false) 0 (mkRequest "x11-req" true "")
           [ContextDone]);
    try reflexivity.
  simpl. intuition discriminate.
Defined.

Lemma session_ends_at_first_failure_witness :
  sessionLoop Regular.teleportConstants sshNames quietHost node (aliceSession true) 0
    ([IncomingRequest (Some (mkRequest "shell" true ""))]
     ++ IncomingRequest (Some (mkRequest "exec" true "ls"))
        :: [IncomingRequest (Some (mkRequest "env" true "LANG=C"))])
  = sessionLoop Regular.teleportConstants sshNames quietHost node (aliceSession true) 0
      ([IncomingRequest (Some (mkRequest "shell" true ""))]
       ++ [IncomingRequest (Some (mkRequest "exec" true "ls"))]).
Proof.
  exact (proj1 (session_ends_at_first_failure Regular.teleportConstants sshNames
                  quietHost node (aliceSession true) (mkRequest "exec" true "ls")
                  (AccessDenied "attempted exec request in join-only mode")
                  [IncomingRequest (Some (mkRequest "shell" true ""))]
                  [IncomingRequest (Some (mkRequest "env" true "LANG=C"))]
                  eq_refl 0)).
Defined.

Lemma global_request_replies_witness :
  (List.length (filter isReply
     (HandleRequest sshNames quietHost (mkRequest "keepalive@openssh.com" true "")))
   <= 1)%nat /\
  List.length (filter isReply
     (HandleRequest sshNames quietHost (mkRequest "keepalive@openssh.com" true "")))
  = 1%nat.
Proof.
  destruct (global_request_replies sshNames quietHost
              (mkRequest "keepalive@openssh.com" true "")) as (Hmost & Hexact & _).
  - discriminate.
  - split; [exact Hmost|]. apply Hexact. discriminate.
Defined.
End Requests.

(* ===================================================================== *)
(** * lib/srv/regular/sshserver.go: the static labels of a server          *)
(* ===================================================================== *)

Module Labels.

(** A [map[string]string]: its entries, one for each key, in the order in
    which a [range] over the map happens to visit them. *)
Definition LabelMap : Type := list (string * string).


(** [m[k] = v]. *)
Definition store (k v : string) (m : LabelMap) : LabelMap :=
  (k, v) :: filter (fun kv => negb (fst kv =? k)) m.

(** The fields of [Server] that hold static labels; [cloudLabels] is what
    [s.cloudLabels.Get()] returns, or [None] for a nil importer.  The
    dynamic labels, which no function modelled here reads, are left out. *)
Record Server : Type := mkServer {
  labels : LabelMap;
  cloudLabels : option LabelMap
}.

Section SetLabels.

(** [types.IsValidLabelKey] and the error of [labels.NewDynamic]. *)
Variable IsValidLabelKey : string -> bool.
Variable NewDynamic_err : option Error.













End SetLabels.



End Labels.

(* ===================================================================== *)
(** * lib/client/interfaces.go: what a loaded key holds and gives out      *)
(* ===================================================================== *)

Module Keys.

Import Client.

(** [x509.Certificate], the fields read here. *)
Record X509Certificate : Type := mkX509Certificate {
  Issuer_CommonName : string;
  NotAfter : Z
}.

(** [tls.Config], the fields set here; the pool [RootCAs] is the list of
    the PEM blocks appended to it. *)
Record TLSConfig : Type := mkTLSConfig {
  CipherSuites : list Z;
  RootCAs : list bytes;
  Certificates : list (list bytes);
  ServerName : string
}.

Section WithLib.

Variable lib : Lib.

(** The certificate chain [tls.X509KeyPair] returns beside its error
    (the field [Certificate] of the [tls.Certificate]), and the calls into
    [crypto/x509], [lib/utils], [lib/services], [lib/tlsca] and
    [lib/sshutils]. *)
Variable X509KeyPair_chain : bytes -> bytes -> list bytes.
Variable x509_ParseCertificate : bytes -> result X509Certificate.
Variable utils_TLSConfig : list Z -> TLSConfig.
Variable EncodeClusterName : string -> string.
Variable ParseCertificatePEM : bytes -> result X509Certificate.
Variable AsAgentKeys_ : Certificate -> bytes -> result (list string).
Variable AsAuthMethod_ : Certificate -> bytes -> result string.

(** [Key.TLSCAs]. *)
Definition TLSCAs (k : Key) : list bytes :=
  flat_map TLSCertificates (TrustedCA k).

(** The loop over [k.TLSCAs()] in [clientTLSConfig]: the pool, or the
    error at the first block that does not parse. *)
Fixpoint poolOf (cas : list bytes) (pool : list bytes) : result (list bytes) :=
  match cas with
  | [] => Ok pool
  | caPEM :: rest =>
    if negb (AppendCertsFromPEM lib caPEM) then
      Err (BadParameter "failed to parse TLS CA certificate")
    else poolOf rest (pool ++ [caPEM])
  end.

(** [Key.clientTLSConfig]. *)
Definition clientTLSConfig (k : Key) (cipherSuites : list Z) (tlsCertRaw : bytes)
  : outcome TLSConfig :=
  match X509KeyPair lib tlsCertRaw (Priv k) with
  | Some err => Failed (Wrap err)
  | None =>
    let tlsCert := X509KeyPair_chain tlsCertRaw (Priv k) in
    match poolOf (TLSCAs k) [] with
    | Err err => Failed err
    | Ok pool =>
      let tlsConfig := utils_TLSConfig cipherSuites in
      let tlsConfig := mkTLSConfig (CipherSuites tlsConfig) pool
                         (Certificates tlsConfig ++ [tlsCert]) (ServerName tlsConfig) in
      match index0 tlsCert with
      | Panicked m => Panicked m
      | Failed e => Failed e
      | Returned der =>
        match x509_ParseCertificate der with
        | Err err => Failed (WrapMsg err "failed to parse TLS cert")
        | Ok leaf =>
          Returned (mkTLSConfig (CipherSuites tlsConfig) (RootCAs tlsConfig)
                      (Certificates tlsConfig)
                      (EncodeClusterName (Issuer_CommonName leaf)))
        end
      end
    end
  end.

(** [Key.TeleportClientTLSConfig]. *)
Definition TeleportClientTLSConfig (k : Key) (cipherSuites : list Z) : outcome TLSConfig :=
  clientTLSConfig k cipherSuites (TLSCert k).

(** [Key.CertUsername]. *)
Definition CertUsername (k : Key) : result string :=
  match SSHCert lib k with
  | Err err => Err (Wrap err)
  | Ok cert => Ok (KeyId cert)
  end.

(** [Key.CertValidBefore]: [time.Unix(int64(cert.ValidBefore), 0)], in
    seconds. *)
Definition CertValidBefore (k : Key) : result Z :=
  match SSHCert lib k with
  | Err err => Err (Wrap err)
  | Ok cert => Ok (ValidBefore cert)
  end.

(** [Key.AsAgentKeys]. *)
Definition AsAgentKeys (k : Key) : result (list string) :=
  match SSHCert lib k with
  | Err err => Err (Wrap err)
  | Ok cert => AsAgentKeys_ cert (Priv k)
  end.

(** [Key.AsAuthMethod]. *)
Definition AsAuthMethod (k : Key) : result string :=
  match SSHCert lib k with
  | Err err => Err (Wrap err)
  | Ok cert => AsAuthMethod_ cert (Priv k)
  end.

(** [Key.TeleportTLSCertificate]. *)
Definition TeleportTLSCertificate (k : Key) : result X509Certificate :=
  ParseCertificatePEM (TLSCert k).

(** [Key.TeleportTLSCertValidBefore]. *)
Definition TeleportTLSCertValidBefore (k : Key) : result Z :=
  match TeleportTLSCertificate k with
  | Err err => Err (Wrap err)
  | Ok cert => Ok (NotAfter cert)
  end.

(** [Key.RootClusterName]. *)
Definition RootClusterName (k : Key) : result string :=
  match TeleportTLSCertificate k with
  | Err err => Err (Wrap err)
  | Ok cert =>
    let clusterName := Issuer_CommonName cert in
    if clusterName =? "" then
      Err (NotFound "failed to extract root cluster name from Teleport TLS cert")
    else Ok clusterName
  end.

Lemma appendTLSCAs_None (i : nat) (certs : list bytes) :
  appendTLSCAs lib i certs = None ->
  Forall (fun c => AppendCertsFromPEM lib c = true) certs.
Proof.
  revert i. induction certs as [|c rest IH]; intros i H.
  - constructor.
  - cbn [appendTLSCAs] in H.
    destruct (AppendCertsFromPEM lib c) eqn:Hc; cbn [negb] in H; [|discriminate H].
    constructor; [exact Hc | exact (IH _ H)].
Qed.

Lemma parseSSHCAs_None (certs : list bytes) :
  parseSSHCAs lib certs = None ->
  Forall (fun c => ParseKnownHosts lib c = None) certs.
Proof.
  induction certs as [|c rest IH]; intros H.
  - constructor.
  - cbn [parseSSHCAs] in H.
    destruct (ParseKnownHosts lib c) eqn:Hc; [discriminate H|].
    constructor; [exact Hc | exact (IH H)].
Qed.

Lemma poolOf_all (cas pool : list bytes) :
  Forall (fun c => AppendCertsFromPEM lib c = true) cas ->
  poolOf cas pool = Ok (pool ++ cas).
Proof.
  revert pool. induction cas as [|c rest IH]; intros pool H.
  - cbn [poolOf]. rewrite app_nil_r. reflexivity.
  - inversion H as [|x l Hc Hrest]; subst.
    cbn [poolOf]. rewrite Hc. cbn [negb]. rewrite (IH _ Hrest), <- app_assoc. reflexivity.
Qed.

(** What [KeyFromIdentityFile] checked and stored when it returned a key. *)
Record loadedFrom (ident : IdentityFile) (k : Key) : Prop := mkLoadedFrom {
  loaded_Priv : Priv k = PrivateKey ident;
  loaded_Cert : Cert k = Certs_SSH ident;
  loaded_TLSCert : TLSCert k = Certs_TLS ident;
  loaded_SSHCAs : SSHCAs k = CACerts_SSH ident;
  loaded_TLSCAs : TLSCAs k = CACerts_TLS ident;
  loaded_pair :
    Certs_TLS ident <> "" ->
    X509KeyPair lib (Certs_TLS ident) (PrivateKey ident) = None;
  loaded_TLS_parse : Forall (fun c => AppendCertsFromPEM lib c = true) (CACerts_TLS ident);
  loaded_SSH_parse : Forall (fun c => ParseKnownHosts lib c = None) (CACerts_SSH ident)
}.

Lemma KeyFromIdentityFile_loadedFrom (path : string) (k : Key) :
  KeyFromIdentityFile lib path = Ok k ->
  exists ident, ReadIdentityFile lib path = Ok ident /\ loadedFrom ident k.
Proof.
  unfold KeyFromIdentityFile.
  destruct (ReadIdentityFile lib path) as [ident|e]; [|intros H; discriminate H].
  destruct (ParseRawPrivateKey lib (PrivateKey ident)) as [privKey|e];
    [|intros H; discriminate H].
  destruct (NewSignerFromKey lib privKey) as [pub|e]; [|intros H; discriminate H].
  destruct (if Nat.ltb 0 (String.length (Certs_TLS ident))
            then X509KeyPair lib (Certs_TLS ident) (PrivateKey ident) else None)
    as [e|] eqn:Hpair; [intros H; discriminate H|].
  assert (Hp : Certs_TLS ident <> "" ->
               X509KeyPair lib (Certs_TLS ident) (PrivateKey ident) = None).
  { intros Hne. destruct (Certs_TLS ident) as [|c t]; [contradiction | exact Hpair]. }
  destruct (Nat.ltb 0 (List.length (CACerts_TLS ident))
            || Nat.ltb 0 (List.length (CACerts_SSH ident))) eqn:Hca.
  - destruct (appendTLSCAs lib 0 (CACerts_TLS ident)) as [e|] eqn:Htls;
      [intros H; discriminate H|].
    destruct (parseSSHCAs lib (CACerts_SSH ident)) as [e|] eqn:Hssh;
      [intros H; discriminate H|].
    intros H. injection H as H. subst k. exists ident. split; [reflexivity|].
    constructor; try reflexivity; try exact Hp.
    + unfold SSHCAs. cbn. apply app_nil_r.
    + unfold TLSCAs. cbn. apply app_nil_r.
    + exact (appendTLSCAs_None _ _ Htls).
    + exact (parseSSHCAs_None _ Hssh).
  - apply orb_false_iff in Hca. destruct Hca as [Ht Hs].
    intros H. injection H as H. subst k. exists ident. split; [reflexivity|].
    destruct (CACerts_TLS ident) as [|t ts] eqn:Et; [|discriminate Ht].
    destruct (CACerts_SSH ident) as [|c cs] eqn:Es; [|discriminate Hs].
    constructor; try reflexivity; try exact Hp; try (rewrite Et); try (rewrite Es);
      try reflexivity; constructor.
Qed.

(** X16: a key that [KeyFromIdentityFile] returned holds the private key
    and the certificates of the identity file, and [SSHCAs] and [TLSCAs]
    give back exactly the CA lists of the file, each entry of which was
    parsed successfully (as was the TLS key pair if the file has one); so
    [ClientSSHConfig] is built from the file's certificate, key and SSH
    CAs. *)
Theorem KeyFromIdentityFile_loads_the_file (path : string) (k : Key) :
  KeyFromIdentityFile lib path = Ok k ->
  exists ident,
    ReadIdentityFile lib path = Ok ident /\
    Priv k = PrivateKey ident /\ Cert k = Certs_SSH ident /\
    TLSCert k = Certs_TLS ident /\
    SSHCAs k = CACerts_SSH ident /\ TLSCAs k = CACerts_TLS ident /\
    Forall (fun c => AppendCertsFromPEM lib c = true) (TLSCAs k) /\
    Forall (fun c => ParseKnownHosts lib c = None) (SSHCAs k) /\
    (TLSCert k <> "" -> X509KeyPair lib (TLSCert k) (Priv k) = None) /\
    ClientSSHConfig lib k
      = SSHClientConfig lib (Certs_SSH ident) (PrivateKey ident) (CACerts_SSH ident).
Proof.
  intros H. destruct (KeyFromIdentityFile_loadedFrom path k H) as [ident [Hread L]].
  destruct L as [Hpriv Hcert Htls Hssh Htlsca Hpair Hpt Hps].
  exists ident. unfold ClientSSHConfig.
  rewrite Hpriv, Hcert, Htls, Hssh, Htlsca.
  repeat split; assumption.
Qed.

(** X17: the TLS client configuration of a key loaded from an identity
    file with a TLS certificate never fails on the key pair or on a CA
    block, both having been checked at load time: once the leaf of the
    chain parses, the configuration is returned with the file's TLS CAs as
    root pool, the chain added to the certificates and the encoded issuer
    name as server name. *)
Theorem loaded_key_TLS_config (path : string) (k : Key) (cipherSuites : list Z)
    (der : bytes) (chain : list bytes) (leaf : X509Certificate) :
  KeyFromIdentityFile lib path = Ok k ->
  TLSCert k <> "" ->
  X509KeyPair_chain (TLSCert k) (Priv k) = der :: chain ->
  x509_ParseCertificate der = Ok leaf ->
  TeleportClientTLSConfig k cipherSuites
    = Returned (mkTLSConfig (CipherSuites (utils_TLSConfig cipherSuites))
                  (TLSCAs k)
                  (Certificates (utils_TLSConfig cipherSuites) ++ [der :: chain])
                  (EncodeClusterName (Issuer_CommonName leaf))).
Proof.
  intros H Hne Hchain Hleaf.
  destruct (KeyFromIdentityFile_loadedFrom path k H) as [ident [Hread L]].
  destruct L as [Hpriv Hcert Htls Hssh Htlsca Hpair Hpt Hps].
  unfold TeleportClientTLSConfig, clientTLSConfig.
  rewrite Hchain. rewrite Htls in *. rewrite Hpriv in *.
  rewrite (Hpair Hne).
  rewrite Htlsca, (poolOf_all _ [] Hpt). cbn [app index0 RootCAs CipherSuites Certificates].
  rewrite Hleaf. reflexivity.
Qed.

(** X18: on a key without an SSH certificate every accessor of the
    certificate fails with the same NotFound error and none panics;
    [ProxyClientSSHConfig] fails with it too once the SSH client
    configuration could be built. *)
Theorem key_without_SSH_cert (k : Key) (keyStore : string) :
  Cert k = None ->
  let missing := NotFound "SSH cert not available" in
  SSHCert lib k = Err missing /\
  CertUsername k = Err missing /\
  CertPrincipals lib k = Err missing /\
  CertValidBefore k = Err missing /\
  AsAgentKeys k = Err missing /\
  AsAuthMethod k = Err missing /\
  CheckCert lib k = Failed missing /\
  (forall cfg, ClientSSHConfig lib k = Ok cfg ->
               ProxyClientSSHConfig lib k keyStore = Failed missing).
Proof.
  intros Hc missing.
  assert (Hs : SSHCert lib k = Err missing) by (unfold SSHCert; rewrite Hc; reflexivity).
  unfold CertUsername, CertPrincipals, CertValidBefore, AsAgentKeys, AsAuthMethod,
    CheckCert, ProxyClientSSHConfig, CertPrincipals.
  rewrite Hs. repeat split.
  intros cfg Hcfg. rewrite Hcfg. reflexivity.
Qed.

End WithLib.

Definition leafCert : X509Certificate := mkX509Certificate "example.com" 1700000000%Z.

Definition noSuites : list Z -> TLSConfig := fun suites => mkTLSConfig suites [] [] "".

Lemma sampleIdentity_loads :
  KeyFromIdentityFile (libParsing ["alice"]) identityPath
    = Ok (mkKey "PRIVATE KEY" "public key" (Some "ssh-cert") "TLS CERT"
            [mkTrustedCerts ["CA PEM"] ["@cert-authority example.com ssh-rsa AAAA"]]).
Proof. reflexivity. Qed.

Lemma KeyFromIdentityFile_loads_the_file_witness :
  exists ident,
    ReadIdentityFile (libParsing ["alice"]) identityPath = Ok ident /\
    Priv (mkKey "PRIVATE KEY" "public key" (Some "ssh-cert") "TLS CERT"
            [mkTrustedCerts ["CA PEM"] ["@cert-authority example.com ssh-rsa AAAA"]])
      = PrivateKey ident.
Proof.
  destruct (KeyFromIdentityFile_loads_the_file (libParsing ["alice"]) identityPath _
              sampleIdentity_loads) as [ident (Hr & Hp & _)].
  exists ident. split; [exact Hr | exact Hp].
Defined.

Lemma loaded_key_TLS_config_witness :
  TeleportClientTLSConfig (libParsing ["alice"]) (fun _ _ => ["DER"])
      (fun _ => Ok leafCert) noSuites (fun n => n)
      (mkKey "PRIVATE KEY" "public key" (Some "ssh-cert") "TLS CERT"
         [mkTrustedCerts ["CA PEM"] ["@cert-authority example.com ssh-rsa AAAA"]])
      [4865%Z]
    = Returned (mkTLSConfig [4865%Z] ["CA PEM"] [["DER"]] "example.com").
Proof.
  apply (loaded_key_TLS_config (libParsing ["alice"]) (fun _ _ => ["DER"])
           (fun _ => Ok leafCert) noSuites (fun n => n) identityPath _ [4865%Z]
           "DER" [] leafCert sampleIdentity_loads);
    [discriminate | reflexivity | reflexivity].
Defined.

Definition bareKey : Key := mkKey "PRIVATE KEY" "public key" None "TLS CERT" [].

Lemma key_without_SSH_cert_witness :
  CheckCert (libParsing ["alice"]) bareKey = Failed (NotFound "SSH cert not available") /\
  ProxyClientSSHConfig (libParsing ["alice"]) bareKey "keystore"
    = Failed (NotFound "SSH cert not available").
Proof.
  destruct (key_without_SSH_cert (libParsing ["alice"]) (fun _ _ => Ok [])
              (fun _ _ => Ok "publickey") bareKey "keystore" eq_refl)
    as (_ & _ & _ & _ & _ & _ & Hcheck & Hproxy).
  split; [exact Hcheck|].
  apply (Hproxy (mkClientConfig "alice" (TrustSSHCAs []))). reflexivity.
Defined.
End Keys.
